(** * Probing Wav2Vec2 hidden states for phoneme information

    A shallow embedding of the data-handling code of the notebook
    [IEinAI_probing_wav2vec2_student_version.ipynb]: the phoneme aligner
    [sort_states_per_phoneme], the label table [phoneme_mapping], the dataset
    builders [data_loader] and [balance_classes], and the layer-wise probing
    loop.

    Python values are modelled as follows.
    - [int] is [Z]; [str] is [string]; a Python [list] is a Rocq [list].
    - [float] is IEEE 754 binary64, given by [spec_float] of the standard
      library with [prec = 53] and [emax = 1024], so that the quotient
      [(start / 16000) / 0.020] is rounded twice exactly as CPython rounds it.
    - [dict], [defaultdict] and [Counter] keep insertion order, on which the
      loops over [.items()] and [.keys()] depend: they are association lists
      with unique keys, in insertion order.
    - a raised exception is the [Raise] case of [result]. *)

From Stdlib Require Import String.
From Stdlib Require Import ZArith QArith Qround List Bool Lia Arith.
From Stdlib Require Import Floats.SpecFloat.
Import ListNotations.
Close Scope Q_scope.

Set Implicit Arguments.

(* ================================================================== *)
(** * Part I: definitions *)
(* ================================================================== *)

(** ** Exceptions and results *)

Inductive exn : Type :=
| KeyError_label (k : string)   (* a [str] key missing from a dict *)
| KeyError_layer (k : nat)      (* an [int] key missing from a dict *)
| IndexError                    (* list index out of range *)
| ValueError                    (* [min()] of an empty sequence, [math.floor(nan)] *)
| OverflowError                 (* [math.floor(inf)] *)
| NotFittedError.               (* [predict] on a classifier never fitted *)

Inductive result (A : Type) : Type :=
| Ok (a : A)
| Raise (e : exn).
Arguments Ok {A} a.
Arguments Raise {A} e.

Definition bind {A B : Type} (r : result A) (k : A -> result B) : result B :=
  match r with
  | Ok a => k a
  | Raise e => Raise e
  end.

Declare Scope py_scope.
Delimit Scope py_scope with py.
Notation "x <- r ;; k" := (bind r (fun x => k))
  (at level 61, r at next level, right associativity) : py_scope.
Notation "' p <- r ;; k" := (bind r (fun p => k))
  (at level 61, p pattern, r at next level, right associativity) : py_scope.
Open Scope py_scope.

(** ** Insertion-ordered dictionaries with [str] keys *)

Definition sdict (V : Type) : Type := list (string * V).

Fixpoint dict_get {V : Type} (d : sdict V) (k : string) : option V :=
  match d with
  | [] => None
  | (k', v) :: d' => if String.eqb k' k then Some v else dict_get d' k
  end.

Definition dict_keys {V : Type} (d : sdict V) : list string := map fst d.

(** [d[k].extend(xs)] on a [defaultdict(list)]: a missing key is first
    inserted (at the end) with the empty list. *)
Fixpoint dd_extend {A : Type} (d : sdict (list A)) (k : string) (xs : list A)
  : sdict (list A) :=
  match d with
  | [] => [(k, xs)]
  | (k', v) :: d' =>
      if String.eqb k' k then (k', v ++ xs) :: d'
      else (k', v) :: dd_extend d' k xs
  end.

(** Reading a [defaultdict(list)] without inserting. *)
Definition dd_get {A : Type} (d : sdict (list A)) (k : string) : list A :=
  match dict_get d k with
  | Some l => l
  | None => []
  end.

(** ** Python lists *)

(** [range(a, b)] *)
Definition py_range (a b : Z) : list Z :=
  map (fun i => (a + Z.of_nat i)%Z) (seq 0 (Z.to_nat (b - a))).

(** [l[idx]]: a negative index counts from the end; out of range raises. *)
Definition list_getitem {A : Type} (l : list A) (idx : Z) : result A :=
  let n := Z.of_nat (length l) in
  let i := if (idx <? 0)%Z then (idx + n)%Z else idx in
  if (i <? 0)%Z then Raise IndexError
  else match nth_error l (Z.to_nat i) with
       | Some x => Ok x
       | None => Raise IndexError
       end.

(** [zip(a, b, c)] stops at the shortest argument. *)
Fixpoint zip3 {A B C : Type} (a : list A) (b : list B) (c : list C)
  : list (A * B * C) :=
  match a, b, c with
  | x :: a', y :: b', z :: c' => (x, y, z) :: zip3 a' b' c'
  | _, _, _ => []
  end.

(** ** Binary64 arithmetic *)

Module Float64.

Definition prec : Z := 53.
Definition emax : Z := 1024.

(** [float(z)], round to nearest even. *)
Definition of_int (z : Z) : spec_float := binary_normalize prec emax z 0 false.

(** [x / y] on floats (the divisors of this program are non-zero
    constants). *)
Definition div (x y : spec_float) : spec_float := SFdiv prec emax x y.

(** [a / b] on ints is the correctly rounded quotient; for operands below
    [2^53] in magnitude, which convert exactly, it is the binary64 quotient
    of the converted operands. *)
Definition int_truediv (a b : Z) : spec_float := div (of_int a) (of_int b).

(** The literal [0.020]: the double nearest to 1/50. *)
Definition lit_0_020 : spec_float := S754_finite false 5764607523034235 (-58).

(** The integer [m * 2^e] rounded towards minus infinity. *)
Definition scaled_floor (m e : Z) : Z :=
  if (0 <=? e)%Z then (m * 2 ^ e)%Z else (m / 2 ^ (- e))%Z.

Definition signed (s : bool) (m : positive) : Z :=
  if s then Zneg m else Zpos m.

(** [math.floor(x)] *)
Definition math_floor (x : spec_float) : result Z :=
  match x with
  | S754_zero _ => Ok 0%Z
  | S754_finite s m e => Ok (scaled_floor (signed s m) e)
  | S754_infinity _ => Raise OverflowError
  | S754_nan => Raise ValueError
  end.

(** [math.ceil(x)] *)
Definition math_ceil (x : spec_float) : result Z :=
  match x with
  | S754_zero _ => Ok 0%Z
  | S754_finite s m e => Ok (- scaled_floor (- signed s m) e)%Z
  | S754_infinity _ => Raise OverflowError
  | S754_nan => Raise ValueError
  end.

End Float64.

(** The exponent function of binary64. *)
Definition fexp64 : Z -> Z := fexp Float64.prec Float64.emax.

(** A float that is a zero or finite, of sign [sgn] and magnitude below
    [2^B]. *)
Definition below (sgn : bool) (B : Z) (x : spec_float) : Prop :=
  match x with
  | S754_zero s => s = sgn
  | S754_finite s m e => s = sgn /\ (Zdigits2 (Zpos m) + e <= B)%Z
  | _ => False
  end.

(** ** The phoneme aligner: [sort_states_per_phoneme] *)

(** [data[waveform_idx]["phonetic_detail"]]: three parallel sequences. *)
Record phonetic_detail : Type := {
  pd_start : list Z;
  pd_stop : list Z;
  pd_utterance : list string
}.

(** [(sample / 16000) / 0.020] *)
Definition frame_position (sample : Z) : spec_float :=
  Float64.div (Float64.int_truediv sample 16000) Float64.lit_0_020.

(** [start_index = math.floor((start / 16000) / 0.020)] *)
Definition start_index (start : Z) : result Z :=
  Float64.math_floor (frame_position start).

(** [stop_index = math.ceil((stop / 16000) / 0.020)] *)
Definition stop_index (stop : Z) : result Z :=
  Float64.math_ceil (frame_position stop).

(** [range(start_index, stop_index)] for one segment. *)
Definition segment_indices (start stop : Z) : result (list Z) :=
  a <- start_index start ;;
  b <- stop_index stop ;;
  Ok (py_range a b).

(** The first inner loop: fills [phoneme_indeces]. *)
Fixpoint collect_indices (segs : list (Z * Z * string))
  (phoneme_indeces : sdict (list Z)) : result (sdict (list Z)) :=
  match segs with
  | [] => Ok phoneme_indeces
  | (start, stop, phoneme) :: segs' =>
      idxs <- segment_indices start stop ;;
      collect_indices segs' (dd_extend phoneme_indeces phoneme idxs)
  end.

Section Aligner.
(** A hidden vector (a tensor); the aligner only moves them around. *)
Variable vec : Type.

(** [[waveform[idx] for idx in indeces if idx < len(waveform)]] *)
Fixpoint lookup_states (waveform : list vec) (indeces : list Z)
  : result (list vec) :=
  match indeces with
  | [] => Ok []
  | idx :: rest =>
      if (idx <? Z.of_nat (length waveform))%Z then
        x <- list_getitem waveform idx ;;
        xs <- lookup_states waveform rest ;;
        Ok (x :: xs)
      else lookup_states waveform rest
  end.

(** [frame_states_per_phoneme]: layer index to [defaultdict(list)]. *)
Definition phoneme_table : Type := list (nat * sdict (list vec)).

(** [frame_states]: layer index to waveform index to frame list. *)
Definition frame_table : Type := list (nat * list (nat * list vec)).

(** [table[layer_idx][phoneme].extend(states)] *)
Fixpoint table_extend (table : phoneme_table) (layer_idx : nat)
  (phoneme : string) (states : list vec) : result phoneme_table :=
  match table with
  | [] => Raise (KeyError_layer layer_idx)
  | (l, bucket) :: table' =>
      if Nat.eqb l layer_idx then Ok ((l, dd_extend bucket phoneme states) :: table')
      else
        table'' <- table_extend table' layer_idx phoneme states ;;
        Ok ((l, bucket) :: table'')
  end.

(** The second inner loop: stores the states of one waveform. *)
Fixpoint store_states (layer_idx : nat) (waveform : list vec)
  (phoneme_indeces : sdict (list Z)) (table : phoneme_table)
  : result phoneme_table :=
  match phoneme_indeces with
  | [] => Ok table
  | (phoneme, indeces) :: rest =>
      phoneme_states <- lookup_states waveform indeces ;;
      table' <- table_extend table layer_idx phoneme phoneme_states ;;
      store_states layer_idx waveform rest table'
  end.

Definition segments (phonemes : phonetic_detail) : list (Z * Z * string) :=
  zip3 (pd_start phonemes) (pd_stop phonemes) (pd_utterance phonemes).

Definition data_getitem (data : list phonetic_detail) (waveform_idx : nat)
  : result phonetic_detail :=
  match nth_error data waveform_idx with
  | Some d => Ok d
  | None => Raise IndexError
  end.

(** The body of the loop over [layer.items()]. *)
Definition sort_waveform (data : list phonetic_detail) (layer_idx : nat)
  (waveform_idx : nat) (waveform : list vec) (table : phoneme_table)
  : result phoneme_table :=
  phonemes <- data_getitem data waveform_idx ;;
  phoneme_indeces <- collect_indices (segments phonemes) [] ;;
  store_states layer_idx waveform phoneme_indeces table.

Fixpoint sort_layer (data : list phonetic_detail) (layer_idx : nat)
  (layer : list (nat * list vec)) (table : phoneme_table)
  : result phoneme_table :=
  match layer with
  | [] => Ok table
  | (waveform_idx, waveform) :: layer' =>
      table' <- sort_waveform data layer_idx waveform_idx waveform table ;;
      sort_layer data layer_idx layer' table'
  end.

Fixpoint sort_layers (data : list phonetic_detail) (frame_states : frame_table)
  (table : phoneme_table) : result phoneme_table :=
  match frame_states with
  | [] => Ok table
  | (layer_idx, layer) :: frame_states' =>
      table' <- sort_layer data layer_idx layer table ;;
      sort_layers data frame_states' table'
  end.

Definition sort_states_per_phoneme (data : list phonetic_detail)
  (frame_states : frame_table) (num_layers : nat) : result phoneme_table :=
  sort_layers data frame_states (map (fun l => (l, [])) (seq 0 num_layers)).

(** What one waveform adds to the bucket of its layer, when nothing
    raises: used to state the properties of the aligner. *)
Definition frames_of (waveform : list vec) (indeces : list Z) : list vec :=
  flat_map (fun idx => match nth_error waveform (Z.to_nat idx) with
                       | Some x => [x]
                       | None => []
                       end)
           (filter (fun idx => (idx <? Z.of_nat (length waveform))%Z) indeces).

Definition table_get (table : phoneme_table) (layer_idx : nat)
  : option (sdict (list vec)) :=
  option_map snd (find (fun e => Nat.eqb (fst e) layer_idx) table).

(** The table with the bucket of [layer_idx] replaced. *)
Fixpoint table_set (table : phoneme_table) (layer_idx : nat)
  (bucket : sdict (list vec)) : phoneme_table :=
  match table with
  | [] => []
  | (l, b) :: table' =>
      if Nat.eqb l layer_idx then (l, bucket) :: table'
      else (l, b) :: table_set table' layer_idx bucket
  end.

(** The bucket of a layer after the states of one waveform were stored. *)
Definition store_bucket (waveform : list vec) (phoneme_indeces : sdict (list Z))
  (bucket : sdict (list vec)) : sdict (list vec) :=
  fold_left (fun b item => dd_extend b (fst item) (frames_of waveform (snd item)))
            phoneme_indeces bucket.

End Aligner.

(** The frame indices of a segment, as a plain list. *)
Definition segment_range (seg : Z * Z * string) : list Z :=
  match segment_indices (fst (fst seg)) (snd (fst seg)) with
  | Ok idxs => idxs
  | Raise _ => []
  end.

Definition segment_label (seg : Z * Z * string) : string := snd seg.

(** The segments of an utterance that carry the label [phoneme]. *)
Definition segments_of (phoneme : string) (segs : list (Z * Z * string))
  : list (Z * Z * string) :=
  filter (fun seg => String.eqb (segment_label seg) phoneme) segs.

(** Sample offsets of a corpus: non-negative and exactly convertible to a
    double. *)
Definition valid_sample (sample : Z) : Prop := (0 <= sample < 2 ^ 53)%Z.

Definition valid_segment (seg : Z * Z * string) : Prop :=
  valid_sample (fst (fst seg)) /\ valid_sample (snd (fst seg)).

(** Frame states the aligner is meant for: every waveform index points to
    an utterance of the data with valid sample offsets, and every layer index
    is below [num_layers]. *)
Definition well_formed_waveform {vec : Type} (data : list phonetic_detail)
  (item : nat * list vec) : Prop :=
  exists phonemes, nth_error data (fst item) = Some phonemes /\
                   Forall valid_segment (segments phonemes).

Definition well_formed_frames {vec : Type} (data : list phonetic_detail)
  (num_layers : nat) (frame_states : frame_table vec) : Prop :=
  Forall (fun layer => fst layer < num_layers /\
                       Forall (well_formed_waveform data) (snd layer))
         frame_states.

(** The frame interval as the specification words it, in exact rational
    arithmetic: [floor(start / sample_rate / frame_duration)] and
    [ceil(stop / sample_rate / frame_duration)], with a sample rate of 16000
    and a frame duration of 0.020 = 20/1000. *)
Definition spec_start_frame (start : Z) : Z :=
  Qfloor (inject_Z start / inject_Z 16000 / (20 # 1000))%Q.

Definition spec_stop_frame (stop : Z) : Z :=
  Qceiling (inject_Z stop / inject_Z 16000 / (20 # 1000))%Q.

(** Frame boundary [k], at sample [320 * k], is one where the computed
    start index, or the computed stop index, is not [k]. *)
Definition start_drifts (k : Z) : bool :=
  match start_index (320 * k) with
  | Ok a => negb (a =? k)%Z
  | Raise _ => true
  end.

Definition stop_drifts (k : Z) : bool :=
  match stop_index (320 * k) with
  | Ok b => negb (b =? k)%Z
  | Raise _ => true
  end.

(** ** The label collapser: [phoneme_mapping] *)

Open Scope string_scope.
Open Scope list_scope.

Definition phoneme_mapping : sdict string :=
  [ ("p", "p"); ("b", "b"); ("t", "t"); ("d", "d"); ("k", "k"); ("g", "g");
    ("dx", "dx"); ("f", "f"); ("v", "v"); ("dh", "dh"); ("th", "th");
    ("s", "s"); ("z", "z"); ("r", "r"); ("w", "w"); ("y", "y");
    ("jh", "jh"); ("ch", "ch"); ("iy", "iy"); ("eh", "eh"); ("ey", "ey");
    ("ae", "ae"); ("aw", "aw"); ("ay", "ay"); ("oy", "oy"); ("ow", "ow");
    ("uh", "uh"); ("ah", "ah"); ("ax", "ah"); ("ax-h", "ah"); ("aa", "aa");
    ("ao", "aa"); ("er", "er"); ("axr", "er"); ("hh", "hh"); ("hv", "hh");
    ("ih", "ih"); ("ix", "ih"); ("l", "l"); ("el", "l"); ("m", "m");
    ("em", "m"); ("n", "n"); ("en", "n"); ("nx", "n"); ("ng", "ng");
    ("eng", "ng"); ("sh", "sh"); ("zh", "sh"); ("uw", "uw"); ("ux", "uw");
    ("pcl", "sil"); ("bcl", "sil"); ("tcl", "sil"); ("dcl", "sil");
    ("kcl", "sil"); ("gcl", "sil"); ("h#", "sil"); ("pau", "sil");
    ("epi", "sil") ].

(** [phoneme_mapping[phoneme]] *)
Definition phoneme_mapping_getitem (phoneme : string) : result string :=
  match dict_get phoneme_mapping phoneme with
  | Some coarse => Ok coarse
  | None => Raise (KeyError_label phoneme)
  end.

(** ** The dataset builders: [data_loader] and [balance_classes] *)

(** [phoneme in target_phonemes] on a list of strings. *)
Definition py_in (phoneme : string) (target_phonemes : list string) : bool :=
  existsb (String.eqb phoneme) target_phonemes.

(** [Counter(labels)]: counts, keyed in order of first occurrence. *)
Fixpoint counter_incr (c : sdict nat) (k : string) : sdict nat :=
  match c with
  | [] => [(k, 1)]
  | (k', n) :: c' =>
      if String.eqb k' k then (k', S n) :: c' else (k', n) :: counter_incr c' k
  end.

Definition Counter (labels : list string) : sdict nat :=
  fold_left counter_incr labels [].

(** [min(values)] *)
Definition py_min (values : list nat) : result nat :=
  match values with
  | [] => Raise ValueError
  | v :: values' => Ok (fold_left Nat.min values' v)
  end.

Section Datasets.
(** A hidden vector; an entry of a hidden-state list is a Python object that
    [data_loader] compares with [None], hence [option vec]. *)
Variable vec : Type.

(** The loop over one [hidden_state_list] of [data_loader]; [np.array(i)]
    keeps the numbers of [i] and is the identity here. *)
Fixpoint load_states (phoneme : string) (target_phonemes : option (list string))
  (hidden_state_list : list (option vec)) (X : list vec) (y : list string)
  : result (list vec * list string) :=
  match hidden_state_list with
  | [] => Ok (X, y)
  | i :: rest =>
      match i with
      | Some v =>
          if negb (String.eqb phoneme "q") then
            match target_phonemes with
            | None =>
                coarse <- phoneme_mapping_getitem phoneme ;;
                load_states phoneme target_phonemes rest (X ++ [v]) (y ++ [coarse])
            | Some target =>
                if py_in phoneme target then
                  coarse <- phoneme_mapping_getitem phoneme ;;
                  load_states phoneme target_phonemes rest (X ++ [v]) (y ++ [coarse])
                else load_states phoneme target_phonemes rest X y
            end
          else load_states phoneme target_phonemes rest X y
      | None => load_states phoneme target_phonemes rest X y
      end
  end.

(** The loop over [hidden_state_dict[layer_idx].items()]. *)
Fixpoint load_phonemes (target_phonemes : option (list string))
  (items : sdict (list (option vec))) (X : list vec) (y : list string)
  : result (list vec * list string) :=
  match items with
  | [] => Ok (X, y)
  | (phoneme, hidden_state_list) :: items' =>
      '(X', y') <- load_states phoneme target_phonemes hidden_state_list X y ;;
      load_phonemes target_phonemes items' X' y'
  end.

Definition data_loader (hidden_state_dict : phoneme_table (option vec))
  (layer_idx : nat) (target_phonemes : option (list string))
  : result (list vec * list string) :=
  match table_get hidden_state_dict layer_idx with
  | None => Raise (KeyError_layer layer_idx)
  | Some bucket => load_phonemes target_phonemes bucket [] []
  end.

(** The inner loop of [balance_classes] for one [label]: [Some] when the
    loop leaves through [break], with the instances and labels it then
    hands over; [None] when [zip] is exhausted first. *)
Fixpoint take_class (label : string) (num_instances_per_class i : nat)
  (instances : list vec) (labels : list string) (pairs : list (vec * string))
  : option (list vec * list string) :=
  match pairs with
  | [] => None
  | (x, y) :: pairs' =>
      if String.eqb y label then
        if Nat.eqb i num_instances_per_class
        then Some (instances ++ [x], labels ++ [y])
        else take_class label num_instances_per_class (S i)
                        (instances ++ [x]) (labels ++ [y]) pairs'
      else take_class label num_instances_per_class i instances labels pairs'
  end.

(** The loop over [class_distribution.keys()]. *)
Fixpoint balance_labels (keys : list string) (num_instances_per_class : nat)
  (X_instances : list vec) (y_labels : list string)
  (balanced_data_X : list vec) (balanced_data_y : list string)
  : list vec * list string :=
  match keys with
  | [] => (balanced_data_X, balanced_data_y)
  | label :: keys' =>
      match take_class label num_instances_per_class 1 [] []
                       (combine X_instances y_labels) with
      | Some (instances, labels) =>
          balance_labels keys' num_instances_per_class X_instances y_labels
                         (balanced_data_X ++ instances) (balanced_data_y ++ labels)
      | None =>
          balance_labels keys' num_instances_per_class X_instances y_labels
                         balanced_data_X balanced_data_y
      end
  end.

Definition balance_classes (X_instances : list vec) (y_labels : list string)
  : result (list vec * list string) :=
  let class_distribution := Counter y_labels in
  num_instances_per_class <- py_min (map snd class_distribution) ;;
  Ok (balance_labels (dict_keys class_distribution) num_instances_per_class
                     X_instances y_labels [] []).

End Datasets.

(** ** The layer-wise probes and the probing loop *)

Definition phoneme_dict : sdict (list string) :=
  [ ("stops", ["p"; "t"; "k"; "b"; "d"; "g"]);
    ("fricatives", ["f"; "v"; "th"; "dh"; "s"; "z"; "sh"]);
    ("nasals", ["m"; "n"; "ng"]);
    ("approximants", ["l"; "w"; "y"; "hh"]);
    ("vowels", ["aa"; "ow"; "iy"; "eh"; "uh"]) ].

Section Probing.
Variable vec : Type.

(** The classifier library is outside the repository: a fitted classifier
    is a [model]; [fit] may raise; [accuracy_score] returns an [accuracy]. *)
Variable model : Type.
Variable accuracy : Type.
Variable fit : list vec -> list string -> result model.
Variable predict : model -> list vec -> list string.
Variable accuracy_score : list string -> list string -> accuracy.

(** What the loop does to the outside: lines printed, and calls made on the
    classifier instance of a layer. *)
Inductive event : Type :=
| PrintTraining (phoneme_category : string)
| PrintTrainDistribution (distribution : sdict nat)
| PrintTestDistribution (distribution : sdict nat)
| PrintAccuracy (layer_idx : nat) (test_acc : accuracy)
| CallFit (layer_idx : nat)
| CallPredict (layer_idx : nat).

(** [layer_probes] maps a layer index to its classifier instance, whose
    state is its fitted model, if any; [console] is what was printed and
    called so far. *)
Record world : Type := {
  layer_probes : list (nat * option model);
  console : list event
}.

(** Computations that change the world and may raise; what was done before
    an exception stays done. *)
Definition M (A : Type) : Type := world -> world * result A.

Definition ret {A : Type} (a : A) : M A := fun w => (w, Ok a).

Definition mbind {A B : Type} (m : M A) (k : A -> M B) : M B :=
  fun w => match m w with
           | (w', Ok a) => k a w'
           | (w', Raise e) => (w', Raise e)
           end.

Definition lift {A : Type} (r : result A) : M A := fun w => (w, r).

Definition emit (e : event) : M unit :=
  fun w => ({| layer_probes := layer_probes w; console := console w ++ [e] |}, Ok tt).

Notation "x <~ m ;; k" := (mbind m (fun x => k))
  (at level 61, m at next level, right associativity).
Notation "' p <~ m ;; k" := (mbind m (fun p => k))
  (at level 61, p pattern, m at next level, right associativity).
Notation "m ;;; k" := (mbind m (fun _ => k))
  (at level 61, right associativity).

(** [{layer_idx: LogisticRegression(...) for layer_idx in range(num_layers)}] *)
Definition new_layer_probes (num_layers : nat) : list (nat * option model) :=
  map (fun layer_idx => (layer_idx, None)) (seq 0 num_layers).

Definition probes_get (probes : list (nat * option model)) (layer_idx : nat)
  : option (option model) :=
  option_map snd (find (fun e => Nat.eqb (fst e) layer_idx) probes).

Fixpoint probes_set (probes : list (nat * option model)) (layer_idx : nat)
  (m : model) : list (nat * option model) :=
  match probes with
  | [] => []
  | (l, st) :: probes' =>
      if Nat.eqb l layer_idx then (l, Some m) :: probes'
      else (l, st) :: probes_set probes' layer_idx m
  end.

(** Modelled from the spec: the statement under [# Train model], which the
    notebook leaves as [# YOUR CODE HERE]; the probe of the layer is fitted on
    the balanced training data, [layer_probes[layer_idx].fit(train_X, train_y)].
    A fit replaces whatever the instance had learned before. *)
Definition probe_fit (layer_idx : nat) (train_X : list vec) (train_y : list string)
  : M unit :=
  fun w =>
    match probes_get (layer_probes w) layer_idx with
    | None => (w, Raise (KeyError_layer layer_idx))
    | Some _ =>
        let w1 := {| layer_probes := layer_probes w;
                     console := console w ++ [CallFit layer_idx] |} in
        match fit train_X train_y with
        | Raise e => (w1, Raise e)
        | Ok m => ({| layer_probes := probes_set (layer_probes w) layer_idx m;
                      console := console w1 |}, Ok tt)
        end
    end.

(** Modelled from the spec: the right-hand side of [test_pred =], which the
    notebook leaves as [# YOUR CODE HERE]; the probe of the layer predicts the
    balanced test data, [layer_probes[layer_idx].predict(test_X)]. *)
Definition probe_predict (layer_idx : nat) (test_X : list vec) : M (list string) :=
  fun w =>
    match probes_get (layer_probes w) layer_idx with
    | None => (w, Raise (KeyError_layer layer_idx))
    | Some st =>
        let w1 := {| layer_probes := layer_probes w;
                     console := console w ++ [CallPredict layer_idx] |} in
        match st with
        | None => (w1, Raise NotFittedError)
        | Some m => (w1, Ok (predict m test_X))
        end
    end.

Definition when (b : bool) (m : M unit) : M unit := if b then m else ret tt.

(** The body of the loop over [range(num_layers)]. *)
Definition probe_layer (phoneme_states_train phoneme_states_test : phoneme_table (option vec))
  (target_phonemes : list string) (layer_idx : nat) : M accuracy :=
  '(train_X, train_y) <~ lift (data_loader phoneme_states_train layer_idx (Some target_phonemes)) ;;
  '(train_X, train_y) <~ lift (balance_classes train_X train_y) ;;
  when (Nat.eqb layer_idx 0) (emit (PrintTrainDistribution (Counter train_y))) ;;;
  probe_fit layer_idx train_X train_y ;;;
  '(test_X, test_y) <~ lift (data_loader phoneme_states_test layer_idx (Some target_phonemes)) ;;
  '(test_X, test_y) <~ lift (balance_classes test_X test_y) ;;
  when (Nat.eqb layer_idx 0) (emit (PrintTestDistribution (Counter test_y))) ;;;
  test_pred <~ probe_predict layer_idx test_X ;;
  let test_acc := accuracy_score test_y test_pred in
  emit (PrintAccuracy layer_idx test_acc) ;;;
  ret test_acc.

(** The loop over [range(num_layers)], appending to [accs]. *)
Fixpoint probe_layers (phoneme_states_train phoneme_states_test : phoneme_table (option vec))
  (target_phonemes : list string) (layers : list nat) (accs : list accuracy)
  : M (list accuracy) :=
  match layers with
  | [] => ret accs
  | layer_idx :: layers' =>
      test_acc <~ probe_layer phoneme_states_train phoneme_states_test
                              target_phonemes layer_idx ;;
      probe_layers phoneme_states_train phoneme_states_test target_phonemes
                   layers' (accs ++ [test_acc])
  end.

(** The loop over [phoneme_dict.items()], appending to [accs_per_category]. *)
Fixpoint probe_categories (phoneme_states_train phoneme_states_test : phoneme_table (option vec))
  (num_layers : nat) (categories : sdict (list string))
  (accs_per_category : list (list accuracy)) : M (list (list accuracy)) :=
  match categories with
  | [] => ret accs_per_category
  | (phoneme_category, target_phonemes) :: categories' =>
      emit (PrintTraining phoneme_category) ;;;
      accs <~ probe_layers phoneme_states_train phoneme_states_test
                           target_phonemes (seq 0 num_layers) [] ;;
      probe_categories phoneme_states_train phoneme_states_test num_layers
                       categories' (accs_per_category ++ [accs])
  end.

(** One run of the two cells: the probes are created, then the loop runs. *)
Definition probing_run (phoneme_states_train phoneme_states_test : phoneme_table (option vec))
  (num_layers : nat) (categories : sdict (list string))
  : world * result (list (list accuracy)) :=
  probe_categories phoneme_states_train phoneme_states_test num_layers categories []
    {| layer_probes := new_layer_probes num_layers; console := [] |}.

(** The accuracy of one (layer, category group) probe as a function of the
    data of that layer and group alone, when nothing raises. *)
Definition probe_accuracy (phoneme_states_train phoneme_states_test : phoneme_table (option vec))
  (target_phonemes : list string) (layer_idx : nat) : result accuracy :=
  '(train_X, train_y) <- data_loader phoneme_states_train layer_idx (Some target_phonemes) ;;
  '(train_X, train_y) <- balance_classes train_X train_y ;;
  m <- fit train_X train_y ;;
  '(test_X, test_y) <- data_loader phoneme_states_test layer_idx (Some target_phonemes) ;;
  '(test_X, test_y) <- balance_classes test_X test_y ;;
  Ok (accuracy_score test_y (predict m test_X)).

(** The events of one completed iteration for [layer_idx]. *)
Definition iteration_trace (layer_idx : nat) (train_y test_y : list string)
  (test_acc : accuracy) : list event :=
  (if Nat.eqb layer_idx 0 then [PrintTrainDistribution (Counter train_y)] else [])
  ++ [CallFit layer_idx]
  ++ (if Nat.eqb layer_idx 0 then [PrintTestDistribution (Counter test_y)] else [])
  ++ [CallPredict layer_idx; PrintAccuracy layer_idx test_acc].

(** How often the classifier of a layer was fitted, and asked to predict. *)
Definition is_fit_of (layer_idx : nat) (e : event) : bool :=
  match e with
  | CallFit l => Nat.eqb l layer_idx
  | _ => false
  end.

Definition is_predict_of (layer_idx : nat) (e : event) : bool :=
  match e with
  | CallPredict l => Nat.eqb l layer_idx
  | _ => false
  end.

Definition fit_calls (layer_idx : nat) (trace : list event) : nat :=
  length (filter (is_fit_of layer_idx) trace).

Definition predict_calls (layer_idx : nat) (trace : list event) : nat :=
  length (filter (is_predict_of layer_idx) trace).

End Probing.

(** The classifier the probe of a layer holds after its fit, as a function
    of the training data of that layer and category group alone. *)
Definition probe_model {vec model : Type} (fit : list vec -> list string -> result model)
  (phoneme_states_train : phoneme_table (option vec)) (target_phonemes : list string)
  (layer_idx : nat) : result model :=
  '(train_X, train_y) <- data_loader phoneme_states_train layer_idx (Some target_phonemes) ;;
  '(train_X, train_y) <- balance_classes train_X train_y ;;
  fit train_X train_y.

(** ** Classes of a dataset *)

(** The distinct labels of a list, in order of first occurrence. *)
Fixpoint first_occurrences (labels : list string) : list string :=
  match labels with
  | [] => []
  | label :: rest =>
      label :: filter (fun l => negb (String.eqb l label)) (first_occurrences rest)
  end.

(** The number of examples of a class. *)
Definition class_count (labels : list string) (label : string) : nat :=
  count_occ string_dec labels label.

(** The examples of a class, in input order. *)
Definition class_pairs {vec : Type} (label : string) (pairs : list (vec * string))
  : list (vec * string) :=
  filter (fun p => String.eqb (snd p) label) pairs.

(** [m] is the smallest class count of a non-empty dataset. *)
Definition is_min_class_count (m : nat) (labels : list string) : Prop :=
  (exists label, In label labels /\ class_count labels label = m) /\
  forall label, In label labels -> m <= class_count labels label.

(** The balanced dataset as the specification words it: for each distinct
    label in order of first occurrence, the first [m] examples of that
    label in input order. *)
Definition balanced_pairs {vec : Type} (m : nat) (pairs : list (vec * string))
  : list (vec * string) :=
  flat_map (fun label => firstn m (class_pairs label pairs))
           (first_occurrences (map snd pairs)).

(** ** What [data_loader] selects *)

(** The test [data_loader] makes on the fine-grained label of a bucket:
    never [q], and a member of the target list when one is given. *)
Definition selected (target_phonemes : option (list string)) (phoneme : string)
  : bool :=
  negb (String.eqb phoneme "q")
  && match target_phonemes with
     | None => true
     | Some target => py_in phoneme target
     end.

(** The entries of a hidden-state list that are not [None]. *)
Definition present {vec : Type} (hidden_state_list : list (option vec)) : list vec :=
  flat_map (fun i => match i with Some v => [v] | None => [] end) hidden_state_list.

(** The labels loaded for one bucket: its coarse label, once per vector. *)
Definition loaded_labels {vec : Type} (item : string * list (option vec))
  : list string :=
  match dict_get phoneme_mapping (fst item) with
  | Some coarse => repeat coarse (length (present (snd item)))
  | None => []
  end.

(** A bucket whose label must be collapsed but is not in the table. *)
Definition unmapped {vec : Type} (target_phonemes : option (list string))
  (item : string * list (option vec)) : bool :=
  selected target_phonemes (fst item)
  && negb (Nat.eqb (length (present (snd item))) 0)
  && match dict_get phoneme_mapping (fst item) with
     | Some _ => false
     | None => true
     end.

(** The buckets [data_loader] reads. *)
Definition selected_items {vec : Type} (target_phonemes : option (list string))
  (bucket : sdict (list (option vec))) : sdict (list (option vec)) :=
  filter (fun item => selected target_phonemes (fst item)) bucket.


(** The label list of the nasals, and the syllabic and flapped variants that
    collapse onto them. *)
Definition nasals : list string := ["m"; "n"; "ng"].
Definition nasal_variants : list string := ["em"; "en"; "nx"; "eng"].

(** ** Sample inputs *)

(** A frame list whose vectors are the frame numbers themselves. *)
Definition numbered_frames (n : nat) : list Z := map Z.of_nat (seq 0 n).

(** An utterance with a single phoneme segment. *)
Definition one_segment (start stop : Z) (phoneme : string) : phonetic_detail :=
  {| pd_start := [start]; pd_stop := [stop]; pd_utterance := [phoneme] |}.

(** Frame states of one layer and one waveform. *)
Definition one_waveform (frames : list Z) : frame_table Z := [(0, [(0, frames)])].

(** Two adjacent segments whose common boundary, sample 400, lies inside
    frame 1 (samples 320 to 639). *)
Definition adjacent_segments : phonetic_detail :=
  {| pd_start := [0; 400]%Z; pd_stop := [400; 800]%Z; pd_utterance := ["aa"; "b"] |}.

(** Hidden states of one layer: a syllabic nasal, two nasals and a glottal
    stop; the vectors are numbered. *)
Definition sample_bucket : sdict (list (option nat)) :=
  [("em", [Some 1]); ("m", [Some 2; None]); ("q", [Some 3]); ("n", [Some 4])].

Definition sample_states : phoneme_table (option nat) := [(0, sample_bucket)].

(** A stand-in for the classifier library: the fitted model is the first
    training label, predicted for every vector; the accuracy is the number of
    matches with the number of examples. *)
Definition sample_fit (X : list nat) (y : list string) : result string :=
  match y with
  | [] => Raise ValueError
  | label :: _ => Ok label
  end.

Definition sample_predict (m : string) (X : list nat) : list string :=
  map (fun _ => m) X.

Definition sample_accuracy_score (y_true y_pred : list string) : nat * nat :=
  (length (filter (fun p => String.eqb (fst p) (snd p)) (combine y_true y_pred)),
   length y_true).

(** Training states with two nasals, test states with one, on two layers. *)
Definition two_class_train : phoneme_table (option nat) :=
  [ (0, [("m", [Some 1; Some 2]); ("n", [Some 3])]);
    (1, [("m", [Some 11; Some 12]); ("n", [Some 13])]) ].

Definition one_class_test : phoneme_table (option nat) :=
  [ (0, [("m", [Some 5; Some 6])]); (1, [("m", [Some 15; Some 16])]) ].

(** States with one vector for every label of the table, on [n] layers. *)
Definition full_states (n : nat) : phoneme_table (option nat) :=
  map (fun layer_idx =>
         (layer_idx, map (fun k => (k, [Some layer_idx])) (dict_keys phoneme_mapping)))
      (seq 0 n).

(** The world before the loop: fresh probes, nothing printed. *)
Definition fresh_world (num_layers : nat) : world string (nat * nat) :=
  {| layer_probes := new_layer_probes string num_layers; console := [] |}.

(** A run on the nasals whose test data has the single class [m]. *)
Definition single_class_run : world string (nat * nat) * result (list (list (nat * nat))) :=
  probing_run sample_fit sample_predict sample_accuracy_score
              two_class_train one_class_test 2 [("nasals", nasals)].

(** A run of the five category groups on one layer. *)
Definition full_run : world string (nat * nat) * result (list (list (nat * nat))) :=
  probing_run sample_fit sample_predict sample_accuracy_score
              (full_states 1) (full_states 1) 1 phoneme_dict.

(** ** The aligner as a whole *)

(** The frame lists stored in [frame_states] under the layer index [l]. *)
Definition layer_waveforms {vec : Type} (l : nat) (frame_states : frame_table vec)
  : list (nat * list vec) :=
  flat_map snd (filter (fun e => Nat.eqb (fst e) l) frame_states).

(** The vectors one waveform gives to the label [p]: the frames of the
    segments of its utterance that carry [p], in segment order. *)
Definition waveform_frames {vec : Type} (data : list phonetic_detail) (p : string)
  (item : nat * list vec) : list vec :=
  match nth_error data (fst item) with
  | Some phonemes =>
      flat_map (fun seg => frames_of (snd item) (segment_range seg))
               (segments_of p (segments phonemes))
  | None => []
  end.

(** The labels of the utterance of one waveform. *)
Definition waveform_labels {vec : Type} (data : list phonetic_detail)
  (item : nat * list vec) : list string :=
  match nth_error data (fst item) with
  | Some phonemes => map segment_label (segments phonemes)
  | None => []
  end.

(** What the table of the aligner holds once the frame states [done] have
    been processed: a bucket for every layer below [num_layers], with the
    frames and the labels of the waveforms stored under that layer. *)
Definition table_holds {vec : Type} (data : list phonetic_detail) (num_layers : nat)
  (done : frame_table vec) (table : phoneme_table vec) : Prop :=
  map fst table = seq 0 num_layers /\
  forall l, l < num_layers ->
    exists bucket,
      table_get table l = Some bucket /\
      (forall p, dd_get bucket p
                 = flat_map (waveform_frames data p) (layer_waveforms l done)) /\
      (forall p, In p (dict_keys bucket)
                 <-> In p (flat_map (waveform_labels data) (layer_waveforms l done))) /\
      NoDup (dict_keys bucket).

(** ** The hidden-state extractor: [extract_hidden_states] *)

Section Extractor.
(** A waveform ([input["audio"]["array"]]) and a hidden vector. *)
Variables (audio vec : Type).

(** An instance of the corpus, as far as the notebook reads it. *)
Record timit_item : Type := {
  audio_array : audio;
  item_phonetic_detail : phonetic_detail
}.

(** Modelled from the spec: the statements [model_output =] and
    [transformer_layers =], which the notebook leaves as [# YOUR CODE HERE]; a
    forward pass with hidden-state capture and the read-out of the hidden
    states. With the processor call before them they are one function of the
    waveform: the hidden states of every layer, each a batch of frame
    sequences. The encoder is outside the repository, and it may raise. *)
Variable hidden_states : audio -> result (list (list (list vec))).

(** The dictionary comprehension that creates [frame_states]. *)
Definition new_frame_states (num_layers n_waveforms : nat) : frame_table vec :=
  map (fun layer_idx =>
         (layer_idx, map (fun waveform_idx => (waveform_idx, [])) (seq 0 n_waveforms)))
      (seq 0 num_layers).

(** [layer[waveform_idx].append(frame)] *)
Fixpoint layer_append (layer : list (nat * list vec)) (waveform_idx : nat)
  (frame : vec) : result (list (nat * list vec)) :=
  match layer with
  | [] => Raise (KeyError_layer waveform_idx)
  | (w, frames) :: layer' =>
      if Nat.eqb w waveform_idx then Ok ((w, frames ++ [frame]) :: layer')
      else
        layer'' <- layer_append layer' waveform_idx frame ;;
        Ok ((w, frames) :: layer'')
  end.

(** [frame_states[layer_idx][waveform_idx].append(frame.cpu())]; moving a
    tensor to the host keeps its numbers. *)
Fixpoint frame_states_append (frame_states : frame_table vec)
  (layer_idx waveform_idx : nat) (frame : vec) : result (frame_table vec) :=
  match frame_states with
  | [] => Raise (KeyError_layer layer_idx)
  | (l, layer) :: frame_states' =>
      if Nat.eqb l layer_idx then
        layer' <- layer_append layer waveform_idx frame ;;
        Ok ((l, layer') :: frame_states')
      else
        frame_states'' <- frame_states_append frame_states' layer_idx waveform_idx frame ;;
        Ok ((l, layer) :: frame_states'')
  end.

(** [for frame in waveform] *)
Fixpoint save_frames (layer_idx waveform_idx : nat) (waveform : list vec)
  (frame_states : frame_table vec) : result (frame_table vec) :=
  match waveform with
  | [] => Ok frame_states
  | frame :: waveform' =>
      frame_states' <- frame_states_append frame_states layer_idx waveform_idx frame ;;
      save_frames layer_idx waveform_idx waveform' frame_states'
  end.

(** [for waveform in layer] *)
Fixpoint save_batch (layer_idx waveform_idx : nat) (layer : list (list vec))
  (frame_states : frame_table vec) : result (frame_table vec) :=
  match layer with
  | [] => Ok frame_states
  | waveform :: layer' =>
      frame_states' <- save_frames layer_idx waveform_idx waveform frame_states ;;
      save_batch layer_idx waveform_idx layer' frame_states'
  end.

(** [for layer_idx, layer in enumerate(transformer_layers)], from
    [layer_idx] on. *)
Fixpoint save_layers (layer_idx waveform_idx : nat)
  (transformer_layers : list (list (list vec))) (frame_states : frame_table vec)
  : result (frame_table vec) :=
  match transformer_layers with
  | [] => Ok frame_states
  | layer :: transformer_layers' =>
      frame_states' <- save_batch layer_idx waveform_idx layer frame_states ;;
      save_layers (S layer_idx) waveform_idx transformer_layers' frame_states'
  end.

(** [for waveform_idx, waveform in enumerate(waveforms)], from [waveform_idx]
    on; [printed] holds the progress lines, each a waveform index with the
    number of waveforms. What was printed before an exception stays
    printed. *)
Fixpoint extract_loop (total waveform_idx : nat) (waveforms : list audio)
  (printed : list (nat * nat)) (frame_states : frame_table vec)
  : list (nat * nat) * result (frame_table vec) :=
  match waveforms with
  | [] => (printed, Ok frame_states)
  | waveform :: waveforms' =>
      let printed' := printed ++ [(waveform_idx, total)] in
      match hidden_states waveform with
      | Raise e => (printed', Raise e)
      | Ok transformer_layers =>
          match save_layers 0 waveform_idx transformer_layers frame_states with
          | Raise e => (printed', Raise e)
          | Ok frame_states' =>
              extract_loop total (S waveform_idx) waveforms' printed' frame_states'
          end
      end
  end.

Definition extract_hidden_states (inputs : list timit_item) (num_layers : nat)
  : list (nat * nat) * result (frame_table vec) :=
  let waveforms := map audio_array inputs in
  extract_loop (length waveforms) 0 waveforms []
               (new_frame_states num_layers (length waveforms)).

(** Frame states with the keys of [new_frame_states] and the frame list
    [f l w] under layer [l] and waveform [w]. *)
Definition frame_grid (num_layers n_waveforms : nat) (f : nat -> nat -> list vec)
  : frame_table vec :=
  map (fun l => (l, map (fun w => (w, f l w)) (seq 0 n_waveforms))) (seq 0 num_layers).

(** The frames the encoder output [outs] holds for layer [l] and waveform
    [w]: the frame sequences of the batch, one after the other. *)
Definition encoded_frames (outs : list (list (list (list vec)))) (l w : nat) : list vec :=
  concat (nth l (nth w outs []) []).

End Extractor.

(** An encoder output without a frame in any layer at or beyond [num_layers]. *)
Definition fits_layers {vec : Type} (num_layers : nat) (out : list (list (list vec)))
  : Prop :=
  forall l, num_layers <= l -> concat (nth l out []) = [].

(** The keys of frame states: the layer indices, each with its waveform
    indices. *)
Definition frame_keys {vec : Type} (frame_states : frame_table vec)
  : list (nat * list nat) :=
  map (fun e => (fst e, map fst (snd e))) frame_states.

(** ** The balancer on lists of different lengths *)

(** The examples [balance_classes] keeps of one class: the first [m] of
    the pairs [zip] gives, when there are that many, else none. *)
Definition class_block {vec : Type} (m : nat) (pairs : list (vec * string))
  (label : string) : list (vec * string) :=
  if (m <=? length (class_pairs label pairs))%nat
  then firstn m (class_pairs label pairs)
  else [].

(** ** From the aligner to the loader *)

(** The table of the aligner as [data_loader] reads it: its vectors are
    tensors, none of them is [None]. *)
Definition as_states {vec : Type} (table : phoneme_table vec)
  : phoneme_table (option vec) :=
  map (fun layer => (fst layer, map (fun item => (fst item, map Some (snd item)))
                                    (snd layer)))
      table.

(** ** More sample inputs *)

(** An utterance whose only segment, one frame long, starts at second 1. *)
Definition late_segment : phonetic_detail := one_segment 16000 16320 "aa".

(** Frame states of two layers, one waveform of three frames each. *)
Definition two_layer_states : frame_table Z :=
  [(0, [(0, numbered_frames 3)]); (1, [(0, numbered_frames 3)])].

(** A stand-in for the encoder: two layers, each a batch of one frame
    sequence; the frames of layer 0 are the samples, those of layer 1 their
    doubles. It raises on an empty waveform. *)
Definition sample_hidden_states (waveform : list Z) : result (list (list (list Z))) :=
  match waveform with
  | [] => Raise ValueError
  | _ :: _ => Ok [[waveform]; [map (Z.mul 2) waveform]]
  end.

(** Instances of a corpus: two with samples, one without. *)
Definition sample_item : timit_item (list Z) :=
  {| audio_array := [1; 2; 3]%Z; item_phonetic_detail := adjacent_segments |}.

Definition short_item : timit_item (list Z) :=
  {| audio_array := [4; 5]%Z; item_phonetic_detail := one_segment 100 100 "aa" |}.

Definition silent_item : timit_item (list Z) :=
  {| audio_array := []; item_phonetic_detail := one_segment 0 16000 "aa" |}.

(** What the stand-in returns for the first two. *)
Definition sample_encodings : list (list (list (list Z))) :=
  [ [[[1; 2; 3]]; [[2; 4; 6]]]; [[[4; 5]]; [[8; 10]]] ]%Z.

(** The frame states of the first two through the stand-in, and their
    vectors sorted by label. *)
Definition sample_frames : frame_table Z :=
  [ (0, [(0, [1; 2; 3]%Z); (1, [4; 5]%Z)]);
    (1, [(0, [2; 4; 6]%Z); (1, [8; 10]%Z)]) ].

Definition sample_sorted : phoneme_table Z :=
  [ (0, [("aa", [1; 2; 4]%Z); ("b", [2; 3]%Z)]);
    (1, [("aa", [2; 4; 8]%Z); ("b", [4; 6]%Z)]) ].

(* ================================================================== *)
(** * Part II: properties *)
(* ================================================================== *)

(** ** Binary64: the frame position never overflows

    [spec_float] comes with definitions only; the bounds needed to show
    that [math.floor] and [math.ceil] cannot raise are proved here. *)

Section FloatBounds.
Local Open Scope Z_scope.

Lemma digits2_pos_size (p : positive) : digits2_pos p = Pos.size p.
Proof. induction p; simpl; congruence. Qed.

Lemma digits2_pos_bounds (p : positive) :
  2 ^ (Zpos (digits2_pos p) - 1) <= Zpos p < 2 ^ Zpos (digits2_pos p).
Proof.
  induction p as [p IH | p IH | ]; simpl digits2_pos.
  - rewrite Pos2Z.inj_succ. replace (Z.succ (Zpos (digits2_pos p)) - 1) with (Zpos (digits2_pos p)) by lia.
    rewrite Z.pow_succ_r by lia.
    assert (H : 2 ^ Zpos (digits2_pos p) = 2 * 2 ^ (Zpos (digits2_pos p) - 1)).
    { rewrite <- Z.pow_succ_r by lia. f_equal. lia. }
    lia.
  - rewrite Pos2Z.inj_succ. replace (Z.succ (Zpos (digits2_pos p)) - 1) with (Zpos (digits2_pos p)) by lia.
    rewrite Z.pow_succ_r by lia.
    assert (H : 2 ^ Zpos (digits2_pos p) = 2 * 2 ^ (Zpos (digits2_pos p) - 1)).
    { rewrite <- Z.pow_succ_r by lia. f_equal. lia. }
    lia.
  - simpl. lia.
Qed.

Lemma Zdigits2_nonneg (m : Z) : 0 <= Zdigits2 m.
Proof. destruct m; simpl; lia. Qed.

(** A non-negative integer below [2^k] has at most [k] binary digits. *)
Lemma Zdigits2_le (m k : Z) : 0 <= m -> 0 <= k -> m < 2 ^ k -> Zdigits2 m <= k.
Proof.
  intros Hm Hk Hlt. destruct m as [ | p | p]; simpl; try lia.
  destruct (digits2_pos_bounds p) as [Hlo _].
  destruct (Z_le_gt_dec (Zpos (digits2_pos p)) k) as [ | Hgt]; [assumption | exfalso].
  assert (2 ^ k <= 2 ^ (Zpos (digits2_pos p) - 1)) by (apply Z.pow_le_mono_r; lia).
  lia.
Qed.

Lemma Zdigits2_lt_pow (m : Z) : 0 <= m -> m < 2 ^ Zdigits2 m.
Proof.
  intros Hm. destruct m as [ | p | p]; simpl; try lia.
  apply digits2_pos_bounds.
Qed.

Lemma Zdigits2_ge_pow (m : Z) : 0 < m -> 2 ^ (Zdigits2 m - 1) <= m.
Proof.
  intros Hm. destruct m as [ | p | p]; simpl; try lia.
  apply digits2_pos_bounds.
Qed.

Lemma shr_1_m (mrs : shr_record) :
  0 <= shr_m mrs -> shr_m (shr_1 mrs) = shr_m mrs / 2.
Proof.
  destruct mrs as [m r s]; cbn [shr_m]. intros Hm.
  destruct m as [ | [p | p | ] | p]; cbn [shr_1 shr_m]; try lia.
  - reflexivity.
  - rewrite Pos2Z.inj_xI. apply Z.div_unique with (r := 1); lia.
  - rewrite Pos2Z.inj_xO. apply Z.div_unique with (r := 0); lia.
  - reflexivity.
Qed.

Lemma iter_shr_1_m (p : positive) : forall mrs : shr_record,
  0 <= shr_m mrs -> shr_m (iter_pos shr_1 p mrs) = shr_m mrs / 2 ^ Zpos p.
Proof.
  induction p as [p IH | p IH | ]; intros mrs Hm; simpl iter_pos.
  - assert (H1 : 0 <= shr_m (shr_1 mrs)) by (rewrite shr_1_m by assumption; apply Z.div_pos; lia).
    assert (H2 : 0 <= shr_m (iter_pos shr_1 p (shr_1 mrs))).
    { rewrite IH by assumption. apply Z.div_pos; [assumption | apply Z.pow_pos_nonneg; lia]. }
    rewrite IH, IH, shr_1_m by assumption.
    rewrite !Z.div_div by (try apply Z.pow_pos_nonneg; lia).
    f_equal.
    assert (E : 2 ^ Zpos p~1 = 2 ^ 1 * 2 ^ Zpos p * 2 ^ Zpos p).
    { rewrite <- !Z.pow_add_r by lia. f_equal. lia. }
    rewrite E. change (2 ^ 1) with 2. lia.
  - assert (H2 : 0 <= shr_m (iter_pos shr_1 p mrs)).
    { rewrite IH by assumption. apply Z.div_pos; [assumption | apply Z.pow_pos_nonneg; lia]. }
    rewrite IH, IH by assumption.
    rewrite !Z.div_div by (try apply Z.pow_pos_nonneg; lia).
    f_equal.
    rewrite <- Z.pow_add_r by lia. f_equal. lia.
  - rewrite shr_1_m by assumption. reflexivity.
Qed.

Lemma shr_record_of_loc_m (m : Z) (l : location) : shr_m (shr_record_of_loc m l) = m.
Proof. destruct l as [ | [ | | ]]; reflexivity. Qed.

(** Dividing by [2^n] removes [n] binary digits. *)
Lemma Zdigits2_div_pow (m n : Z) :
  0 <= m -> 0 < n -> Zdigits2 (m / 2 ^ n) <= Z.max 0 (Zdigits2 m - n).
Proof.
  intros Hm Hn.
  assert (Hp : 0 < 2 ^ n) by (apply Z.pow_pos_nonneg; lia).
  assert (Hq : 0 <= m / 2 ^ n) by (apply Z.div_pos; lia).
  pose proof (Zdigits2_lt_pow Hm) as Hlt.
  pose proof (Zdigits2_nonneg m) as Hd.
  destruct (Z_le_gt_dec (Zdigits2 m) n) as [Hle | Hgt].
  - assert (m / 2 ^ n = 0) as ->.
    { apply Z.div_small. split; [assumption | ].
      apply Z.lt_le_trans with (1 := Hlt). apply Z.pow_le_mono_r; lia. }
    simpl. lia.
  - apply Z.le_trans with (Zdigits2 m - n); [ | lia].
    apply Zdigits2_le; try lia.
    apply Z.div_lt_upper_bound; [assumption | ].
    rewrite <- Z.pow_add_r by lia. replace (n + (Zdigits2 m - n)) with (Zdigits2 m) by lia.
    assumption.
Qed.

Lemma fexp64_eq (k : Z) : fexp64 k = Z.max (k - 53) (-1074).
Proof. reflexivity. Qed.

(** One normalising shift keeps the magnitude below a bound [B]. *)
Lemma shr_fexp_bound (m e : Z) (l : location) (B : Z) :
  0 <= m -> Zdigits2 m + e <= B -> -1074 <= B ->
  let '(mrs, e') := shr_fexp Float64.prec Float64.emax m e l in
  0 <= shr_m mrs /\ Zdigits2 (shr_m mrs) + e' <= B /\
  e' <= Z.max e (Z.max (B - 53) (-1074)).
Proof.
  intros Hm HB Hmin. unfold shr_fexp, shr.
  fold (fexp64 (Zdigits2 m + e)). rewrite fexp64_eq.
  pose proof (Zdigits2_nonneg m) as Hd.
  destruct (Z.max (Zdigits2 m + e - 53) (-1074) - e) as [ | n | n] eqn:Hn.
  - rewrite shr_record_of_loc_m. lia.
  - split; [ | split].
    + rewrite iter_shr_1_m by (rewrite shr_record_of_loc_m; assumption).
      rewrite shr_record_of_loc_m. apply Z.div_pos; [assumption | apply Z.pow_pos_nonneg; lia].
    + rewrite iter_shr_1_m by (rewrite shr_record_of_loc_m; assumption).
      rewrite shr_record_of_loc_m.
      pose proof (@Zdigits2_div_pow m (Zpos n) Hm ltac:(lia)). lia.
    + lia.
  - rewrite shr_record_of_loc_m. lia.
Qed.

Lemma Zdigits2_mono (a b : Z) : 0 <= a <= b -> Zdigits2 a <= Zdigits2 b.
Proof.
  intros [Ha Hab]. apply Zdigits2_le; [assumption | apply Zdigits2_nonneg | ].
  apply Z.le_lt_trans with (1 := Hab). apply Zdigits2_lt_pow. lia.
Qed.

Lemma Zdigits2_succ (m : Z) : 0 <= m -> Zdigits2 (m + 1) <= Zdigits2 m + 1.
Proof.
  intros Hm. pose proof (Zdigits2_nonneg m) as Hd.
  apply Zdigits2_le; try lia.
  rewrite Z.pow_add_r by lia. change (2 ^ 1) with 2.
  pose proof (Zdigits2_lt_pow Hm). lia.
Qed.

Lemma round_nearest_even_bounds (m : Z) (l : location) :
  m <= round_nearest_even m l <= m + 1.
Proof.
  destruct l as [ | [ | | ]]; simpl; try lia.
  destruct (Z.even m); lia.
Qed.

(** Rounding a bounded mantissa does not overflow. *)
Lemma binary_round_aux_below (sx : bool) (mx ex : Z) (lx : location) (B : Z) :
  0 <= mx -> Zdigits2 mx + ex <= B -> -1074 <= B <= 970 ->
  below sx (B + 1) (binary_round_aux Float64.prec Float64.emax sx mx ex lx).
Proof.
  intros Hm HB HBr. unfold binary_round_aux.
  pose proof (Zdigits2_nonneg mx) as Hd.
  pose proof (@shr_fexp_bound mx ex lx B Hm HB ltac:(lia)) as H1.
  destruct (shr_fexp Float64.prec Float64.emax mx ex lx) as [mrs' e'].
  destruct H1 as (Hm1 & Hd1 & He1).
  set (mr := round_nearest_even (shr_m mrs') (loc_of_shr_record mrs')).
  pose proof (round_nearest_even_bounds (shr_m mrs') (loc_of_shr_record mrs')) as Hr.
  fold mr in Hr.
  assert (Hdr : Zdigits2 mr + e' <= B + 1).
  { pose proof (@Zdigits2_mono mr (shr_m mrs' + 1) ltac:(lia)).
    pose proof (@Zdigits2_succ (shr_m mrs') Hm1). lia. }
  pose proof (@shr_fexp_bound mr e' loc_Exact (B + 1) ltac:(lia) Hdr ltac:(lia)) as H2.
  destruct (shr_fexp Float64.prec Float64.emax mr e' loc_Exact) as [mrs'' e''].
  destruct H2 as (Hm2 & Hd2 & He2).
  destruct (shr_m mrs'') as [ | m | m] eqn:Em; simpl.
  - reflexivity.
  - assert (Hle : (e'' <=? 971) = true) by (apply Z.leb_le; lia).
    rewrite Hle. simpl. split; [reflexivity | assumption].
  - lia.
Qed.

Lemma div_eucl_div (a b : Z) : fst (Z.div_eucl a b) = a / b.
Proof. unfold Z.div. destruct (Z.div_eucl a b); reflexivity. Qed.

(** The quotient mantissa computed by the division is bounded by the
    magnitudes of the operands. *)
Lemma SFdiv_core_below (m1 m2 : positive) (e1 e2 B : Z) :
  Zdigits2 (Zpos m1) + e1 - (Zdigits2 (Zpos m2) + e2) + 1 <= B -> -1074 <= B ->
  let '(q, e', _) := SFdiv_core_binary Float64.prec Float64.emax (Zpos m1) e1 (Zpos m2) e2 in
  0 <= q /\ Zdigits2 q + e' <= B.
Proof.
  intros HB Hmin. unfold SFdiv_core_binary.
  set (d1 := Zdigits2 (Zpos m1)) in *. set (d2 := Zdigits2 (Zpos m2)) in *.
  fold (fexp64 (d1 + e1 - (d2 + e2))). rewrite fexp64_eq.
  set (e' := Z.min (Z.max (d1 + e1 - (d2 + e2) - 53) (-1074)) (e1 - e2)).
  set (s := e1 - e2 - e').
  assert (Hs : 0 <= s) by (unfold s, e'; lia).
  set (m' := match s with Zpos _ => Z.shiftl (Zpos m1) s | Z0 => Zpos m1 | Zneg _ => 0 end).
  assert (Hm' : m' = Zpos m1 * 2 ^ s).
  { unfold m'. destruct s as [ | p | p] eqn:Es; [simpl; lia | | lia].
    rewrite Z.shiftl_mul_pow2 by lia. reflexivity. }
  pose proof (div_eucl_div m' (Zpos m2)) as Hq.
  destruct (Z.div_eucl m' (Zpos m2)) as [q r]. simpl in Hq. subst q.
  assert (Hp : 0 < 2 ^ s) by (apply Z.pow_pos_nonneg; lia).
  assert (Hq0 : 0 <= m' / Zpos m2) by (apply Z.div_pos; nia).
  split; [assumption | ].
  destruct (Z.eq_dec (m' / Zpos m2) 0) as [E0 | Hne].
  - rewrite E0. simpl. unfold e'. lia.
  - assert (Hd1 : Zpos m1 < 2 ^ d1) by (apply Zdigits2_lt_pow; lia).
    assert (Hd2 : 2 ^ (d2 - 1) <= Zpos m2) by (apply Zdigits2_ge_pow; lia).
    assert (Hd1n : 0 <= d1) by apply Zdigits2_nonneg.
    assert (Hd2p : 1 <= d2) by (unfold d2; simpl; lia).
    assert (Hmul : m' / Zpos m2 * Zpos m2 <= m').
    { rewrite Z.mul_comm. apply Z.mul_div_le. lia. }
    assert (Hm'lt : m' < 2 ^ (d1 + s)).
    { rewrite Hm', Z.pow_add_r by lia. nia. }
    assert (Hk : 0 < d1 + s - d2 + 1).
    { destruct (Z_le_gt_dec (d1 + s - d2 + 1) 0) as [Hle | ]; [exfalso | lia].
      assert (2 ^ (d1 + s) <= 2 ^ (d2 - 1)) by (apply Z.pow_le_mono_r; lia).
      nia. }
    assert (Hlt : m' / Zpos m2 < 2 ^ (d1 + s - d2 + 1)).
    { assert (E : 2 ^ (d1 + s) = 2 ^ (d1 + s - d2 + 1) * 2 ^ (d2 - 1)).
      { rewrite <- Z.pow_add_r by lia. f_equal. lia. }
      assert (0 < 2 ^ (d2 - 1)) by (apply Z.pow_pos_nonneg; lia).
      nia. }
    pose proof (@Zdigits2_le (m' / Zpos m2) (d1 + s - d2 + 1) Hq0 ltac:(lia) Hlt).
    unfold s in *. lia.
Qed.

(** Dividing a bounded float by a positive finite one gives a bounded
    float: no overflow, no NaN. *)
Lemma div_below (sx : bool) (B1 : Z) (x : spec_float) (my : positive) (ey B : Z) :
  below sx B1 x ->
  B1 - (Zdigits2 (Zpos my) + ey) + 1 <= B -> -1074 <= B <= 970 ->
  below sx (B + 1) (Float64.div x (S754_finite false my ey)).
Proof.
  intros Hx HB HBr. destruct x as [s | s | | s m e]; unfold below in Hx; try contradiction.
  - subst s. simpl. apply xorb_false_r.
  - destruct Hx as [-> Hd]. unfold Float64.div, SFdiv.
    pose proof (@SFdiv_core_below m my e ey B ltac:(lia) ltac:(lia)) as Hc.
    destruct (SFdiv_core_binary Float64.prec Float64.emax (Zpos m) e (Zpos my) ey)
      as [[q e'] l].
    destruct Hc as [Hq Hqd]. rewrite xorb_false_r.
    apply binary_round_aux_below; assumption.
Qed.

Lemma digits2_pos_iter_xO (m d : positive) :
  Zpos (digits2_pos (Pos.iter xO m d)) = Zpos (digits2_pos m) + Zpos d.
Proof.
  induction d as [ | d IH] using Pos.peano_ind.
  - simpl. lia.
  - rewrite Pos.iter_succ. simpl digits2_pos. rewrite Pos2Z.inj_succ, IH. lia.
Qed.

(** Converting an integer below [2^53] gives a bounded float. *)
Lemma of_int_below (z : Z) : 0 <= z < 2 ^ 53 -> below false 54 (Float64.of_int z).
Proof.
  intros Hz. unfold Float64.of_int, binary_normalize.
  destruct z as [ | p | p]; [reflexivity | | lia].
  unfold binary_round, shl_align.
  assert (Hd : Zdigits2 (Zpos p) <= 53) by (apply Zdigits2_le; lia).
  destruct (fexp Float64.prec Float64.emax (Zpos (digits2_pos p) + 0) - 0) as [ | d | d] eqn:Ed.
  - apply (@binary_round_aux_below false (Zpos p) 0 loc_Exact 53); lia.
  - apply (@binary_round_aux_below false (Zpos p) 0 loc_Exact 53); lia.
  - apply (@binary_round_aux_below false (Zpos (Pos.iter xO p d))
             (fexp Float64.prec Float64.emax (Zpos (digits2_pos p) + 0)) loc_Exact 53);
      try lia.
    unfold Zdigits2 in *. rewrite digits2_pos_iter_xO. lia.
Qed.

(** For a sample offset below [2^53] the frame position is a finite,
    non-negative double. *)
Lemma frame_position_below (sample : Z) :
  0 <= sample < 2 ^ 53 -> below false 49 (frame_position sample).
Proof.
  intros Hs. unfold frame_position, Float64.int_truediv.
  pose proof (of_int_below Hs) as H0.
  change (Float64.of_int 16000) with (S754_finite false 8796093022208000 (-39)).
  unfold Float64.lit_0_020.
  apply (@div_below false 42 _ 5764607523034235 (-58) 48); [ | simpl; lia | lia].
  apply (@div_below false 54 _ 8796093022208000 (-39) 41); [assumption | simpl; lia | lia].
Qed.

Lemma scaled_floor_nonneg (m e : Z) : 0 <= m -> 0 <= Float64.scaled_floor m e.
Proof.
  intros Hm. unfold Float64.scaled_floor. destruct (0 <=? e) eqn:E.
  - apply Z.leb_le in E. apply Z.mul_nonneg_nonneg; [assumption | apply Z.pow_nonneg; lia].
  - apply Z.leb_gt in E. apply Z.div_pos; [assumption | apply Z.pow_pos_nonneg; lia].
Qed.

(** The ceiling is the floor or the next integer. *)
Lemma scaled_ceil_floor (m e : Z) :
  Float64.scaled_floor m e <= - Float64.scaled_floor (- m) e <= Float64.scaled_floor m e + 1.
Proof.
  unfold Float64.scaled_floor. destruct (0 <=? e) eqn:E.
  - lia.
  - apply Z.leb_gt in E.
    assert (Hp : 0 < 2 ^ (- e)) by (apply Z.pow_pos_nonneg; lia).
    pose proof (Z.div_mod m (2 ^ (- e)) ltac:(lia)).
    pose proof (Z.mod_pos_bound m (2 ^ (- e)) Hp).
    pose proof (Z.div_mod (- m) (2 ^ (- e)) ltac:(lia)).
    pose proof (Z.mod_pos_bound (- m) (2 ^ (- e)) Hp).
    nia.
Qed.

(** [math.floor] and [math.ceil] do not raise on a frame position, and
    differ by at most one. *)
Lemma frame_indices_total (sample : Z) :
  0 <= sample < 2 ^ 53 ->
  exists a b : Z,
    start_index sample = Ok a /\ stop_index sample = Ok b /\
    0 <= a /\ a <= b <= a + 1.
Proof.
  intros Hs. unfold start_index, stop_index.
  pose proof (frame_position_below Hs) as Hb.
  destruct (frame_position sample) as [s | s | | s m e]; simpl in Hb; try contradiction.
  - exists 0, 0. simpl. repeat split; lia.
  - destruct Hb as [-> _]. simpl.
    exists (Float64.scaled_floor (Zpos m) e), (- Float64.scaled_floor (Zneg m) e).
    repeat split; try (apply scaled_floor_nonneg; lia);
      pose proof (scaled_ceil_floor (Zpos m) e) as H; simpl in H; lia.
Qed.

End FloatBounds.

(** ** Dictionaries *)

Section DictFacts.
Variable A : Type.
Implicit Types (d : sdict (list A)) (k : string) (xs : list A).

Lemma dd_get_extend_same d k xs :
  dd_get (dd_extend d k xs) k = dd_get d k ++ xs.
Proof.
  unfold dd_get. induction d as [ | [k' v] d IH]; simpl.
  - rewrite String.eqb_refl. reflexivity.
  - destruct (String.eqb k' k) eqn:E; simpl; rewrite E; [reflexivity | exact IH].
Qed.

Lemma dd_get_extend_other d k k' xs :
  k' <> k -> dd_get (dd_extend d k xs) k' = dd_get d k'.
Proof.
  intros Hne. unfold dd_get. induction d as [ | [k0 v] d IH]; simpl.
  - destruct (String.eqb_spec k k'); [congruence | reflexivity].
  - destruct (String.eqb_spec k0 k) as [-> | Hk]; simpl.
    + destruct (String.eqb_spec k k'); [congruence | reflexivity].
    + destruct (String.eqb k0 k'); [reflexivity | exact IH].
Qed.

Lemma dict_keys_extend d k xs k' :
  In k' (dict_keys (dd_extend d k xs)) <-> k' = k \/ In k' (dict_keys d).
Proof.
  unfold dict_keys. induction d as [ | [k0 v] d IH]; simpl.
  - intuition congruence.
  - destruct (String.eqb_spec k0 k) as [-> | Hk]; simpl; [intuition congruence | ].
    rewrite IH. intuition.
Qed.

Lemma dict_keys_extend_NoDup d k xs :
  NoDup (dict_keys d) -> NoDup (dict_keys (dd_extend d k xs)).
Proof.
  unfold dict_keys. induction d as [ | [k0 v] d IH]; simpl; intros Hnd.
  - constructor; [intros [] | constructor].
  - inversion Hnd as [ | ? ? Hnotin Hnd']; subst.
    destruct (String.eqb_spec k0 k) as [-> | Hk]; simpl; [constructor; assumption | ].
    constructor; [ | apply IH; assumption].
    intros Hin. apply (dict_keys_extend d k xs k0) in Hin. destruct Hin; [congruence | contradiction].
Qed.

Lemma dict_get_not_in (V : Type) (d : sdict V) k :
  ~ In k (dict_keys d) -> dict_get d k = None.
Proof.
  unfold dict_keys. induction d as [ | [k0 v] d IH]; simpl; intros Hn; [reflexivity | ].
  destruct (String.eqb_spec k0 k); [exfalso; auto | apply IH; auto].
Qed.

End DictFacts.

(** ** The aligner *)

Lemma py_range_In (a b i : Z) : In i (py_range a b) <-> (a <= i < b)%Z.
Proof.
  unfold py_range. rewrite in_map_iff. split.
  - intros (n & <- & Hn). apply in_seq in Hn. lia.
  - intros Hi. exists (Z.to_nat (i - a)). split; [lia | apply in_seq; lia].
Qed.

Lemma py_range_empty (a b : Z) : (b <= a)%Z -> py_range a b = [].
Proof.
  intros H. unfold py_range. replace (Z.to_nat (b - a)) with 0%nat by lia. reflexivity.
Qed.

Lemma py_range_one (a : Z) : py_range a (a + 1) = [a].
Proof.
  unfold py_range. replace (Z.to_nat (a + 1 - a)) with 1%nat by lia.
  simpl. f_equal. lia.
Qed.

(** The indices of a segment with valid offsets: the computation does not
    raise, and the indices are non-negative. *)
Lemma segment_indices_total (seg : Z * Z * string) :
  valid_segment seg ->
  segment_indices (fst (fst seg)) (snd (fst seg)) = Ok (segment_range seg) /\
  Forall (fun idx => (0 <= idx)%Z) (segment_range seg).
Proof.
  intros [Hs He]. unfold segment_range, segment_indices.
  destruct (frame_indices_total Hs) as (a & _ & Ha & _ & Ha0 & _).
  destruct (frame_indices_total He) as (_ & b & _ & Hb & _).
  rewrite Ha, Hb. simpl. split; [reflexivity | ].
  apply Forall_forall. intros i Hi. apply py_range_In in Hi. lia.
Qed.

Lemma collect_indices_spec (segs : list (Z * Z * string)) :
  Forall valid_segment segs ->
  forall pi : sdict (list Z),
  exists pi' : sdict (list Z),
    collect_indices segs pi = Ok pi' /\
    (forall p, dd_get pi' p = dd_get pi p ++ flat_map segment_range (segments_of p segs)) /\
    (NoDup (dict_keys pi) -> NoDup (dict_keys pi')).
Proof.
  induction 1 as [ | [[start stop] phoneme] segs Hv _ IH]; intros pi.
  - exists pi. simpl. split; [reflexivity | ]. split; [ | auto].
    intros p. rewrite app_nil_r. reflexivity.
  - destruct (segment_indices_total Hv) as [Hseg _]. simpl in Hseg.
    simpl collect_indices. rewrite Hseg. simpl bind.
    destruct (IH (dd_extend pi phoneme (segment_range (start, stop, phoneme))))
      as (pi' & Hrun & Hget & Hnd).
    exists pi'. split; [exact Hrun | ]. split.
    + intros p. rewrite Hget. unfold segments_of. simpl filter.
      unfold segment_label at 1. simpl snd.
      destruct (String.eqb_spec phoneme p) as [-> | Hne].
      * rewrite dd_get_extend_same. simpl flat_map. rewrite <- app_assoc. reflexivity.
      * rewrite dd_get_extend_other by congruence. reflexivity.
    + intros Hn. apply Hnd. apply dict_keys_extend_NoDup. exact Hn.
Qed.

Section AlignerFacts.
Variable vec : Type.
Implicit Types (waveform : list vec) (table : phoneme_table vec)
  (bucket : sdict (list vec)).

Lemma frames_of_app waveform (xs ys : list Z) :
  frames_of waveform (xs ++ ys) = frames_of waveform xs ++ frames_of waveform ys.
Proof. unfold frames_of. rewrite filter_app, flat_map_app. reflexivity. Qed.

Lemma frames_of_nil waveform : frames_of waveform [] = [].
Proof. reflexivity. Qed.

Lemma frames_of_flat_map waveform (B : Type) (f : B -> list Z) (l : list B) :
  frames_of waveform (flat_map f l) = flat_map (fun x => frames_of waveform (f x)) l.
Proof.
  induction l as [ | x l IH]; simpl; [reflexivity | ].
  rewrite frames_of_app, IH. reflexivity.
Qed.

(** An index at or beyond the frame count adds nothing. *)
Lemma frames_of_beyond waveform (idx : Z) (rest : list Z) :
  (Z.of_nat (length waveform) <= idx)%Z ->
  frames_of waveform (idx :: rest) = frames_of waveform rest.
Proof.
  intros H. unfold frames_of. simpl filter.
  destruct (Z.ltb_spec idx (Z.of_nat (length waveform))); [lia | reflexivity].
Qed.

(** An index within the frame list adds the vector of that frame. *)
Lemma frames_of_within waveform (idx : Z) (rest : list Z) (d : vec) :
  (0 <= idx < Z.of_nat (length waveform))%Z ->
  frames_of waveform (idx :: rest) = nth (Z.to_nat idx) waveform d :: frames_of waveform rest.
Proof.
  intros H. unfold frames_of. simpl filter.
  destruct (Z.ltb_spec idx (Z.of_nat (length waveform))); [ | lia].
  simpl flat_map.
  rewrite (nth_error_nth' waveform d) by lia. reflexivity.
Qed.

(** The comprehension over non-negative indices does not raise: the guard
    [idx < len(waveform)] removes every index the lookup would reject. *)
Lemma lookup_states_ok waveform (indeces : list Z) :
  Forall (fun idx => (0 <= idx)%Z) indeces ->
  lookup_states waveform indeces = Ok (frames_of waveform indeces).
Proof.
  induction 1 as [ | idx rest Hidx _ IH]; [reflexivity | ].
  simpl lookup_states.
  destruct (Z.ltb_spec idx (Z.of_nat (length waveform))) as [Hlt | Hge].
  - unfold list_getitem.
    destruct (Z.ltb_spec idx 0); [lia | ].
    destruct (Z.ltb_spec idx 0); [lia | ].
    destruct (nth_error waveform (Z.to_nat idx)) as [x | ] eqn:Enth.
    + simpl. rewrite IH. simpl. f_equal.
      unfold frames_of. simpl filter.
      destruct (Z.ltb_spec idx (Z.of_nat (length waveform))); [ | lia].
      simpl. rewrite Enth. reflexivity.
    + apply nth_error_None in Enth. lia.
  - rewrite IH, frames_of_beyond by assumption. reflexivity.
Qed.

Lemma table_get_set table layer_idx bucket b0 :
  table_get table layer_idx = Some b0 ->
  table_get (table_set table layer_idx bucket) layer_idx = Some bucket.
Proof.
  unfold table_get. induction table as [ | [l b] table IH]; simpl; [discriminate | ].
  destruct (Nat.eqb l layer_idx) eqn:E; simpl; rewrite E; [reflexivity | exact IH].
Qed.

Lemma table_set_set table layer_idx b1 b2 :
  table_set (table_set table layer_idx b1) layer_idx b2 = table_set table layer_idx b2.
Proof.
  induction table as [ | [l b] table IH]; simpl; [reflexivity | ].
  destruct (Nat.eqb l layer_idx) eqn:E; simpl; rewrite E; [reflexivity | ].
  rewrite IH. reflexivity.
Qed.

Lemma table_set_same table layer_idx bucket :
  table_get table layer_idx = Some bucket -> table_set table layer_idx bucket = table.
Proof.
  unfold table_get. induction table as [ | [l b] table IH]; simpl; [reflexivity | ].
  destruct (Nat.eqb l layer_idx) eqn:E; simpl.
  - intros [= ->]. reflexivity.
  - intros H. rewrite IH by exact H. reflexivity.
Qed.

Lemma table_get_set_other table layer_idx l bucket :
  l <> layer_idx ->
  table_get (table_set table layer_idx bucket) l = table_get table l.
Proof.
  intros Hne. unfold table_get. induction table as [ | [l0 b] table IH]; simpl; [reflexivity | ].
  destruct (Nat.eqb_spec l0 layer_idx) as [-> | Hl]; simpl.
  - destruct (Nat.eqb_spec layer_idx l); [congruence | reflexivity].
  - destruct (Nat.eqb l0 l); [reflexivity | exact IH].
Qed.

Lemma table_extend_ok table layer_idx bucket (phoneme : string) (states : list vec) :
  table_get table layer_idx = Some bucket ->
  table_extend table layer_idx phoneme states
  = Ok (table_set table layer_idx (dd_extend bucket phoneme states)).
Proof.
  unfold table_get. induction table as [ | [l b] table IH]; simpl; [discriminate | ].
  destruct (Nat.eqb l layer_idx) eqn:E; simpl.
  - intros [= ->]. reflexivity.
  - intros H. rewrite IH by exact H. reflexivity.
Qed.

Lemma store_states_ok layer_idx waveform (pis : sdict (list Z)) :
  Forall (fun item => Forall (fun idx => (0 <= idx)%Z) (snd item)) pis ->
  forall table bucket,
  table_get table layer_idx = Some bucket ->
  store_states layer_idx waveform pis table
  = Ok (table_set table layer_idx (store_bucket waveform pis bucket)).
Proof.
  induction 1 as [ | [phoneme indeces] pis Hidx _ IH]; intros table bucket Hget.
  - simpl. rewrite table_set_same by exact Hget. reflexivity.
  - simpl store_states. simpl in Hidx.
    rewrite lookup_states_ok by exact Hidx. simpl bind.
    rewrite (@table_extend_ok table layer_idx bucket phoneme _ Hget). simpl bind.
    rewrite (IH _ _ (@table_get_set table layer_idx _ bucket Hget)), table_set_set.
    reflexivity.
Qed.

Lemma store_bucket_get waveform (pis : sdict (list Z)) :
  NoDup (dict_keys pis) ->
  forall bucket p,
  dd_get (store_bucket waveform pis bucket) p
  = dd_get bucket p ++ frames_of waveform (dd_get pis p).
Proof.
  unfold store_bucket.
  induction pis as [ | [phoneme indeces] pis IH]; intros Hnd bucket p; simpl fold_left.
  - unfold dd_get at 3. simpl. rewrite app_nil_r. reflexivity.
  - inversion Hnd as [ | ? ? Hnotin Hnd']; subst. rewrite IH by assumption.
    simpl fst. simpl snd. unfold dd_get at 4. simpl dict_get.
    destruct (String.eqb_spec phoneme p) as [-> | Hne].
    + rewrite dd_get_extend_same.
      unfold dd_get at 2. rewrite dict_get_not_in by exact Hnotin.
      rewrite frames_of_nil, app_nil_r. reflexivity.
    + rewrite dd_get_extend_other by congruence. reflexivity.
Qed.

Lemma dd_get_Forall (B : Type) (P : B -> Prop) (d : sdict (list B)) :
  (forall p, Forall P (dd_get d p)) -> NoDup (dict_keys d) ->
  Forall (fun item => Forall P (snd item)) d.
Proof.
  unfold dict_keys. induction d as [ | [k v] d IH]; intros Hall Hnd; constructor.
  - specialize (Hall k). unfold dd_get in Hall. simpl in Hall.
    rewrite String.eqb_refl in Hall. exact Hall.
  - inversion Hnd as [ | ? ? Hnotin Hnd']; subst. apply IH; [ | assumption].
    intros p. specialize (Hall p). unfold dd_get in *. simpl in Hall.
    destruct (String.eqb_spec k p) as [-> | Hne]; [ | exact Hall].
    rewrite dict_get_not_in by exact Hnotin. constructor.
Qed.

(** What the loop body does for one waveform of one layer, when the sample
    offsets are valid: nothing raises, and the bucket of every label grows by
    the frames of the segments carrying that label, in segment order. *)
Lemma sort_waveform_spec (data : list phonetic_detail) (layer_idx waveform_idx : nat)
  waveform table bucket (phonemes : phonetic_detail) :
  nth_error data waveform_idx = Some phonemes ->
  table_get table layer_idx = Some bucket ->
  Forall valid_segment (segments phonemes) ->
  exists bucket',
    sort_waveform data layer_idx waveform_idx waveform table
    = Ok (table_set table layer_idx bucket') /\
    forall p,
      dd_get bucket' p
      = dd_get bucket p
        ++ flat_map (fun seg => frames_of waveform (segment_range seg))
                    (segments_of p (segments phonemes)).
Proof.
  intros Hdata Hget Hvalid.
  destruct (collect_indices_spec Hvalid []) as (pis & Hrun & Hpis & Hnd).
  specialize (Hnd (NoDup_nil _)).
  assert (Hnonneg : Forall (fun item => Forall (fun idx => (0 <= idx)%Z) (snd item)) pis).
  { apply dd_get_Forall; [ | exact Hnd].
    intros p. rewrite Hpis. unfold dd_get at 1. simpl.
    apply Forall_forall. intros idx Hin. apply in_flat_map in Hin.
    destruct Hin as (seg & Hseg & Hin).
    unfold segments_of in Hseg. apply filter_In in Hseg. destruct Hseg as [Hseg _].
    rewrite Forall_forall in Hvalid.
    destruct (segment_indices_total (Hvalid _ Hseg)) as [_ Hall].
    rewrite Forall_forall in Hall. exact (Hall _ Hin). }
  exists (store_bucket waveform pis bucket). split.
  - unfold sort_waveform, data_getitem. rewrite Hdata. simpl bind.
    rewrite Hrun. simpl bind. apply store_states_ok; assumption.
  - intros p. rewrite store_bucket_get by exact Hnd.
    rewrite Hpis. unfold dd_get at 2. simpl app.
    rewrite frames_of_flat_map. reflexivity.
Qed.

End AlignerFacts.

Section AlignerTotal.
Variable vec : Type.
Implicit Types (table : phoneme_table vec).

Lemma table_get_In table (l : nat) :
  In l (map fst table) -> exists bucket, table_get table l = Some bucket.
Proof.
  unfold table_get. induction table as [ | [l' b] table IH]; simpl; [contradiction | ].
  destruct (Nat.eqb_spec l' l) as [-> | Hne]; [intros _; eexists; reflexivity | ].
  intros [H | H]; [contradiction | exact (IH H)].
Qed.

Lemma table_set_keys table (l : nat) (bucket : sdict (list vec)) :
  map fst (table_set table l bucket) = map fst table.
Proof.
  induction table as [ | [l' b] table IH]; simpl; [reflexivity | ].
  destruct (Nat.eqb l' l); simpl; [reflexivity | rewrite IH; reflexivity].
Qed.

Lemma sort_layer_total (data : list phonetic_detail) (layer_idx : nat)
  (layer : list (nat * list vec)) :
  Forall (well_formed_waveform data) layer ->
  forall table, In layer_idx (map fst table) ->
  exists table', sort_layer data layer_idx layer table = Ok table' /\
                 map fst table' = map fst table.
Proof.
  induction 1 as [ | [waveform_idx waveform] layer (phonemes & Hdata & Hvalid) _ IH];
    intros table Hin; simpl.
  - eauto.
  - destruct (table_get_In table layer_idx Hin) as [bucket Hget].
    destruct (@sort_waveform_spec vec data layer_idx waveform_idx waveform table bucket
                phonemes Hdata Hget Hvalid) as (bucket' & -> & _).
    cbn [bind].
    destruct (IH (table_set table layer_idx bucket')) as (table' & Hrun & Hkeys).
    + rewrite table_set_keys. exact Hin.
    + exists table'. split; [exact Hrun | ]. rewrite Hkeys. apply table_set_keys.
Qed.

(** On frame states whose layer indices are below [num_layers] and whose
    waveform indices point to utterances with valid sample offsets, the
    aligner raises nothing and returns a bucket for every layer. *)
Lemma sort_states_per_phoneme_total (data : list phonetic_detail)
  (frame_states : frame_table vec) (num_layers : nat) :
  well_formed_frames data num_layers frame_states ->
  exists table, sort_states_per_phoneme data frame_states num_layers = Ok table /\
                map fst table = seq 0 num_layers.
Proof.
  unfold sort_states_per_phoneme, well_formed_frames. intros Hwf.
  assert (Hinit : map fst (map (fun l : nat => (l, @nil (string * list vec)))
                               (seq 0 num_layers)) = seq 0 num_layers).
  { rewrite map_map. simpl. apply map_id. }
  revert Hinit. generalize (map (fun l : nat => (l, @nil (string * list vec)))
                                (seq 0 num_layers)).
  induction Hwf as [ | [layer_idx layer] frame_states [Hlt Hlayer] _ IH];
    intros table Hkeys; simpl.
  - eauto.
  - assert (Hin : In layer_idx (map fst table)).
    { rewrite Hkeys. apply in_seq. simpl in Hlt. lia. }
    destruct (@sort_layer_total data layer_idx layer Hlayer table Hin)
      as (table' & -> & Hkeys').
    cbn [bind]. apply IH. exact (eq_trans Hkeys' Hkeys).
Qed.

End AlignerTotal.

Section AlignerProperties.
Variable vec : Type.
Implicit Types (waveform : list vec) (table : phoneme_table vec)
  (bucket : sdict (list vec)).

Lemma frames_of_length_le waveform (indeces : list Z) :
  (length (frames_of waveform indeces) <= length indeces)%nat.
Proof.
  unfold frames_of. induction indeces as [ | idx rest IH]; simpl; [lia | ].
  destruct (idx <? Z.of_nat (length waveform))%Z; simpl; [ | lia].
  destruct (nth_error waveform (Z.to_nat idx)); simpl; lia.
Qed.

(** The vectors contributed by a list of non-negative indices correspond,
    one for one and in order, to the indices below the frame count. *)
Lemma frames_of_in_range waveform (indeces : list Z) :
  Forall (fun idx => (0 <= idx)%Z) indeces ->
  Forall2 (fun idx x => nth_error waveform (Z.to_nat idx) = Some x)
          (filter (fun idx => (idx <? Z.of_nat (length waveform))%Z) indeces)
          (frames_of waveform indeces).
Proof.
  unfold frames_of. induction 1 as [ | idx rest Hidx _ IH]; simpl; [constructor | ].
  destruct (Z.ltb_spec idx (Z.of_nat (length waveform))) as [Hlt | Hge]; [ | exact IH].
  simpl. destruct (nth_error waveform (Z.to_nat idx)) as [x | ] eqn:E.
  - simpl. constructor; assumption.
  - apply nth_error_None in E. lia.
Qed.

Lemma frames_of_In waveform (indeces : list Z) (idx : Z) (x : vec) :
  In idx indeces -> (0 <= idx)%Z -> nth_error waveform (Z.to_nat idx) = Some x ->
  In x (frames_of waveform indeces).
Proof.
  intros Hin Hidx Hnth. unfold frames_of. apply in_flat_map. exists idx. split.
  - apply filter_In. split; [exact Hin | ].
    apply Z.ltb_lt. assert (Z.to_nat idx < length waveform)%nat; [ | lia].
    apply nth_error_Some. congruence.
  - rewrite Hnth. left. reflexivity.
Qed.

(** Whatever the indices, those at or beyond the frame count are dropped
    before any lookup. *)
Lemma lookup_states_filter waveform (indeces : list Z) :
  lookup_states waveform indeces
  = lookup_states waveform
      (filter (fun idx => (idx <? Z.of_nat (length waveform))%Z) indeces).
Proof.
  induction indeces as [ | idx rest IH]; [reflexivity | ].
  simpl. destruct (idx <? Z.of_nat (length waveform))%Z eqn:E; [ | exact IH].
  simpl. rewrite E, IH. reflexivity.
Qed.

(** A segment with equal start and stop offsets has no frame index, or
    exactly one. *)
Lemma zero_length_segment_range (sample : Z) (phoneme : string) :
  valid_sample sample ->
  segment_range (sample, sample, phoneme) = []
  \/ exists a, segment_range (sample, sample, phoneme) = [a].
Proof.
  intros Hs. unfold segment_range, segment_indices. simpl fst. simpl snd.
  destruct (frame_indices_total Hs) as (a & b & Ha & Hb & _ & Hab).
  rewrite Ha, Hb. simpl.
  destruct (Z.eq_dec b a) as [-> | Hne].
  - left. apply py_range_empty. lia.
  - right. exists a. replace b with (a + 1)%Z by lia. apply py_range_one.
Qed.

(** C3: the comprehension drops every index at or beyond the frame count
    before it looks anything up; and for every utterance with valid sample
    offsets, storing the states of its waveform raises nothing, and the
    bucket of every label grows by exactly the vectors of those computed
    frame indices that are strictly below the length of the frame list, one
    vector per such index, in order. *)
Theorem out_of_range_frames_discarded
  (data : list phonetic_detail) (layer_idx waveform_idx : nat)
  waveform table bucket (phonemes : phonetic_detail) :
  nth_error data waveform_idx = Some phonemes ->
  table_get table layer_idx = Some bucket ->
  Forall valid_segment (segments phonemes) ->
  (forall indeces,
     lookup_states waveform indeces
     = lookup_states waveform
         (filter (fun idx => (idx <? Z.of_nat (length waveform))%Z) indeces)) /\
  exists bucket',
    sort_waveform data layer_idx waveform_idx waveform table
    = Ok (table_set table layer_idx bucket') /\
    forall p, exists added,
      dd_get bucket' p = dd_get bucket p ++ added /\
      Forall2 (fun idx x => nth_error waveform (Z.to_nat idx) = Some x)
        (filter (fun idx => (idx <? Z.of_nat (length waveform))%Z)
                (flat_map segment_range (segments_of p (segments phonemes))))
        added.
Proof.
  intros Hdata Hget Hvalid. split; [apply lookup_states_filter | ].
  destruct (@sort_waveform_spec vec data layer_idx waveform_idx waveform table
              bucket phonemes Hdata Hget Hvalid)
    as (bucket' & Hrun & Hbucket).
  exists bucket'. split; [exact Hrun | ].
  intros p. eexists. split; [apply Hbucket | ].
  rewrite <- frames_of_flat_map. apply frames_of_in_range.
  apply Forall_forall. intros idx Hin. apply in_flat_map in Hin.
  destruct Hin as (seg & Hseg & Hin).
  apply filter_In in Hseg. destruct Hseg as [Hseg _].
  rewrite Forall_forall in Hvalid.
  destruct (segment_indices_total (Hvalid _ Hseg)) as [_ Hall].
  rewrite Forall_forall in Hall. exact (Hall _ Hin).
Qed.

(** C5, amended: for every utterance with valid sample offsets the aligner
    raises nothing, and a segment whose start offset equals its stop offset
    is attributed at most one frame. *)
Theorem zero_length_segment_at_most_one_frame
  (data : list phonetic_detail) (layer_idx waveform_idx : nat)
  waveform table bucket (phonemes : phonetic_detail) :
  nth_error data waveform_idx = Some phonemes ->
  table_get table layer_idx = Some bucket ->
  Forall valid_segment (segments phonemes) ->
  exists bucket',
    sort_waveform data layer_idx waveform_idx waveform table
    = Ok (table_set table layer_idx bucket') /\
    (forall p,
       dd_get bucket' p
       = dd_get bucket p
         ++ flat_map (fun seg => frames_of waveform (segment_range seg))
                     (segments_of p (segments phonemes))) /\
    forall seg, In seg (segments phonemes) -> fst (fst seg) = snd (fst seg) ->
      (length (segment_range seg) <= 1)%nat /\
      (length (frames_of waveform (segment_range seg)) <= 1)%nat.
Proof.
  intros Hdata Hget Hvalid.
  destruct (@sort_waveform_spec vec data layer_idx waveform_idx waveform table
              bucket phonemes Hdata Hget Hvalid)
    as (bucket' & Hrun & Hbucket).
  exists bucket'. split; [exact Hrun | ]. split; [exact Hbucket | ].
  intros [[start stop] phoneme] Hin Heq. simpl in Heq. subst stop.
  rewrite Forall_forall in Hvalid. destruct (Hvalid _ Hin) as [Hs _]. simpl in Hs.
  assert (Hlen : (length (segment_range (start, start, phoneme)) <= 1)%nat).
  { destruct (zero_length_segment_range phoneme Hs) as [-> | [a ->]]; simpl; lia. }
  split; [exact Hlen | ].
  pose proof (frames_of_length_le waveform (segment_range (start, start, phoneme))). lia.
Qed.

(** C7: for every utterance with valid sample offsets, the vector of a frame
    is appended under the label of every segment whose index range contains
    the frame, and nothing is deduplicated: the bucket of a label grows by
    one vector for each index below the frame count claimed by a segment of
    that label, however often a frame is claimed. *)
Theorem overlapping_frames_under_every_label
  (data : list phonetic_detail) (layer_idx waveform_idx : nat)
  waveform table bucket (phonemes : phonetic_detail) :
  nth_error data waveform_idx = Some phonemes ->
  table_get table layer_idx = Some bucket ->
  Forall valid_segment (segments phonemes) ->
  exists bucket',
    sort_waveform data layer_idx waveform_idx waveform table
    = Ok (table_set table layer_idx bucket') /\
    (forall seg idx x,
       In seg (segments phonemes) -> In idx (segment_range seg) ->
       nth_error waveform (Z.to_nat idx) = Some x ->
       In x (dd_get bucket' (segment_label seg))) /\
    (forall p,
       length (dd_get bucket' p)
       = (length (dd_get bucket p)
          + list_sum (map (fun seg =>
                             length (filter (fun idx => (idx <? Z.of_nat (length waveform))%Z)
                                            (segment_range seg)))
                          (segments_of p (segments phonemes))))%nat).
Proof.
  intros Hdata Hget Hvalid.
  destruct (@sort_waveform_spec vec data layer_idx waveform_idx waveform table
              bucket phonemes Hdata Hget Hvalid)
    as (bucket' & Hrun & Hbucket).
  exists bucket'. split; [exact Hrun | ].
  rewrite Forall_forall in Hvalid. split.
  - intros seg idx x Hseg Hidx Hnth. rewrite Hbucket.
    apply in_or_app. right. apply in_flat_map. exists seg. split.
    + apply filter_In. split; [exact Hseg | apply String.eqb_refl].
    + destruct (segment_indices_total (Hvalid _ Hseg)) as [_ Hall].
      rewrite Forall_forall in Hall.
      apply frames_of_In with (idx := idx); auto.
  - intros p. rewrite Hbucket, length_app. f_equal.
    assert (Hsub : forall seg, In seg (segments_of p (segments phonemes)) ->
                               In seg (segments phonemes)).
    { intros seg Hin. apply filter_In in Hin. tauto. }
    induction (segments_of p (segments phonemes)) as [ | seg segs IH]; [reflexivity | ].
    simpl. rewrite length_app, IH by (intros; apply Hsub; right; assumption).
    f_equal.
    destruct (segment_indices_total (Hvalid _ (Hsub seg (or_introl eq_refl)))) as [_ Hall].
    symmetry. apply (Forall2_length (frames_of_in_range waveform Hall)).
Qed.

End AlignerProperties.

(** The segment of the specification's example: samples 0 to 16000 start at
    frame 0 and stop at frame 50. *)
Lemma one_second_segment :
  start_index 0 = Ok 0%Z /\ stop_index 16000 = Ok 50%Z /\
  segment_indices 0 16000 = Ok (py_range 0 50).
Proof. vm_compute. repeat split; reflexivity. Qed.

(** Among the first sixty frame boundaries, those where the start index
    falls one frame early and those where the stop index falls one frame
    late. *)
Lemma boundary_drift_table :
  filter start_drifts (py_range 0 60) = [29; 47; 57; 58; 59]%Z /\
  filter stop_drifts (py_range 0 60) = [7; 14; 28; 56]%Z.
Proof. vm_compute. split; reflexivity. Qed.

(** C1: a segment that starts exactly on the boundary of frame 29, at
    sample 9280 = 29 * 320, is also given frame 28: the double
    [(9280 / 16000) / 0.020] is 28.999999999999996. Likewise a segment that
    stops exactly on the boundary of frame 7, at sample 2240, is also given
    frame 7, the double being 7.000000000000001. *)
Theorem boundary_segment_frame_drift :
  start_index 9280 = Ok 28%Z /\ spec_start_frame 9280 = 29%Z /\
  stop_index 9600 = Ok 30%Z /\ spec_stop_frame 9600 = 30%Z /\
  sort_states_per_phoneme [one_segment 9280 9600 "aa"]
                          (one_waveform (numbered_frames 40)) 1
  = Ok [(0, [("aa", [28; 29]%Z)])] /\
  start_index 1920 = Ok 6%Z /\ spec_start_frame 1920 = 6%Z /\
  stop_index 2240 = Ok 8%Z /\ spec_stop_frame 2240 = 7%Z /\
  sort_states_per_phoneme [one_segment 1920 2240 "aa"]
                          (one_waveform (numbered_frames 40)) 1
  = Ok [(0, [("aa", [6; 7]%Z)])].
Proof. vm_compute. repeat split; reflexivity. Qed.

(** One second of speech against 49 frames: index 49 is dropped. *)
Lemma out_of_range_frames_discarded_witness :
  (forall indeces,
     lookup_states (numbered_frames 49) indeces
     = lookup_states (numbered_frames 49)
         (filter (fun idx => (idx <? Z.of_nat (length (numbered_frames 49)))%Z)
                 indeces)) /\
  exists bucket',
    sort_waveform [one_segment 0 16000 "aa"] 0 0 (numbered_frames 49) [(0, [])]
    = Ok (table_set [(0, [])] 0 bucket') /\
    forall p, exists added,
      dd_get bucket' p = dd_get [] p ++ added /\
      Forall2 (fun idx x => nth_error (numbered_frames 49) (Z.to_nat idx) = Some x)
        (filter (fun idx => (idx <? Z.of_nat (length (numbered_frames 49)))%Z)
                (flat_map segment_range
                          (segments_of p (segments (one_segment 0 16000 "aa")))))
        added.
Proof.
  apply (@out_of_range_frames_discarded Z [one_segment 0 16000 "aa"] 0 0
           (numbered_frames 49) [(0, [])] [] (one_segment 0 16000 "aa"));
    [reflexivity | reflexivity | ].
  repeat constructor; unfold valid_sample; simpl; lia.
Defined.

(** A segment with [start == stop] in the middle of a frame is given that
    frame. *)
Lemma zero_length_segment_gets_a_frame :
  segment_indices 100 100 = Ok [0%Z] /\
  sort_states_per_phoneme [one_segment 100 100 "aa"]
                          (one_waveform (numbered_frames 3)) 1
  = Ok [(0, [("aa", [0%Z])])].
Proof. vm_compute. split; reflexivity. Qed.

(** The empty segment at sample 100 against three frames. *)
Lemma zero_length_segment_at_most_one_frame_witness :
  exists bucket',
    sort_waveform [one_segment 100 100 "aa"] 0 0 (numbered_frames 3) [(0, [])]
    = Ok (table_set [(0, [])] 0 bucket') /\
    (forall p,
       dd_get bucket' p
       = dd_get [] p
         ++ flat_map (fun seg => frames_of (numbered_frames 3) (segment_range seg))
                     (segments_of p (segments (one_segment 100 100 "aa")))) /\
    forall seg, In seg (segments (one_segment 100 100 "aa")) ->
      fst (fst seg) = snd (fst seg) ->
      (length (segment_range seg) <= 1)%nat /\
      (length (frames_of (numbered_frames 3) (segment_range seg)) <= 1)%nat.
Proof.
  apply (@zero_length_segment_at_most_one_frame Z [one_segment 100 100 "aa"] 0 0
           (numbered_frames 3) [(0, [])] [] (one_segment 100 100 "aa"));
    [reflexivity | reflexivity | ].
  repeat constructor; unfold valid_sample; simpl; lia.
Defined.

(** Frame 1 is claimed by both segments and stored under both labels. *)
Lemma adjacent_segments_share_a_frame :
  sort_states_per_phoneme [adjacent_segments] (one_waveform (numbered_frames 3)) 1
  = Ok [(0, [("aa", [0; 1]%Z); ("b", [1; 2]%Z)])].
Proof. vm_compute. reflexivity. Qed.

(** The two adjacent segments against three frames. *)
Lemma overlapping_frames_under_every_label_witness :
  exists bucket',
    sort_waveform [adjacent_segments] 0 0 (numbered_frames 3) [(0, [])]
    = Ok (table_set [(0, [])] 0 bucket') /\
    (forall seg idx x,
       In seg (segments adjacent_segments) -> In idx (segment_range seg) ->
       nth_error (numbered_frames 3) (Z.to_nat idx) = Some x ->
       In x (dd_get bucket' (segment_label seg))) /\
    (forall p,
       length (dd_get bucket' p)
       = (length (dd_get (A := Z) [] p)
          + list_sum (map (fun seg =>
                             length (filter (fun idx => (idx <? Z.of_nat (length (numbered_frames 3)))%Z)
                                            (segment_range seg)))
                          (segments_of p (segments adjacent_segments))))%nat).
Proof.
  apply (@overlapping_frames_under_every_label Z [adjacent_segments] 0 0
           (numbered_frames 3) [(0, [])] [] adjacent_segments);
    [reflexivity | reflexivity | ].
  repeat constructor; unfold valid_sample; simpl; lia.
Defined.

(** ** Counting classes *)

Lemma first_occurrences_In (labels : list string) (l : string) :
  In l (first_occurrences labels) <-> In l labels.
Proof.
  induction labels as [ | a labels IH]; simpl; [tauto | ].
  rewrite filter_In, IH, negb_true_iff.
  destruct (String.eqb_spec l a) as [-> | Hne]; intuition congruence.
Qed.

Lemma first_occurrences_NoDup (labels : list string) : NoDup (first_occurrences labels).
Proof.
  induction labels as [ | a labels IH]; simpl; constructor.
  - rewrite filter_In, String.eqb_refl. simpl. intros [_ H]. discriminate.
  - apply NoDup_filter. exact IH.
Qed.

Lemma filter_all (A : Type) (f : A -> bool) (l : list A) :
  (forall x, In x l -> f x = true) -> filter f l = l.
Proof.
  induction l as [ | a l IH]; simpl; intros H; [reflexivity | ].
  rewrite (H a) by auto. f_equal. apply IH. auto.
Qed.

Lemma first_occurrences_snoc (labels : list string) (x : string) :
  first_occurrences (labels ++ [x])
  = if in_dec string_dec x labels then first_occurrences labels
    else first_occurrences labels ++ [x].
Proof.
  induction labels as [ | a labels IH]; simpl; [reflexivity | ].
  rewrite IH. destruct (in_dec string_dec x labels) as [Hin | Hnin].
  - destruct (string_dec a x); reflexivity.
  - destruct (string_dec a x) as [-> | Hne].
    + rewrite filter_app. simpl. rewrite String.eqb_refl. simpl.
      rewrite app_nil_r. reflexivity.
    + rewrite filter_app. simpl.
      destruct (String.eqb_spec x a); [congruence | reflexivity].
Qed.

Lemma class_count_snoc (labels : list string) (x l : string) :
  class_count (labels ++ [x]) l
  = class_count labels l + (if String.eqb x l then 1 else 0).
Proof.
  unfold class_count. rewrite count_occ_app. simpl.
  destruct (string_dec x l) as [-> | Hne].
  - rewrite String.eqb_refl. reflexivity.
  - destruct (String.eqb_spec x l); [congruence | reflexivity].
Qed.

Lemma counter_incr_present (f : string -> nat) (keys : list string) (x : string) :
  NoDup keys -> In x keys ->
  counter_incr (map (fun l => (l, f l)) keys) x
  = map (fun l => (l, f l + (if String.eqb x l then 1 else 0))) keys.
Proof.
  induction keys as [ | a keys IH]; intros Hnd Hin; [contradiction | ].
  inversion Hnd as [ | ? ? Hnotin Hnd']; subst. simpl.
  destruct (String.eqb_spec a x) as [-> | Hne].
  - rewrite String.eqb_refl. f_equal; [f_equal; lia | ].
    apply map_ext_in. intros l Hl.
    destruct (String.eqb_spec x l) as [-> | ]; [contradiction | f_equal; lia].
  - destruct (String.eqb_spec x a) as [-> | _]; [congruence | ].
    f_equal; [f_equal; lia | ]. apply IH; [assumption | ].
    destruct Hin; [congruence | assumption].
Qed.

Lemma counter_incr_absent (f : string -> nat) (keys : list string) (x : string) :
  ~ In x keys ->
  counter_incr (map (fun l => (l, f l)) keys) x
  = map (fun l => (l, f l + (if String.eqb x l then 1 else 0))) keys ++ [(x, 1)].
Proof.
  induction keys as [ | a keys IH]; intros Hnin; simpl; [reflexivity | ].
  destruct (String.eqb_spec a x) as [-> | Hne]; [exfalso; apply Hnin; left; reflexivity | ].
  destruct (String.eqb_spec x a) as [-> | _]; [congruence | ].
  rewrite IH by (intros H; apply Hnin; right; exact H).
  simpl. f_equal. f_equal. lia.
Qed.

(** [Counter] lists the distinct labels in order of first occurrence, each
    with its number of occurrences. *)
Lemma Counter_spec (labels : list string) :
  Counter labels = map (fun l => (l, class_count labels l)) (first_occurrences labels).
Proof.
  unfold Counter. induction labels as [ | x labels IH] using rev_ind; [reflexivity | ].
  rewrite fold_left_app. simpl. rewrite IH, first_occurrences_snoc.
  destruct (in_dec string_dec x labels) as [Hin | Hnin].
  - rewrite counter_incr_present
      by (try apply first_occurrences_NoDup; apply first_occurrences_In; exact Hin).
    apply map_ext. intros l. rewrite class_count_snoc. reflexivity.
  - rewrite counter_incr_absent by (rewrite first_occurrences_In; exact Hnin).
    rewrite map_app. simpl. f_equal.
    + apply map_ext. intros l. rewrite class_count_snoc. reflexivity.
    + rewrite class_count_snoc, String.eqb_refl.
      unfold class_count. rewrite (proj1 (count_occ_not_In string_dec labels x) Hnin).
      reflexivity.
Qed.

Lemma fold_left_min_spec (values : list nat) (v : nat) :
  In (fold_left Nat.min values v) (v :: values) /\
  forall x, In x (v :: values) -> fold_left Nat.min values v <= x.
Proof.
  revert v. induction values as [ | a values IH]; intros v; simpl.
  - split; [left; reflexivity | intros x [<- | []]; lia].
  - destruct (IH (Nat.min v a)) as [Hin Hle]. split.
    + destruct Hin as [Heq | Hin]; [ | right; right; exact Hin].
      destruct (Nat.min_spec v a) as [[_ E] | [_ E]]; rewrite E in *; auto.
    + intros x [<- | [<- | Hx]].
      * specialize (Hle (Nat.min v a) (or_introl eq_refl)). lia.
      * specialize (Hle (Nat.min v a) (or_introl eq_refl)). lia.
      * apply Hle. right. exact Hx.
Qed.

Lemma class_count_pos (labels : list string) (l : string) :
  In l labels -> 1 <= class_count labels l.
Proof. intros H. apply (count_occ_In string_dec) in H. unfold class_count. lia. Qed.

(** [min(class_distribution.values())] of a non-empty dataset does not
    raise, and is the smallest class count. *)
Lemma min_class_count_ok (labels : list string) :
  labels <> [] ->
  exists m, py_min (map snd (Counter labels)) = Ok m /\
            is_min_class_count m labels /\ 1 <= m.
Proof.
  intros Hne. rewrite Counter_spec, map_map. simpl.
  destruct labels as [ | a labels]; [congruence | ].
  remember (a :: labels) as y eqn:Ey.
  assert (Hy : first_occurrences y <> []) by (subst y; simpl; discriminate).
  destruct (first_occurrences y) as [ | k ks] eqn:Ek; [congruence | ].
  simpl. eexists. split; [reflexivity | ].
  destruct (fold_left_min_spec (map (class_count y) ks) (class_count y k)) as [Hin Hle].
  set (m := fold_left Nat.min (map (class_count y) ks) (class_count y k)) in *.
  assert (Hkeys : forall l, In l y <-> In l (k :: ks)).
  { intros l. rewrite <- Ek. symmetry. apply first_occurrences_In. }
  assert (Hmin : is_min_class_count m y).
  { split.
    - change (class_count y k :: map (class_count y) ks)
        with (map (class_count y) (k :: ks)) in Hin.
      apply in_map_iff in Hin. destruct Hin as (l & Hl & Hlin).
      exists l. split; [apply Hkeys; exact Hlin | exact Hl].
    - intros l Hl. apply Hle.
      change (class_count y k :: map (class_count y) ks)
        with (map (class_count y) (k :: ks)).
      apply in_map. apply Hkeys. exact Hl. }
  split; [exact Hmin | ].
  destruct Hmin as [(l & Hl & <-) _]. apply class_count_pos. exact Hl.
Qed.

(** ** Balancing *)

Section BalanceFacts.
Variable vec : Type.
Implicit Types (pairs : list (vec * string)) (X : list vec) (y : list string).

Lemma combine_map_fst_snd pairs : combine (map fst pairs) (map snd pairs) = pairs.
Proof.
  induction pairs as [ | [x l] pairs IH]; simpl; [reflexivity | rewrite IH; reflexivity].
Qed.

Lemma map_fst_combine X : forall y, length X = length y -> map fst (combine X y) = X.
Proof.
  induction X as [ | x X IH]; intros [ | l y] H; simpl in *; try discriminate; [reflexivity | ].
  f_equal. apply IH. lia.
Qed.

Lemma map_snd_combine X : forall y, length X = length y -> map snd (combine X y) = y.
Proof.
  induction X as [ | x X IH]; intros [ | l y] H; simpl in *; try discriminate; [reflexivity | ].
  f_equal. apply IH. lia.
Qed.

Lemma class_pairs_length (label : string) pairs :
  length (class_pairs label pairs) = class_count (map snd pairs) label.
Proof.
  unfold class_pairs, class_count. induction pairs as [ | [x l] pairs IH]; simpl; [reflexivity | ].
  destruct (string_dec l label) as [-> | Hne].
  - rewrite String.eqb_refl. simpl. rewrite IH. reflexivity.
  - destruct (String.eqb_spec l label); [congruence | exact IH].
Qed.

Lemma class_pairs_label (label : string) pairs (p : vec * string) :
  In p (class_pairs label pairs) -> snd p = label.
Proof.
  unfold class_pairs. rewrite filter_In. intros [_ H]. apply String.eqb_eq. exact H.
Qed.

(** The inner loop leaves through [break] exactly when the class still has
    enough examples, and then hands over the first of them. *)
Lemma take_class_spec (label : string) (num : nat) pairs :
  forall (i : nat) (instances : list vec) (labels : list string),
  i <= num ->
  take_class label num i instances labels pairs
  = if (num + 1 - i <=? length (class_pairs label pairs))%nat
    then Some (instances ++ map fst (firstn (num + 1 - i) (class_pairs label pairs)),
               labels ++ map snd (firstn (num + 1 - i) (class_pairs label pairs)))
    else None.
Proof.
  unfold class_pairs.
  induction pairs as [ | [x l] pairs IH]; intros i instances labels Hi; simpl.
  - destruct (Nat.leb_spec (num + 1 - i) 0); [lia | reflexivity].
  - destruct (String.eqb l label) eqn:El; [ | apply IH; exact Hi].
    destruct (Nat.eqb_spec i num) as [-> | Hne].
    + replace (num + 1 - num) with 1 by lia. simpl. reflexivity.
    + rewrite IH by lia. simpl length.
      replace (num + 1 - i) with (S (num + 1 - S i)) by lia.
      simpl. rewrite <- !app_assoc. simpl.
      destruct (num + 1 - S i <=? _)%nat; reflexivity.
Qed.

Lemma balance_labels_spec (keys : list string) (m : nat) X y :
  1 <= m ->
  (forall label, In label keys -> m <= length (class_pairs label (combine X y))) ->
  forall (bX : list vec) (by_ : list string),
  balance_labels keys m X y bX by_
  = (bX ++ map fst (flat_map (fun label => firstn m (class_pairs label (combine X y))) keys),
     by_ ++ map snd (flat_map (fun label => firstn m (class_pairs label (combine X y))) keys)).
Proof.
  intros Hm. induction keys as [ | label keys IH]; intros Hall bX by_; simpl.
  - rewrite !app_nil_r. reflexivity.
  - rewrite take_class_spec by exact Hm.
    replace (m + 1 - 1) with m by lia.
    destruct (Nat.leb_spec m (length (class_pairs label (combine X y)))) as [_ | Hlt].
    + simpl. rewrite IH by (intros; apply Hall; right; assumption).
      rewrite !map_app, !app_assoc. reflexivity.
    + specialize (Hall label (or_introl eq_refl)). lia.
Qed.

(** What [balance_classes] returns on parallel, non-empty sequences. *)
Lemma balance_classes_spec X y :
  length X = length y -> y <> [] ->
  exists m,
    is_min_class_count m y /\ 1 <= m /\
    balance_classes X y
    = Ok (map fst (balanced_pairs m (combine X y)),
          map snd (balanced_pairs m (combine X y))).
Proof.
  intros Hlen Hne. destruct (min_class_count_ok Hne) as (m & Hmin & Hspec & Hpos).
  exists m. split; [exact Hspec | ]. split; [exact Hpos | ].
  unfold balance_classes. rewrite Hmin. simpl bind.
  rewrite balance_labels_spec; [ | exact Hpos | ].
  - unfold balanced_pairs. rewrite map_snd_combine by exact Hlen.
    rewrite Counter_spec. unfold dict_keys. rewrite map_map. simpl.
    rewrite map_id. reflexivity.
  - intros label Hin. rewrite class_pairs_length, map_snd_combine by exact Hlen.
    apply Hspec. unfold dict_keys in Hin. rewrite Counter_spec, map_map in Hin.
    simpl in Hin. rewrite map_id in Hin. apply first_occurrences_In. exact Hin.
Qed.

End BalanceFacts.

Section BalancedPairs.
Variable vec : Type.
Implicit Types (pairs : list (vec * string)) (X : list vec) (y : list string).

Lemma firstn_incl (A : Type) (n : nat) (l : list A) (x : A) :
  In x (firstn n l) -> In x l.
Proof.
  revert l. induction n as [ | n IH]; intros [ | a l]; simpl; try tauto.
  intros [-> | H]; [left; reflexivity | right; apply IH; exact H].
Qed.

Lemma filter_none (A : Type) (f : A -> bool) (l : list A) :
  (forall x, In x l -> f x = false) -> filter f l = [].
Proof.
  induction l as [ | a l IH]; simpl; intros H; [reflexivity | ].
  rewrite (H a) by auto. apply IH. auto.
Qed.

Lemma flat_map_ext_In (A B : Type) (f g : A -> list B) (l : list A) :
  (forall a, In a l -> f a = g a) -> flat_map f l = flat_map g l.
Proof.
  induction l as [ | a l IH]; simpl; intros H; [reflexivity | ].
  rewrite (H a) by auto. f_equal. apply IH. auto.
Qed.

Lemma class_pairs_app (label : string) pairs1 pairs2 :
  class_pairs label (pairs1 ++ pairs2)
  = class_pairs label pairs1 ++ class_pairs label pairs2.
Proof. apply filter_app. Qed.

Lemma class_pairs_block (label a : string) (m : nat) pairs :
  class_pairs label (firstn m (class_pairs a pairs))
  = if String.eqb a label then firstn m (class_pairs a pairs) else [].
Proof.
  destruct (String.eqb_spec a label) as [-> | Hne].
  - apply filter_all. intros p Hp. apply firstn_incl in Hp.
    apply class_pairs_label in Hp. apply String.eqb_eq. exact Hp.
  - unfold class_pairs at 1. apply filter_none.
    intros p Hp. apply firstn_incl in Hp. apply class_pairs_label in Hp.
    apply String.eqb_neq. congruence.
Qed.

(** In the concatenation of the blocks, the examples of a class are its
    block. *)
Lemma class_pairs_blocks (label : string) (m : nat) pairs (keys : list string) :
  NoDup keys ->
  class_pairs label (flat_map (fun a => firstn m (class_pairs a pairs)) keys)
  = if in_dec string_dec label keys then firstn m (class_pairs label pairs) else [].
Proof.
  induction keys as [ | a keys IH]; intros Hnd; simpl; [reflexivity | ].
  inversion Hnd as [ | ? ? Hnotin Hnd']; subst.
  rewrite class_pairs_app, class_pairs_block, IH by exact Hnd'.
  destruct (string_dec a label) as [-> | Hne].
  - rewrite String.eqb_refl.
    destruct (in_dec string_dec label keys); [contradiction | apply app_nil_r].
  - destruct (String.eqb_spec a label); [congruence | ].
    destruct (in_dec string_dec label keys); reflexivity.
Qed.

Lemma first_occurrences_block (a : string) (block rest : list string) :
  block <> [] -> (forall l, In l block -> l = a) -> ~ In a rest ->
  first_occurrences (block ++ rest) = a :: first_occurrences rest.
Proof.
  intros Hne Hall Hnin. induction block as [ | b block IH]; [congruence | ].
  assert (b = a) as -> by (apply Hall; left; reflexivity).
  simpl. f_equal. destruct block as [ | b' block].
  - simpl. apply filter_all. intros l Hl. rewrite first_occurrences_In in Hl.
    apply negb_true_iff, String.eqb_neq. intros ->. contradiction.
  - rewrite IH; [ | discriminate | intros l Hl; apply Hall; right; exact Hl].
    simpl. rewrite String.eqb_refl. simpl.
    apply filter_all. intros l Hl. rewrite first_occurrences_In in Hl.
    apply negb_true_iff, String.eqb_neq. intros ->. contradiction.
Qed.

Lemma blocks_labels_In (m : nat) pairs (keys : list string) (l : string) :
  In l (map snd (flat_map (fun a => firstn m (class_pairs a pairs)) keys)) ->
  In l keys.
Proof.
  rewrite in_map_iff. intros (p & <- & Hp). apply in_flat_map in Hp.
  destruct Hp as (a & Ha & Hp). apply firstn_incl in Hp.
  apply class_pairs_label in Hp. congruence.
Qed.

(** The blocks list the labels in the order of the keys. *)
Lemma first_occurrences_blocks (m : nat) pairs (keys : list string) :
  NoDup keys -> 1 <= m ->
  (forall a, In a keys -> m <= length (class_pairs a pairs)) ->
  first_occurrences (map snd (flat_map (fun a => firstn m (class_pairs a pairs)) keys))
  = keys.
Proof.
  intros Hnd Hm. induction keys as [ | a keys IH]; intros Hall; simpl; [reflexivity | ].
  inversion Hnd as [ | ? ? Hnotin Hnd']; subst.
  rewrite map_app, (@first_occurrences_block a).
  - rewrite IH; [reflexivity | exact Hnd' | intros; apply Hall; right; assumption].
  - intros E. apply (f_equal (@length _)) in E.
    rewrite length_map, length_firstn in E. simpl in E.
    specialize (Hall a (or_introl eq_refl)). lia.
  - intros l Hl. apply in_map_iff in Hl. destruct Hl as (p & <- & Hp).
    apply firstn_incl in Hp. apply class_pairs_label in Hp. exact Hp.
  - intros Hin. apply blocks_labels_In in Hin. contradiction.
Qed.

Section Balanced.
Variables (m : nat) (pairs : list (vec * string)).
Hypothesis m_pos : 1 <= m.
Hypothesis m_min : forall l, In l (map snd pairs) -> m <= class_count (map snd pairs) l.

Lemma balanced_first_occurrences :
  first_occurrences (map snd (balanced_pairs m pairs))
  = first_occurrences (map snd pairs).
Proof.
  unfold balanced_pairs. apply first_occurrences_blocks.
  - apply first_occurrences_NoDup.
  - exact m_pos.
  - intros a Ha. rewrite class_pairs_length. apply m_min.
    apply first_occurrences_In. exact Ha.
Qed.

Lemma balanced_labels (l : string) :
  In l (map snd (balanced_pairs m pairs)) <-> In l (map snd pairs).
Proof.
  rewrite <- (first_occurrences_In (map snd (balanced_pairs m pairs))).
  rewrite balanced_first_occurrences. apply first_occurrences_In.
Qed.

Lemma balanced_class_pairs (l : string) :
  In l (map snd pairs) ->
  class_pairs l (balanced_pairs m pairs) = firstn m (class_pairs l pairs).
Proof.
  intros Hl. unfold balanced_pairs.
  rewrite class_pairs_blocks by apply first_occurrences_NoDup.
  destruct (in_dec string_dec l (first_occurrences (map snd pairs))) as [ | Hn];
    [reflexivity | ].
  exfalso. apply Hn. apply first_occurrences_In. exact Hl.
Qed.

(** After balancing every class has exactly [m] examples. *)
Lemma balanced_class_count (l : string) :
  In l (map snd pairs) -> class_count (map snd (balanced_pairs m pairs)) l = m.
Proof.
  intros Hl. rewrite <- class_pairs_length, balanced_class_pairs by exact Hl.
  rewrite length_firstn, class_pairs_length. specialize (m_min l Hl). lia.
Qed.

(** Balancing a balanced dataset changes nothing. *)
Lemma balanced_pairs_idempotent :
  balanced_pairs m (balanced_pairs m pairs) = balanced_pairs m pairs.
Proof.
  unfold balanced_pairs at 1. rewrite balanced_first_occurrences.
  unfold balanced_pairs at 2. apply flat_map_ext_In.
  intros l Hl. rewrite first_occurrences_In in Hl.
  rewrite balanced_class_pairs by exact Hl.
  rewrite firstn_firstn, Nat.min_id. reflexivity.
Qed.

End Balanced.
End BalancedPairs.

Section BalanceProperties.
Variable vec : Type.

(** C2: on a non-empty list of (vector, label) pairs [balance_classes]
    returns, for each distinct label in order of first occurrence, the first
    [m] examples of that label in input order, [m] being the smallest class
    count; the classes of the result are those of the input, and each has
    exactly [m] examples. *)
Theorem balance_classes_first_m_per_class (X : list vec) (y : list string) :
  length X = length y -> y <> [] ->
  exists (m : nat) (bX : list vec) (bY : list string),
    is_min_class_count m y /\
    balance_classes X y = Ok (bX, bY) /\
    length bX = length bY /\
    combine bX bY
    = flat_map (fun label => firstn m (class_pairs label (combine X y)))
               (first_occurrences y) /\
    (forall label, In label bY <-> In label y) /\
    (forall label, In label bY -> class_count bY label = m).
Proof.
  intros Hlen Hne.
  destruct (balance_classes_spec X Hlen Hne) as (m & Hmin & Hpos & Hrun).
  pose proof (@map_snd_combine vec X y Hlen) as Hy.
  assert (Hm : forall l, In l (map snd (combine X y)) ->
                         m <= class_count (map snd (combine X y)) l).
  { rewrite Hy. apply Hmin. }
  exists m, (map fst (balanced_pairs m (combine X y))),
    (map snd (balanced_pairs m (combine X y))).
  split; [exact Hmin | ]. split; [exact Hrun | ].
  split; [rewrite !length_map; reflexivity | ].
  split; [rewrite combine_map_fst_snd; unfold balanced_pairs; rewrite Hy; reflexivity | ].
  split.
  - intros l. rewrite (balanced_labels (combine X y) Hpos Hm), Hy. reflexivity.
  - intros l Hl. apply (balanced_class_count (combine X y) Hpos Hm).
    apply (balanced_labels (combine X y) Hpos Hm). exact Hl.
Qed.

(** C9: balancing the output of [balance_classes] again succeeds and
    returns it unchanged, so the class counts stay the same. *)
Theorem balance_classes_idempotent (X : list vec) (y : list string) :
  length X = length y -> y <> [] ->
  exists (bX bX' : list vec) (bY bY' : list string),
    balance_classes X y = Ok (bX, bY) /\
    balance_classes bX bY = Ok (bX', bY') /\
    Counter bY' = Counter bY /\
    (forall label, class_count bY' label = class_count bY label) /\
    bX' = bX /\ bY' = bY.
Proof.
  intros Hlen Hne.
  destruct (balance_classes_spec X Hlen Hne) as (m & Hmin & Hpos & Hrun).
  pose proof (@map_snd_combine vec X y Hlen) as Hy.
  assert (Hm : forall l, In l (map snd (combine X y)) ->
                         m <= class_count (map snd (combine X y)) l).
  { rewrite Hy. apply Hmin. }
  set (B := balanced_pairs m (combine X y)) in *.
  assert (Hlen' : length (map fst B) = length (map snd B)) by (rewrite !length_map; reflexivity).
  assert (Hne' : map snd B <> []).
  { assert (Hex : exists l, In l y).
    { destruct y as [ | l y']; [congruence | exists l; left; reflexivity]. }
    destruct Hex as [l Hl].
    assert (Hin : In l (map snd B)).
    { apply (balanced_labels (combine X y) Hpos Hm). rewrite Hy. exact Hl. }
    intros E. rewrite E in Hin. contradiction. }
  destruct (balance_classes_spec (map fst B) Hlen' Hne') as (m' & Hmin' & Hpos' & Hrun').
  rewrite combine_map_fst_snd in Hrun'.
  assert (m' = m) as ->.
  { destruct Hmin' as [(l & Hl & <-) _]. apply (balanced_class_count (combine X y) Hpos Hm).
    apply (balanced_labels (combine X y) Hpos Hm). exact Hl. }
  unfold B in Hrun' at 3 4. rewrite (balanced_pairs_idempotent (combine X y) Hpos Hm) in Hrun'.
  exists (map fst B), (map fst B), (map snd B), (map snd B).
  repeat split; assumption || reflexivity.
Qed.

End BalanceProperties.

(** Two [m], two [n] and one [ng]. *)
Lemma balance_classes_first_m_per_class_witness :
  exists (m : nat) (bX : list nat) (bY : list string),
    is_min_class_count m ["m"; "n"; "m"; "ng"; "n"] /\
    balance_classes [1; 2; 3; 4; 5] ["m"; "n"; "m"; "ng"; "n"] = Ok (bX, bY) /\
    length bX = length bY /\
    combine bX bY
    = flat_map (fun label =>
                  firstn m (class_pairs label
                              (combine [1; 2; 3; 4; 5] ["m"; "n"; "m"; "ng"; "n"])))
               (first_occurrences ["m"; "n"; "m"; "ng"; "n"]) /\
    (forall label, In label bY <-> In label ["m"; "n"; "m"; "ng"; "n"]) /\
    (forall label, In label bY -> class_count bY label = m).
Proof.
  apply (@balance_classes_first_m_per_class nat [1; 2; 3; 4; 5]
           ["m"; "n"; "m"; "ng"; "n"]); [reflexivity | discriminate].
Defined.

(** The same dataset, balanced twice. *)
Lemma balance_classes_idempotent_witness :
  exists (bX bX' : list nat) (bY bY' : list string),
    balance_classes [1; 2; 3; 4; 5] ["m"; "n"; "m"; "ng"; "n"] = Ok (bX, bY) /\
    balance_classes bX bY = Ok (bX', bY') /\
    Counter bY' = Counter bY /\
    (forall label, class_count bY' label = class_count bY label) /\
    bX' = bX /\ bY' = bY.
Proof.
  apply (@balance_classes_idempotent nat [1; 2; 3; 4; 5]
           ["m"; "n"; "m"; "ng"; "n"]); [reflexivity | discriminate].
Defined.

(** The sample dataset: two [m], two [n], one [ng]; one example of each is
    kept. *)
Lemma balance_classes_sample :
  balance_classes [1; 2; 3; 4; 5] ["m"; "n"; "m"; "ng"; "n"]
  = Ok ([1; 2; 4], ["m"; "n"; "ng"]) /\
  balance_classes [1; 2; 3; 4; 5] ["m"; "n"; "m"; "n"; "n"]
  = Ok ([1; 3; 2; 4], ["m"; "m"; "n"; "n"]) /\
  balance_classes (@nil nat) [] = Raise ValueError.
Proof. vm_compute. repeat split; reflexivity. Qed.

(** ** The dataset loader *)

Section LoaderFacts.
Variable vec : Type.
Implicit Types (hs : list (option vec)) (X : list vec) (y : list string)
  (bucket : sdict (list (option vec))).

Lemma load_states_skipped (phoneme : string) (target : option (list string)) hs X y :
  selected target phoneme = false ->
  load_states phoneme target hs X y = Ok (X, y).
Proof.
  unfold selected. intros Hsel.
  induction hs as [ | [v | ] hs IH]; simpl; [reflexivity | | exact IH].
  destruct (negb (String.eqb phoneme "q")); [ | exact IH].
  destruct target as [t | ]; simpl in Hsel; [ | discriminate].
  rewrite Hsel. exact IH.
Qed.

Lemma load_states_mapped (phoneme coarse : string) (target : option (list string)) hs :
  selected target phoneme = true ->
  dict_get phoneme_mapping phoneme = Some coarse ->
  forall X y,
  load_states phoneme target hs X y
  = Ok (X ++ present hs, y ++ repeat coarse (length (present hs))).
Proof.
  unfold selected. intros Hsel Hmap. apply andb_true_iff in Hsel. destruct Hsel as [Hq Ht].
  induction hs as [ | [v | ] hs IH]; intros X y; simpl.
  - rewrite !app_nil_r. reflexivity.
  - rewrite Hq. unfold phoneme_mapping_getitem. rewrite Hmap.
    destruct target as [t | ].
    + rewrite Ht. simpl bind. rewrite IH, <- !app_assoc. reflexivity.
    + simpl bind. rewrite IH, <- !app_assoc. reflexivity.
  - apply IH.
Qed.

Lemma load_states_unmapped (phoneme : string) (target : option (list string)) hs X y :
  selected target phoneme = true ->
  dict_get phoneme_mapping phoneme = None ->
  load_states phoneme target hs X y
  = if Nat.eqb (length (present hs)) 0 then Ok (X, y)
    else Raise (KeyError_label phoneme).
Proof.
  unfold selected. intros Hsel Hmap. apply andb_true_iff in Hsel. destruct Hsel as [Hq Ht].
  induction hs as [ | [v | ] hs IH]; simpl; [reflexivity | | exact IH].
  rewrite Hq. unfold phoneme_mapping_getitem. rewrite Hmap.
  destruct target as [t | ]; [rewrite Ht | ]; reflexivity.
Qed.

(** When every label to collapse is in the table, the loader returns the
    vectors of the selected buckets, in bucket order, each with the coarse
    label of its bucket. *)
Lemma load_phonemes_ok (target : option (list string)) bucket :
  (forall item, In item bucket -> unmapped target item = false) ->
  forall X y,
  load_phonemes target bucket X y
  = Ok (X ++ flat_map (fun item => present (snd item)) (selected_items target bucket),
        y ++ flat_map loaded_labels (selected_items target bucket)).
Proof.
  unfold selected_items.
  induction bucket as [ | [phoneme hs] bucket IH]; intros Hall X y; simpl.
  - rewrite !app_nil_r. reflexivity.
  - pose proof (Hall (phoneme, hs) (or_introl eq_refl)) as Hitem.
    unfold unmapped in Hitem. cbn [fst snd] in Hitem.
    destruct (selected target phoneme) eqn:Hsel.
    + destruct (dict_get phoneme_mapping phoneme) as [coarse | ] eqn:Hmap.
      * rewrite (@load_states_mapped phoneme coarse target hs Hsel Hmap). simpl bind.
        rewrite IH by (intros; apply Hall; right; assumption).
        simpl flat_map. unfold loaded_labels at 2. simpl fst. simpl snd.
        rewrite Hmap, !app_assoc. reflexivity.
      * rewrite (@load_states_unmapped phoneme target hs X y Hsel Hmap).
        rewrite andb_true_r in Hitem. cbn [andb] in Hitem.
        apply negb_false_iff in Hitem. rewrite Hitem. simpl bind.
        rewrite IH by (intros; apply Hall; right; assumption).
        simpl flat_map. unfold loaded_labels at 2. simpl fst. simpl snd.
        rewrite Hmap. apply Nat.eqb_eq, length_zero_iff_nil in Hitem.
        rewrite Hitem. reflexivity.
    + rewrite (@load_states_skipped phoneme target hs X y Hsel). simpl bind.
      apply IH. intros; apply Hall; right; assumption.
Qed.

(** The loader fails on the first bucket whose label must be collapsed and
    is not in the table. *)
Lemma load_phonemes_raise (target : option (list string))
  (before after : sdict (list (option vec))) (item : string * list (option vec)) :
  (forall item', In item' before -> unmapped target item' = false) ->
  unmapped target item = true ->
  forall X y,
  load_phonemes target (before ++ item :: after) X y = Raise (KeyError_label (fst item)).
Proof.
  intros Hbefore Hitem.
  induction before as [ | [phoneme hs] before IH]; intros X y.
  - destruct item as [phoneme hs]. unfold unmapped in Hitem.
    cbn [fst snd app load_phonemes] in *.
    apply andb_true_iff in Hitem. destruct Hitem as [Hitem Hmap].
    apply andb_true_iff in Hitem. destruct Hitem as [Hsel Hlen].
    destruct (dict_get phoneme_mapping phoneme) eqn:E; [discriminate | ].
    rewrite (@load_states_unmapped phoneme target hs X y Hsel E).
    apply negb_true_iff in Hlen. rewrite Hlen. reflexivity.
  - simpl app. simpl load_phonemes.
    assert (Hok : unmapped target (phoneme, hs) = false) by (apply Hbefore; left; reflexivity).
    pose proof (@load_phonemes_ok target [(phoneme, hs)]) as H1.
    simpl load_phonemes in H1.
    destruct (load_states phoneme target hs X y) as [[X' y'] | e] eqn:E.
    + simpl bind. apply IH. intros; apply Hbefore; right; assumption.
    + exfalso. specialize (H1 ltac:(intros it [<- | []]; exact Hok) X y).
      rewrite E in H1. discriminate.
Qed.

End LoaderFacts.


Lemma py_in_In (phoneme : string) (target : list string) :
  py_in phoneme target = true <-> In phoneme target.
Proof.
  unfold py_in. rewrite existsb_exists. split.
  - intros (x & Hx & E). apply String.eqb_eq in E. congruence.
  - intros H. exists phoneme. split; [exact H | apply String.eqb_refl].
Qed.

Lemma dict_get_In (V : Type) (d : sdict V) (k : string) :
  In k (dict_keys d) -> exists v, dict_get d k = Some v.
Proof.
  unfold dict_keys. induction d as [ | [k' v] d IH]; simpl; [contradiction | ].
  destruct (String.eqb_spec k' k) as [-> | Hne]; [eauto | ].
  intros [H | H]; [congruence | exact (IH H)].
Qed.


Section LoaderErrors.
Variable vec : Type.
Implicit Types (bucket : sdict (list (option vec))) (h : phoneme_table (option vec)).

(** The buckets that are not selected might as well be absent. *)
Lemma load_phonemes_selected (target : option (list string)) bucket :
  forall (X : list vec) (y : list string),
  load_phonemes target bucket X y
  = load_phonemes target (selected_items target bucket) X y.
Proof.
  unfold selected_items.
  induction bucket as [ | [phoneme hs] bucket IH]; intros X y; simpl; [reflexivity | ].
  destruct (selected target phoneme) eqn:Hsel; simpl.
  - destruct (load_states phoneme target hs X y) as [[X' y'] | e]; simpl; [apply IH | reflexivity].
  - rewrite (@load_states_skipped vec phoneme target hs X y Hsel). simpl. apply IH.
Qed.

Lemma load_phonemes_unmapped (target : option (list string)) bucket :
  (exists item, In item bucket /\ unmapped target item = true) ->
  forall (X : list vec) (y : list string),
  exists k, dict_get phoneme_mapping k = None /\
            load_phonemes target bucket X y = Raise (KeyError_label k).
Proof.
  induction bucket as [ | item bucket IH]; intros (bad & Hin & Hbad) X y; [contradiction | ].
  destruct (unmapped target item) eqn:Hitem.
  - exists (fst item). split.
    + unfold unmapped in Hitem. destruct (dict_get phoneme_mapping (fst item)); [ | reflexivity].
      rewrite andb_false_r in Hitem. discriminate.
    + apply (@load_phonemes_raise vec target [] bucket item); [intros ? [] | exact Hitem].
  - destruct Hin as [-> | Hin]; [congruence | ].
    pose proof (@load_phonemes_ok vec target [item]
                  ltac:(intros it [<- | []]; exact Hitem) X y) as H1.
    destruct item as [phoneme hs]. cbn [load_phonemes] in *.
    destruct (load_states phoneme target hs X y) as [[X' y'] | e]; [ | discriminate].
    cbn [bind]. apply IH. exists bad. split; assumption.
Qed.

End LoaderErrors.

Lemma dict_get_Some_In (V : Type) (d : sdict V) (k : string) (v : V) :
  dict_get d k = Some v -> In (k, v) d.
Proof.
  induction d as [ | [k' v'] d IH]; simpl; [discriminate | ].
  destruct (String.eqb_spec k' k) as [-> | Hne].
  - intros [= ->]. left. reflexivity.
  - intros H. right. exact (IH H).
Qed.

Lemma dict_get_unique (V : Type) (d : sdict V) (k : string) (v : V) :
  NoDup (dict_keys d) -> In (k, v) d -> dict_get d k = Some v.
Proof.
  unfold dict_keys. induction d as [ | [k' v'] d IH]; simpl; intros Hnd Hin; [contradiction | ].
  inversion Hnd as [ | ? ? Hnotin Hnd']; subst.
  destruct Hin as [[= -> ->] | Hin].
  - rewrite String.eqb_refl. reflexivity.
  - destruct (String.eqb_spec k' k) as [-> | Hne]; [ | exact (IH Hnd' Hin)].
    exfalso. apply Hnotin. apply (in_map fst) in Hin. exact Hin.
Qed.

Lemma filter_filter_implied (A : Type) (f g : A -> bool) (l : list A) :
  (forall x, f x = true -> g x = true) -> filter f (filter g l) = filter f l.
Proof.
  intros H. induction l as [ | a l IH]; simpl; [reflexivity | ].
  destruct (g a) eqn:Eg; simpl.
  - rewrite IH. reflexivity.
  - destruct (f a) eqn:Ef; [rewrite (H a Ef) in Eg; discriminate | exact IH].
Qed.

Section LoaderTheorems.
Variable vec : Type.
Implicit Types (bucket : sdict (list (option vec))) (h : phoneme_table (option vec)).

Lemma data_loader_at h (layer_idx : nat) bucket (target : option (list string)) :
  table_get h layer_idx = Some bucket ->
  data_loader h layer_idx target = load_phonemes target bucket [] [].
Proof. intros H. unfold data_loader. rewrite H. reflexivity. Qed.

(** C10: with a target list, [data_loader] reads exactly the buckets whose
    fine-grained label is in the list and is not [q]: the other buckets might
    as well be absent, and the vectors of the buckets read are returned with
    the coarse label of their bucket. The variants [em], [en], [nx] and [eng]
    are not in the list of the nasals although their coarse labels are. A
    bucket labelled [q] is left out whatever the target, a missing target
    and a target that lists [q] included. *)
Theorem data_loader_tests_fine_label h (layer_idx : nat) bucket (target : list string) :
  table_get h layer_idx = Some bucket ->
  let kept := filter (fun item => negb (String.eqb (fst item) "q")
                                  && py_in (fst item) target) bucket in
  data_loader h layer_idx (Some target)
  = data_loader (table_set h layer_idx kept) layer_idx (Some target) /\
  ((forall item, In item kept -> present (snd item) <> [] ->
                 dict_get phoneme_mapping (fst item) <> None) ->
   data_loader h layer_idx (Some target)
   = Ok (flat_map (fun item => present (snd item)) kept,
         flat_map loaded_labels kept)) /\
  (forall phoneme, In phoneme nasal_variants ->
     py_in phoneme nasals = false /\
     exists coarse, phoneme_mapping_getitem phoneme = Ok coarse /\
                    py_in coarse nasals = true) /\
  (forall any_target : option (list string),
     data_loader h layer_idx any_target
     = data_loader
         (table_set h layer_idx
            (filter (fun item => negb (String.eqb (fst item) "q")) bucket))
         layer_idx any_target).
Proof.
  intros Hget kept.
  assert (Hkept : kept = selected_items (Some target) bucket) by reflexivity.
  split; [ | split; [ | split]].
  - rewrite (@data_loader_at h layer_idx bucket (Some target) Hget).
    rewrite (@data_loader_at _ layer_idx kept (Some target)
               (@table_get_set _ h layer_idx kept bucket Hget)).
    rewrite Hkept, <- load_phonemes_selected. reflexivity.
  - intros Hmapped. rewrite (@data_loader_at h layer_idx bucket (Some target) Hget).
    rewrite load_phonemes_ok; [rewrite <- Hkept; reflexivity | ].
    intros item Hin. unfold unmapped.
    destruct (selected (Some target) (fst item)) eqn:Hsel; [ | reflexivity].
    destruct (length (present (snd item)) =? 0)%nat eqn:Hlen; [reflexivity | ].
    destruct (dict_get phoneme_mapping (fst item)) eqn:Hmap; [reflexivity | exfalso].
    apply (Hmapped item); [ | | exact Hmap].
    + rewrite Hkept. apply filter_In. split; assumption.
    + intros E. rewrite E in Hlen. discriminate.
  - intros phoneme Hin. simpl in Hin.
    destruct Hin as [<- | [<- | [<- | [<- | []]]]]; (split; [reflexivity | ]);
      eexists; (split; [vm_compute; reflexivity | reflexivity]).
  - intros any_target. rewrite (@data_loader_at h layer_idx bucket any_target Hget).
    rewrite (@data_loader_at _ layer_idx _ any_target
               (@table_get_set _ h layer_idx _ bucket Hget)).
    rewrite load_phonemes_selected. symmetry. rewrite load_phonemes_selected.
    unfold selected_items. rewrite filter_filter_implied; [reflexivity | ].
    intros item Hsel. unfold selected in Hsel. apply andb_true_iff in Hsel. tauto.
Qed.


End LoaderTheorems.

(** The loader on the sample states. *)
Lemma data_loader_sample :
  data_loader sample_states 0 (Some nasals) = Ok ([2; 4], ["m"; "n"]) /\
  data_loader sample_states 0 (Some ["q"; "em"]) = Ok ([1], ["m"]) /\
  data_loader sample_states 0 None = Ok ([1; 2; 4], ["m"; "m"; "n"]) /\
  data_loader [(0, [("m", [Some 1]); ("xx", [Some 2])])] 0 None
  = Raise (KeyError_label "xx") /\
  data_loader sample_states 1 None = Raise (KeyError_layer 1).
Proof. vm_compute. repeat split; reflexivity. Qed.

(** The sample bucket against the nasals. *)
Lemma data_loader_tests_fine_label_witness :
  let kept := filter (fun item : string * list (option nat) =>
                        negb (String.eqb (fst item) "q") && py_in (fst item) nasals)
                     sample_bucket in
  data_loader sample_states 0 (Some nasals)
  = data_loader (table_set sample_states 0 kept) 0 (Some nasals) /\
  ((forall item, In item kept -> present (snd item) <> [] ->
                 dict_get phoneme_mapping (fst item) <> None) ->
   data_loader sample_states 0 (Some nasals)
   = Ok (flat_map (fun item => present (snd item)) kept,
         flat_map loaded_labels kept)) /\
  (forall phoneme, In phoneme nasal_variants ->
     py_in phoneme nasals = false /\
     exists coarse, phoneme_mapping_getitem phoneme = Ok coarse /\
                    py_in coarse nasals = true) /\
  (forall any_target : option (list string),
     data_loader sample_states 0 any_target
     = data_loader
         (table_set sample_states 0
            (filter (fun item => negb (String.eqb (fst item) "q")) sample_bucket))
         0 any_target).
Proof.
  apply (@data_loader_tests_fine_label nat sample_states 0 sample_bucket nasals).
  reflexivity.
Defined.

(** ** The probing loop *)

Section ProbingFacts.
Variables (vec model accuracy : Type).
Variable fit : list vec -> list string -> result model.
Variable predict : model -> list vec -> list string.
Variable accuracy_score : list string -> list string -> accuracy.

Implicit Types (w : world model accuracy) (train test : phoneme_table (option vec))
  (trace : list (event accuracy)).

Lemma probes_get_set (probes : list (nat * option model)) (l : nat) (m : model)
  (st : option model) :
  probes_get probes l = Some st -> probes_get (probes_set probes l m) l = Some (Some m).
Proof.
  unfold probes_get. induction probes as [ | [l' st'] probes IH]; simpl; [discriminate | ].
  destruct (Nat.eqb l' l) eqn:E; simpl; rewrite E; [reflexivity | exact IH].
Qed.

Lemma probes_set_keys (probes : list (nat * option model)) (l : nat) (m : model) :
  map fst (probes_set probes l m) = map fst probes.
Proof.
  induction probes as [ | [l' st'] probes IH]; simpl; [reflexivity | ].
  destruct (Nat.eqb l' l); simpl; [reflexivity | rewrite IH; reflexivity].
Qed.

Lemma fit_calls_app (l : nat) (t1 t2 : list (event accuracy)) :
  fit_calls l (t1 ++ t2) = fit_calls l t1 + fit_calls l t2.
Proof. unfold fit_calls. rewrite filter_app, length_app. reflexivity. Qed.

Lemma predict_calls_app (l : nat) (t1 t2 : list (event accuracy)) :
  predict_calls l (t1 ++ t2) = predict_calls l t1 + predict_calls l t2.
Proof. unfold predict_calls. rewrite filter_app, length_app. reflexivity. Qed.

Lemma probe_layer_run train test (target : list string) (layer_idx : nat) w
  (train_X0 train_X test_X0 test_X : list vec) (train_y0 train_y test_y0 test_y : list string)
  (st : option model) (m : model) :
  data_loader train layer_idx (Some target) = Ok (train_X0, train_y0) ->
  balance_classes train_X0 train_y0 = Ok (train_X, train_y) ->
  probes_get (layer_probes w) layer_idx = Some st ->
  fit train_X train_y = Ok m ->
  data_loader test layer_idx (Some target) = Ok (test_X0, test_y0) ->
  balance_classes test_X0 test_y0 = Ok (test_X, test_y) ->
  probe_layer fit predict accuracy_score train test target layer_idx w
  = ({| layer_probes := probes_set (layer_probes w) layer_idx m;
        console := console w
                   ++ iteration_trace layer_idx train_y test_y
                        (accuracy_score test_y (predict m test_X)) |},
     Ok (accuracy_score test_y (predict m test_X))).
Proof.
  intros Htr Hbtr Hget Hfit Hte Hbte.
  unfold probe_layer, mbind, lift. rewrite Htr, Hbtr.
  unfold iteration_trace, when, emit, ret, probe_fit, probe_predict.
  destruct (Nat.eqb layer_idx 0); cbn [layer_probes console];
    rewrite Hget, Hfit, Hte, Hbte; cbn [layer_probes console];
    rewrite (@probes_get_set (layer_probes w) layer_idx m st Hget); cbn [layer_probes console];
    rewrite <- !app_assoc; reflexivity.
Qed.


Lemma balance_classes_empty (X : list vec) : balance_classes X [] = Raise ValueError.
Proof. reflexivity. Qed.

Lemma fit_calls_iteration (l layer_idx : nat) (train_y test_y : list string) (a : accuracy) :
  fit_calls l (iteration_trace layer_idx train_y test_y a)
  = (if Nat.eqb layer_idx l then 1 else 0) /\
  predict_calls l (iteration_trace layer_idx train_y test_y a)
  = (if Nat.eqb layer_idx l then 1 else 0).
Proof.
  unfold iteration_trace, fit_calls, predict_calls.
  destruct (Nat.eqb layer_idx 0); simpl; destruct (Nat.eqb layer_idx l); split; reflexivity.
Qed.

(** Replays in [Hrun] the steps whose outcome is known. *)
Ltac replay_steps Hrun :=
  repeat match goal with
         | E : _ = Ok _ |- _ => rewrite E in Hrun
         | E : _ = Raise _ |- _ => rewrite E in Hrun
         | E : _ = Some _ |- _ => rewrite E in Hrun
         | E : _ = None |- _ => rewrite E in Hrun
         end.

(** Closes a goal where the iteration [Hrun] is known to have completed
    although one of its steps raised. *)
Ltac iteration_stopped Hrun layer_idx :=
  unfold probe_layer, mbind, lift, when, emit, ret, probe_fit in Hrun;
  replay_steps Hrun;
  try discriminate;
  destruct (Nat.eqb layer_idx 0);
  cbn [layer_probes console] in Hrun;
  replay_steps Hrun;
  discriminate.

(** An iteration that completes went through every step, and its accuracy
    is that of the data of its layer and category group. *)
Lemma probe_layer_inv train test (target : list string) (layer_idx : nat) w w'
  (a : accuracy) :
  probe_layer fit predict accuracy_score train test target layer_idx w = (w', Ok a) ->
  probe_accuracy fit predict accuracy_score train test target layer_idx = Ok a /\
  map fst (layer_probes w') = map fst (layer_probes w) /\
  forall l,
    fit_calls l (console w')
    = fit_calls l (console w) + (if Nat.eqb layer_idx l then 1 else 0) /\
    predict_calls l (console w')
    = predict_calls l (console w) + (if Nat.eqb layer_idx l then 1 else 0).
Proof.
  intros Hrun.
  destruct (data_loader train layer_idx (Some target)) as [[train_X0 train_y0] | e] eqn:Htr;
    [ | iteration_stopped Hrun layer_idx].
  destruct (balance_classes train_X0 train_y0) as [[train_X train_y] | e] eqn:Hbtr;
    [ | iteration_stopped Hrun layer_idx].
  destruct (probes_get (layer_probes w) layer_idx) as [st | ] eqn:Hget;
    [ | iteration_stopped Hrun layer_idx].
  destruct (fit train_X train_y) as [m | e] eqn:Hfit;
    [ | iteration_stopped Hrun layer_idx].
  destruct (data_loader test layer_idx (Some target)) as [[test_X0 test_y0] | e] eqn:Hte;
    [ | iteration_stopped Hrun layer_idx].
  destruct (balance_classes test_X0 test_y0) as [[test_X test_y] | e] eqn:Hbte;
    [ | iteration_stopped Hrun layer_idx].
  rewrite (@probe_layer_run train test target layer_idx w _ _ _ _ _ _ _ _ st m
             Htr Hbtr Hget Hfit Hte Hbte) in Hrun.
  injection Hrun as <- <-. cbn [layer_probes console].
  split; [ | split].
  - unfold probe_accuracy. rewrite Htr. cbn [bind]. rewrite Hbtr. cbn [bind].
    rewrite Hfit. cbn [bind]. rewrite Hte. cbn [bind]. rewrite Hbte. reflexivity.
  - apply probes_set_keys.
  - intros l. rewrite fit_calls_app, predict_calls_app.
    destruct (fit_calls_iteration l layer_idx train_y test_y
                (accuracy_score test_y (predict m test_X))) as [-> ->].
    split; reflexivity.
Qed.

Lemma probe_layers_inv train test (target : list string) (layers : list nat) :
  forall (accs : list accuracy) w w' (accs' : list accuracy),
  probe_layers fit predict accuracy_score train test target layers accs w = (w', Ok accs') ->
  exists new,
    accs' = accs ++ new /\
    Forall2 (fun l a => probe_accuracy fit predict accuracy_score train test target l = Ok a)
            layers new /\
    map fst (layer_probes w') = map fst (layer_probes w) /\
    forall l,
      fit_calls l (console w') = fit_calls l (console w) + count_occ Nat.eq_dec layers l /\
      predict_calls l (console w')
      = predict_calls l (console w) + count_occ Nat.eq_dec layers l.
Proof.
  induction layers as [ | layer_idx layers IH]; intros accs w w' accs' Hrun.
  - injection Hrun as <- <-. exists []. rewrite app_nil_r.
    repeat split; try constructor; simpl; lia.
  - cbn [probe_layers] in Hrun. unfold mbind in Hrun.
    destruct (probe_layer fit predict accuracy_score train test target layer_idx w)
      as [w1 [a | e]] eqn:Hstep; [ | discriminate].
    destruct (probe_layer_inv _ _ _ _ _ Hstep) as (Hacc & Hkeys & Hcalls).
    destruct (IH _ _ _ _ Hrun) as (new & -> & Hall & Hkeys' & Hcalls').
    exists (a :: new). rewrite <- app_assoc. split; [reflexivity | ].
    split; [constructor; assumption | ].
    split; [congruence | ].
    intros l. destruct (Hcalls l) as [Hf Hp]. destruct (Hcalls' l) as [Hf' Hp'].
    rewrite Hf', Hp', Hf, Hp. simpl count_occ.
    destruct (Nat.eq_dec layer_idx l) as [-> | Hne].
    + rewrite Nat.eqb_refl. lia.
    + destruct (Nat.eqb_spec layer_idx l); [congruence | lia].
Qed.

Lemma probe_categories_inv train test (num_layers : nat) (categories : sdict (list string)) :
  forall (accs_per_category : list (list accuracy)) w w' (result : list (list accuracy)),
  probe_categories fit predict accuracy_score train test num_layers categories
                   accs_per_category w = (w', Ok result) ->
  exists new,
    result = accs_per_category ++ new /\
    Forall2 (fun category accs =>
               Forall2 (fun l a => probe_accuracy fit predict accuracy_score train test
                                                  (snd category) l = Ok a)
                       (seq 0 num_layers) accs)
            categories new /\
    map fst (layer_probes w') = map fst (layer_probes w) /\
    forall l,
      fit_calls l (console w')
      = fit_calls l (console w)
        + length categories * count_occ Nat.eq_dec (seq 0 num_layers) l /\
      predict_calls l (console w')
      = predict_calls l (console w)
        + length categories * count_occ Nat.eq_dec (seq 0 num_layers) l.
Proof.
  induction categories as [ | [category target] categories IH];
    intros accs_per_category w w' result Hrun.
  - injection Hrun as <- <-. exists []. rewrite app_nil_r.
    repeat split; try constructor; simpl; lia.
  - cbn [probe_categories] in Hrun. unfold mbind at 1 2 in Hrun.
    unfold emit in Hrun.
    set (w0 := {| layer_probes := layer_probes w;
                  console := console w ++ [PrintTraining accuracy category] |}) in *.
    destruct (probe_layers fit predict accuracy_score train test target
                (seq 0 num_layers) [] w0) as [w1 [accs | e]] eqn:Hlayers; [ | discriminate].
    apply probe_layers_inv in Hlayers. destruct Hlayers as (new1 & -> & Hall1 & Hkeys1 & Hcalls1).
    destruct (IH _ _ _ _ Hrun) as (new & -> & Hall & Hkeys & Hcalls).
    exists (new1 :: new). rewrite <- app_assoc. split; [reflexivity | ].
    split; [constructor; assumption | ].
    split; [rewrite Hkeys, Hkeys1; reflexivity | ].
    intros l. destruct (Hcalls l) as [Hf Hp]. destruct (Hcalls1 l) as [Hf1 Hp1].
    rewrite Hf, Hp, Hf1, Hp1. unfold w0. cbn [console length].
    rewrite fit_calls_app, predict_calls_app. cbn. lia.
Qed.

Lemma count_occ_seq (n l : nat) : l < n -> count_occ Nat.eq_dec (seq 0 n) l = 1.
Proof.
  intros Hl.
  assert (H : forall start len, count_occ Nat.eq_dec (seq start len) l
                                = if ((start <=? l) && (l <? start + len))%nat then 1 else 0).
  { intros start len. revert start. induction len as [ | len IH]; intros start; simpl.
    - destruct (Nat.leb_spec start l), (Nat.ltb_spec l (start + 0)); simpl; lia.
    - rewrite IH. destruct (Nat.eq_dec start l) as [-> | Hne].
      + destruct (Nat.leb_spec (S l) l), (Nat.leb_spec l l), (Nat.ltb_spec l (l + S len));
          simpl; lia.
      + destruct (Nat.leb_spec (S start) l), (Nat.leb_spec start l),
          (Nat.ltb_spec l (S start + len)), (Nat.ltb_spec l (start + S len)); simpl; lia. }
  rewrite H. destruct (Nat.leb_spec 0 l), (Nat.ltb_spec l (0 + n)); simpl; lia.
Qed.

Lemma probes_get_set_other (probes : list (nat * option model)) (l l' : nat) (m : model) :
  l' <> l -> probes_get (probes_set probes l m) l' = probes_get probes l'.
Proof.
  intros Hne. unfold probes_get.
  induction probes as [ | [k st] probes IH]; [reflexivity | ].
  cbn [probes_set]. destruct (Nat.eqb_spec k l) as [-> | Hk].
  - cbn [find fst]. destruct (Nat.eqb_spec l l'); [congruence | reflexivity].
  - cbn [find fst]. destruct (Nat.eqb k l'); [reflexivity | exact IH].
Qed.

Lemma probes_get_In (probes : list (nat * option model)) (l : nat) :
  In l (map fst probes) -> exists st, probes_get probes l = Some st.
Proof.
  unfold probes_get. induction probes as [ | [k st] probes IH]; [intros [] | ].
  cbn [map fst find]. destruct (Nat.eqb_spec k l) as [-> | Hk].
  - intros _. exists st. reflexivity.
  - intros [E | Hin]; [congruence | exact (IH Hin)].
Qed.

(** An iteration that completes fitted the probe of its layer on the
    training data of its layer and category group, stored the classifier in
    that probe and touched no other. *)
Lemma probe_layer_state train test (target : list string) (layer_idx : nat) w w'
  (a : accuracy) :
  probe_layer fit predict accuracy_score train test target layer_idx w = (w', Ok a) ->
  exists m (st : option model),
    probe_model fit train target layer_idx = Ok m /\
    probes_get (layer_probes w) layer_idx = Some st /\
    layer_probes w' = probes_set (layer_probes w) layer_idx m.
Proof.
  intros Hrun.
  destruct (data_loader train layer_idx (Some target)) as [[train_X0 train_y0] | e] eqn:Htr;
    [ | iteration_stopped Hrun layer_idx].
  destruct (balance_classes train_X0 train_y0) as [[train_X train_y] | e] eqn:Hbtr;
    [ | iteration_stopped Hrun layer_idx].
  destruct (probes_get (layer_probes w) layer_idx) as [st | ] eqn:Hget;
    [ | iteration_stopped Hrun layer_idx].
  destruct (fit train_X train_y) as [m | e] eqn:Hfit;
    [ | iteration_stopped Hrun layer_idx].
  destruct (data_loader test layer_idx (Some target)) as [[test_X0 test_y0] | e] eqn:Hte;
    [ | iteration_stopped Hrun layer_idx].
  destruct (balance_classes test_X0 test_y0) as [[test_X test_y] | e] eqn:Hbte;
    [ | iteration_stopped Hrun layer_idx].
  rewrite (@probe_layer_run train test target layer_idx w _ _ _ _ _ _ _ _ st m
             Htr Hbtr Hget Hfit Hte Hbte) in Hrun.
  injection Hrun as <- _. cbn [layer_probes].
  exists m, st. split; [ | split; reflexivity].
  unfold probe_model. rewrite Htr. cbn [bind]. rewrite Hbtr. cbn [bind]. exact Hfit.
Qed.

(** Conversely, the iteration completes, with the accuracy of the data of
    its layer and category group, whatever the probe of the layer had learned
    before. *)
Lemma probe_layer_complete train test (target : list string) (layer_idx : nat) w
  (a : accuracy) (st : option model) :
  probe_accuracy fit predict accuracy_score train test target layer_idx = Ok a ->
  probes_get (layer_probes w) layer_idx = Some st ->
  exists w',
    probe_layer fit predict accuracy_score train test target layer_idx w = (w', Ok a) /\
    map fst (layer_probes w') = map fst (layer_probes w).
Proof.
  unfold probe_accuracy. intros Hacc Hget.
  destruct (data_loader train layer_idx (Some target)) as [[train_X0 train_y0] | e] eqn:Htr;
    [ | discriminate].
  cbn [bind] in Hacc.
  destruct (balance_classes train_X0 train_y0) as [[train_X train_y] | e] eqn:Hbtr;
    [ | discriminate].
  cbn [bind] in Hacc.
  destruct (fit train_X train_y) as [m | e] eqn:Hfit; [ | discriminate].
  cbn [bind] in Hacc.
  destruct (data_loader test layer_idx (Some target)) as [[test_X0 test_y0] | e] eqn:Hte;
    [ | discriminate].
  cbn [bind] in Hacc.
  destruct (balance_classes test_X0 test_y0) as [[test_X test_y] | e] eqn:Hbte;
    [ | discriminate].
  cbn [bind] in Hacc. injection Hacc as <-.
  eexists. split.
  - exact (@probe_layer_run train test target layer_idx w _ _ _ _ _ _ _ _ st m
             Htr Hbtr Hget Hfit Hte Hbte).
  - cbn [layer_probes]. apply probes_set_keys.
Qed.

End ProbingFacts.

Section LoaderLengths.
Variable vec : Type.

Lemma load_states_lengths (phoneme : string) (target : option (list string))
  (hs : list (option vec)) :
  forall (X X' : list vec) (y y' : list string),
  length X = length y ->
  load_states phoneme target hs X y = Ok (X', y') -> length X' = length y'.
Proof.
  induction hs as [ | [v | ] hs IH]; intros X X' y y' Hlen; simpl.
  - intros [= <- <-]. exact Hlen.
  - assert (Hpush : forall coarse, length (X ++ [v]) = length (y ++ [coarse])).
    { intros coarse. rewrite !length_app. simpl. lia. }
    destruct (negb (String.eqb phoneme "q")); [ | apply IH; exact Hlen].
    destruct target as [t | ]; [destruct (py_in phoneme t); [ | apply IH; exact Hlen] | ];
      (destruct (phoneme_mapping_getitem phoneme) as [coarse | e]; cbn [bind];
       [apply IH; apply Hpush | discriminate]).
  - apply IH. exact Hlen.
Qed.

Lemma load_phonemes_lengths (target : option (list string))
  (bucket : sdict (list (option vec))) :
  forall (X X' : list vec) (y y' : list string),
  length X = length y ->
  load_phonemes target bucket X y = Ok (X', y') -> length X' = length y'.
Proof.
  induction bucket as [ | [phoneme hs] bucket IH]; intros X X' y y' Hlen; simpl.
  - intros [= <- <-]. exact Hlen.
  - destruct (load_states phoneme target hs X y) as [[X1 y1] | e] eqn:E; [ | discriminate].
    cbn [bind]. apply IH. exact (load_states_lengths _ _ _ _ _ Hlen E).
Qed.

(** The loader returns as many labels as vectors. *)
Lemma data_loader_lengths (h : phoneme_table (option vec)) (layer_idx : nat)
  (target : option (list string)) (X : list vec) (y : list string) :
  data_loader h layer_idx target = Ok (X, y) -> length X = length y.
Proof.
  unfold data_loader. destruct (table_get h layer_idx); [ | discriminate].
  apply load_phonemes_lengths. reflexivity.
Qed.

(** A dataset with a single class is already balanced. *)
Lemma balance_single_class (X : list vec) (y : list string) (c : string) :
  length X = length y -> first_occurrences y = [c] ->
  balance_classes X y = Ok (X, y).
Proof.
  intros Hlen Hc.
  assert (Hne : y <> []) by (intros ->; discriminate).
  assert (Hall : forall l, In l y -> l = c).
  { intros l Hl. apply first_occurrences_In in Hl. rewrite Hc in Hl.
    destruct Hl as [<- | []]. reflexivity. }
  destruct (balance_classes_spec X Hlen Hne) as (m & Hmin & _ & ->).
  pose proof (@map_snd_combine vec X y Hlen) as Hy.
  pose proof (@map_fst_combine vec X y Hlen) as HX.
  assert (Hpairs : class_pairs c (combine X y) = combine X y).
  { apply filter_all. intros p Hp. apply String.eqb_eq. apply Hall.
    rewrite <- Hy. apply in_map. exact Hp. }
  assert (Hm : m = length (combine X y)).
  { destruct Hmin as [(l & Hl & <-) _]. rewrite (Hall l Hl).
    rewrite <- Hy at 1. rewrite <- class_pairs_length, Hpairs. reflexivity. }
  unfold balanced_pairs. rewrite Hy, Hc. simpl flat_map.
  rewrite app_nil_r, Hpairs, Hm, firstn_all, HX, Hy. reflexivity.
Qed.

End LoaderLengths.

Section ProbingProperties.
Variables (vec model accuracy : Type).
Variable fit : list vec -> list string -> result model.
Variable predict : model -> list vec -> list string.
Variable accuracy_score : list string -> list string -> accuracy.
Implicit Types (w : world model accuracy) (train test : phoneme_table (option vec)).

(** C6, amended: the loop has no test on the number of classes. When the
    data selected for the training or the test split is empty,
    [balance_classes] raises [ValueError] and the iteration stops there; when
    the test data has exactly one class, the iteration runs to its end: the
    accuracy of the predictions on that single class is computed, printed
    like any other and appended to [accs]. *)
Theorem degenerate_dataset_not_checked train test (target : list string)
  (layer_idx : nat) w (st : option model) :
  probes_get (layer_probes w) layer_idx = Some st ->
  (forall X,
     data_loader train layer_idx (Some target) = Ok (X, []) ->
     probe_layer fit predict accuracy_score train test target layer_idx w
     = (w, Raise ValueError)) /\
  (forall train_X0 train_y0 train_X train_y m X,
     data_loader train layer_idx (Some target) = Ok (train_X0, train_y0) ->
     balance_classes train_X0 train_y0 = Ok (train_X, train_y) ->
     fit train_X train_y = Ok m ->
     data_loader test layer_idx (Some target) = Ok (X, []) ->
     snd (probe_layer fit predict accuracy_score train test target layer_idx w)
     = Raise ValueError) /\
  (forall train_X0 train_y0 train_X train_y m test_X test_y c accs,
     data_loader train layer_idx (Some target) = Ok (train_X0, train_y0) ->
     balance_classes train_X0 train_y0 = Ok (train_X, train_y) ->
     fit train_X train_y = Ok m ->
     data_loader test layer_idx (Some target) = Ok (test_X, test_y) ->
     first_occurrences test_y = [c] ->
     let test_acc := accuracy_score test_y (predict m test_X) in
     let w' := {| layer_probes := probes_set (layer_probes w) layer_idx m;
                  console := console w
                             ++ iteration_trace layer_idx train_y test_y test_acc |} in
     probe_layer fit predict accuracy_score train test target layer_idx w
     = (w', Ok test_acc) /\
     probe_layers fit predict accuracy_score train test target [layer_idx] accs w
     = (w', Ok (accs ++ [test_acc]))).
Proof.
  intros Hget. split; [ | split].
  - intros X Htr. unfold probe_layer, mbind, lift. rewrite Htr.
    rewrite balance_classes_empty. reflexivity.
  - intros train_X0 train_y0 train_X train_y m X Htr Hbtr Hfit Hte.
    unfold probe_layer, mbind, lift, when, emit, ret, probe_fit.
    rewrite Htr, Hbtr.
    destruct (Nat.eqb layer_idx 0); cbn [layer_probes console];
      rewrite Hget, Hfit, Hte, balance_classes_empty; reflexivity.
  - intros train_X0 train_y0 train_X train_y m test_X test_y c accs
           Htr Hbtr Hfit Hte Hc test_acc w'.
    assert (Hbte : balance_classes test_X test_y = Ok (test_X, test_y)).
    { apply balance_single_class with (c := c); [ | exact Hc].
      exact (data_loader_lengths _ _ _ Hte). }
    assert (Hrun : probe_layer fit predict accuracy_score train test target layer_idx w
                   = (w', Ok test_acc)).
    { exact (@probe_layer_run vec model accuracy fit predict accuracy_score train test
               target layer_idx w _ _ _ _ _ _ _ _ st m Htr Hbtr Hget Hfit Hte Hbte). }
    split; [exact Hrun | ].
    cbn [probe_layers]. unfold mbind. rewrite Hrun. reflexivity.
Qed.

End ProbingProperties.

Section ProbingRuns.
Variables (vec model accuracy : Type).
Variable fit : list vec -> list string -> result model.
Variable predict : model -> list vec -> list string.
Variable accuracy_score : list string -> list string -> accuracy.
Implicit Types (w : world model accuracy) (train test : phoneme_table (option vec)).

(** After the loop over distinct layers every probe it visited holds the
    classifier fitted on the data of its own layer, and the other probes are
    as they were. *)
Lemma probe_layers_state train test (target : list string) (layers : list nat) :
  NoDup layers ->
  forall (accs : list accuracy) w w' (accs' : list accuracy),
  probe_layers fit predict accuracy_score train test target layers accs w = (w', Ok accs') ->
  (forall l, In l layers ->
     exists m, probe_model fit train target l = Ok m /\
               probes_get (layer_probes w') l = Some (Some m)) /\
  (forall l, ~ In l layers -> probes_get (layer_probes w') l = probes_get (layer_probes w) l).
Proof.
  induction 1 as [ | layer_idx layers Hnotin _ IH]; intros accs w w' accs' Hrun.
  - injection Hrun as <- _. split; [intros l [] | reflexivity].
  - cbn [probe_layers] in Hrun. unfold mbind in Hrun.
    destruct (probe_layer fit predict accuracy_score train test target layer_idx w)
      as [w1 [a | e]] eqn:Hstep; [ | discriminate].
    pose proof Hstep as Hstate. apply probe_layer_state in Hstate.
    destruct Hstate as (m & st & Hm & Hget & Hw1).
    destruct (IH _ _ _ _ Hrun) as [Hin Hout]. split.
    + intros l [<- | Hl]; [ | exact (Hin l Hl)].
      exists m. split; [exact Hm | ].
      rewrite (Hout layer_idx Hnotin), Hw1.
      exact (@probes_get_set model (layer_probes w) layer_idx m st Hget).
    + intros l Hl. rewrite Hout by (intros Hin'; apply Hl; right; exact Hin').
      rewrite Hw1. apply probes_get_set_other. intros ->. apply Hl. left. reflexivity.
Qed.

(** The loop over the layers completes with the accuracies of the data,
    whatever the probes had learned before. *)
Lemma probe_layers_complete train test (target : list string) (layers : list nat)
  (new : list accuracy) :
  Forall2 (fun l a => probe_accuracy fit predict accuracy_score train test target l = Ok a)
          layers new ->
  forall (accs : list accuracy) w,
  (forall l, In l layers -> In l (map fst (layer_probes w))) ->
  exists w', probe_layers fit predict accuracy_score train test target layers accs w
             = (w', Ok (accs ++ new)).
Proof.
  induction 1 as [ | layer_idx a layers new Hacc _ IH]; intros accs w Hkeys.
  - exists w. cbn [probe_layers]. rewrite app_nil_r. reflexivity.
  - destruct (@probes_get_In model (layer_probes w) layer_idx
                (Hkeys layer_idx (or_introl eq_refl))) as [st Hget].
    destruct (@probe_layer_complete vec model accuracy fit predict accuracy_score
                train test target layer_idx w a st Hacc Hget) as (w1 & Hstep & Hk1).
    destruct (IH (accs ++ [a]) w1) as (w' & Hrest).
    { intros l Hl. rewrite Hk1. apply Hkeys. right. exact Hl. }
    exists w'. cbn [probe_layers]. unfold mbind. rewrite Hstep, Hrest, <- app_assoc.
    reflexivity.
Qed.

(** A probing run: the pass of one category group over the layers. It
    completes, with the same accuracies, from any state of the probes. *)
Lemma probing_pass_complete train test (num_layers : nat) (category : string)
  (target : list string) (accs : list accuracy) w :
  Forall2 (fun l a => probe_accuracy fit predict accuracy_score train test target l = Ok a)
          (seq 0 num_layers) accs ->
  map fst (layer_probes w) = seq 0 num_layers ->
  snd (probe_categories fit predict accuracy_score train test num_layers
                        [(category, target)] [] w)
  = Ok [accs].
Proof.
  intros Hall Hkeys. cbn [probe_categories]. unfold mbind at 1 2. unfold emit.
  destruct (@probe_layers_complete train test target (seq 0 num_layers) accs Hall []
              {| layer_probes := layer_probes w;
                 console := console w ++ [PrintTraining accuracy category] |})
    as (w' & Hrun).
  { intros l Hl. cbn [layer_probes]. rewrite Hkeys. exact Hl. }
  rewrite Hrun. reflexivity.
Qed.

(** C8: a probing run is the pass of one category group over the layers.
    There is one classifier instance per layer index; in a run that completes
    the instance of every layer is fitted exactly once and asked to predict
    exactly once, and afterwards holds the classifier fitted on the training
    data of its own layer and of the group; the accuracy recorded for a layer
    is that of a classifier fitted and evaluated on the data of that layer
    and group alone; the run gives the same accuracies whatever the instances
    had learned before; and in the loop over several groups every group gets
    the accuracies of a run of that group alone on fresh instances. *)
Theorem probe_fitted_once_per_run train test (num_layers : nat) (category : string)
  (target : list string) w w' (result : list (list accuracy)) :
  map fst (layer_probes w) = seq 0 num_layers ->
  probe_categories fit predict accuracy_score train test num_layers
                   [(category, target)] [] w = (w', Ok result) ->
  map fst (layer_probes w') = seq 0 num_layers /\
  (forall l, l < num_layers ->
     fit_calls l (console w') = fit_calls l (console w) + 1 /\
     predict_calls l (console w') = predict_calls l (console w) + 1 /\
     exists m, probe_model fit train target l = Ok m /\
               probes_get (layer_probes w') l = Some (Some m)) /\
  (exists accs,
     result = [accs] /\
     Forall2 (fun l a => probe_accuracy fit predict accuracy_score train test target l
                         = Ok a)
             (seq 0 num_layers) accs) /\
  (forall w2, map fst (layer_probes w2) = seq 0 num_layers ->
     snd (probe_categories fit predict accuracy_score train test num_layers
                           [(category, target)] [] w2)
     = Ok result) /\
  (forall (categories : sdict (list string)) w_all (all : list (list accuracy)),
     probing_run fit predict accuracy_score train test num_layers categories
     = (w_all, Ok all) ->
     Forall2 (fun group accs =>
                snd (probing_run fit predict accuracy_score train test num_layers [group])
                = Ok [accs])
             categories all).
Proof.
  intros Hkeys Hrun.
  pose proof Hrun as Hinv. apply probe_categories_inv in Hinv.
  destruct Hinv as (new & Hnew & Hall & Hkeys' & Hcalls).
  cbn [app] in Hnew. subst new.
  inversion Hall as [ | group accs groups rest Haccs Hrest]; subst.
  inversion Hrest; subst. cbn [snd] in Haccs.
  split; [rewrite Hkeys'; exact Hkeys | ].
  split; [ | split; [ | split]].
  - intros l Hl. destruct (Hcalls l) as [Hf Hp].
    rewrite Hf, Hp, (count_occ_seq Hl). cbn [length].
    split; [lia | ]. split; [lia | ].
    cbn [probe_categories] in Hrun. unfold mbind at 1 2 in Hrun. unfold emit in Hrun.
    destruct (probe_layers fit predict accuracy_score train test target (seq 0 num_layers) []
                {| layer_probes := layer_probes w;
                   console := console w ++ [PrintTraining accuracy category] |})
      as [w1 [accs1 | e]] eqn:Hlayers; [ | discriminate].
    cbn [probe_categories] in Hrun. unfold ret in Hrun. injection Hrun as <- _.
    apply (@probe_layers_state train test target (seq 0 num_layers)
             (seq_NoDup num_layers 0)) in Hlayers.
    destruct Hlayers as [Hin _].
    apply Hin. apply in_seq. lia.
  - exists accs. split; [reflexivity | exact Haccs].
  - intros w2 Hkeys2.
    exact (@probing_pass_complete train test num_layers category target accs w2
             Haccs Hkeys2).
  - intros categories w_all all Hloop. unfold probing_run in Hloop.
    apply probe_categories_inv in Hloop.
    destruct Hloop as (new & Hnew & Hgroups & _ & _).
    cbn [app] in Hnew. subst new.
    clear - Hgroups. induction Hgroups as [ | [c t] a cs rest Ha _ IH]; constructor.
    + cbn [snd] in Ha. unfold probing_run.
      apply (@probing_pass_complete train test num_layers c t a _ Ha).
      cbn [layer_probes]. unfold new_layer_probes. rewrite map_map. cbn [fst].
      apply map_id.
    + exact IH.
Qed.

End ProbingRuns.

(** The test data of the nasals has one class, and the run records an
    accuracy of 2 out of 2 for both layers; the console holds the usual
    lines and nothing else. *)
Lemma single_class_accuracy_recorded :
  data_loader one_class_test 0 (Some nasals) = Ok ([5; 6], ["m"; "m"]) /\
  data_loader one_class_test 1 (Some nasals) = Ok ([15; 16], ["m"; "m"]) /\
  single_class_run
  = ({| layer_probes := [(0, Some "m"); (1, Some "m")];
        console := [ PrintTraining (nat * nat) "nasals";
                     PrintTrainDistribution (nat * nat) [("m", 1); ("n", 1)];
                     CallFit (nat * nat) 0;
                     PrintTestDistribution (nat * nat) [("m", 2)];
                     CallPredict (nat * nat) 0;
                     PrintAccuracy 0 (2, 2);
                     CallFit (nat * nat) 1;
                     CallPredict (nat * nat) 1;
                     PrintAccuracy 1 (2, 2) ] |},
     Ok [[(2, 2); (2, 2)]]).
Proof. vm_compute. repeat split; reflexivity. Qed.

(** Layer 1 of the run whose test data has one class. *)
Lemma degenerate_dataset_not_checked_witness :
  (forall X,
     data_loader two_class_train 1 (Some nasals) = Ok (X, []) ->
     probe_layer sample_fit sample_predict sample_accuracy_score
                 two_class_train one_class_test nasals 1 (fresh_world 2)
     = (fresh_world 2, Raise ValueError)) /\
  (forall train_X0 train_y0 train_X train_y m X,
     data_loader two_class_train 1 (Some nasals) = Ok (train_X0, train_y0) ->
     balance_classes train_X0 train_y0 = Ok (train_X, train_y) ->
     sample_fit train_X train_y = Ok m ->
     data_loader one_class_test 1 (Some nasals) = Ok (X, []) ->
     snd (probe_layer sample_fit sample_predict sample_accuracy_score
                      two_class_train one_class_test nasals 1 (fresh_world 2))
     = Raise ValueError) /\
  (forall train_X0 train_y0 train_X train_y m test_X test_y c accs,
     data_loader two_class_train 1 (Some nasals) = Ok (train_X0, train_y0) ->
     balance_classes train_X0 train_y0 = Ok (train_X, train_y) ->
     sample_fit train_X train_y = Ok m ->
     data_loader one_class_test 1 (Some nasals) = Ok (test_X, test_y) ->
     first_occurrences test_y = [c] ->
     let test_acc := sample_accuracy_score test_y (sample_predict m test_X) in
     let w' := {| layer_probes := probes_set (layer_probes (fresh_world 2)) 1 m;
                  console := console (fresh_world 2)
                             ++ iteration_trace 1 train_y test_y test_acc |} in
     probe_layer sample_fit sample_predict sample_accuracy_score
                 two_class_train one_class_test nasals 1 (fresh_world 2)
     = (w', Ok test_acc) /\
     probe_layers sample_fit sample_predict sample_accuracy_score
                  two_class_train one_class_test nasals [1] accs (fresh_world 2)
     = (w', Ok (accs ++ [test_acc]))).
Proof.
  apply (@degenerate_dataset_not_checked nat string (nat * nat)
           sample_fit sample_predict sample_accuracy_score
           two_class_train one_class_test nasals 1 (fresh_world 2) None).
  reflexivity.
Defined.

(** The loop over the five category groups makes five runs: the classifier
    of layer 0 is fitted five times and asked to predict five times, once in
    every run. *)
Lemma probe_fitted_for_every_category :
  snd full_run = Ok [[(1, 6)]; [(1, 7)]; [(1, 3)]; [(1, 4)]; [(1, 5)]] /\
  map fst (layer_probes (fst full_run)) = [0] /\
  fit_calls 0 (console (fst full_run)) = 5 /\
  predict_calls 0 (console (fst full_run)) = 5.
Proof. vm_compute. repeat split; reflexivity. Qed.

(** The run of the nasals on two layers, from fresh classifiers. *)
Lemma probe_fitted_once_per_run_witness :
  map fst (layer_probes (fst single_class_run)) = seq 0 2 /\
  (forall l, l < 2 ->
     fit_calls l (console (fst single_class_run))
     = fit_calls l (console (fresh_world 2)) + 1 /\
     predict_calls l (console (fst single_class_run))
     = predict_calls l (console (fresh_world 2)) + 1 /\
     exists m, probe_model sample_fit two_class_train nasals l = Ok m /\
               probes_get (layer_probes (fst single_class_run)) l = Some (Some m)) /\
  (exists accs,
     [[(2, 2); (2, 2)]] = [accs] /\
     Forall2 (fun l a => probe_accuracy sample_fit sample_predict sample_accuracy_score
                                        two_class_train one_class_test nasals l
                         = Ok a)
             (seq 0 2) accs) /\
  (forall w2, map fst (layer_probes w2) = seq 0 2 ->
     snd (probe_categories sample_fit sample_predict sample_accuracy_score
                           two_class_train one_class_test 2 [("nasals", nasals)] [] w2)
     = Ok [[(2, 2); (2, 2)]]) /\
  (forall (categories : sdict (list string)) w_all (all : list (list (nat * nat))),
     probing_run sample_fit sample_predict sample_accuracy_score
                 two_class_train one_class_test 2 categories
     = (w_all, Ok all) ->
     Forall2 (fun group accs =>
                snd (probing_run sample_fit sample_predict sample_accuracy_score
                                 two_class_train one_class_test 2 [group])
                = Ok [accs])
             categories all).
Proof.
  apply (@probe_fitted_once_per_run nat string (nat * nat)
           sample_fit sample_predict sample_accuracy_score
           two_class_train one_class_test 2 "nasals" nasals
           (fresh_world 2) (fst single_class_run) [[(2, 2); (2, 2)]]).
  - reflexivity.
  - vm_compute. reflexivity.
Defined.

(** The same run after the classifiers were fitted on other data gives the
    same accuracies. *)
Lemma run_after_another_fit :
  snd (probe_categories sample_fit sample_predict sample_accuracy_score
                        two_class_train one_class_test 2 [("nasals", nasals)] []
                        {| layer_probes := [(0, Some "n"); (1, None)]; console := [] |})
  = snd single_class_run.
Proof. vm_compute. reflexivity. Qed.

(** ** The aligner as a whole *)

Lemma collect_indices_keys (segs : list (Z * Z * string)) :
  forall pi pi' : sdict (list Z),
  collect_indices segs pi = Ok pi' ->
  forall p, In p (dict_keys pi') <-> In p (dict_keys pi) \/ In p (map segment_label segs).
Proof.
  induction segs as [ | [[start stop] phoneme] segs IH]; intros pi pi' Hrun p.
  - injection Hrun as <-. simpl. tauto.
  - simpl in Hrun. destruct (segment_indices start stop) as [idxs | e]; [ | discriminate].
    cbn [bind] in Hrun. rewrite (IH _ _ Hrun p), dict_keys_extend.
    simpl. unfold segment_label at 1. simpl. intuition congruence.
Qed.

Section AlignerWhole.
Variable vec : Type.
Implicit Types (table : phoneme_table vec) (bucket : sdict (list vec)).

Lemma store_bucket_keys (waveform : list vec) (pis : sdict (list Z)) :
  forall bucket,
  (forall p, In p (dict_keys (store_bucket waveform pis bucket))
             <-> In p (dict_keys bucket) \/ In p (dict_keys pis)) /\
  (NoDup (dict_keys bucket) -> NoDup (dict_keys (store_bucket waveform pis bucket))).
Proof.
  unfold store_bucket.
  induction pis as [ | [phoneme indeces] pis IH]; intros bucket; simpl fold_left.
  - split; [intros p; simpl; tauto | auto].
  - destruct (IH (dd_extend bucket phoneme (frames_of waveform indeces))) as [Hkeys Hnd].
    split.
    + intros p. rewrite Hkeys, dict_keys_extend. simpl. intuition congruence.
    + intros H. apply Hnd. apply dict_keys_extend_NoDup. exact H.
Qed.

(** One waveform: nothing raises, the bucket of the layer gets the frames
    and the labels of the utterance, and its keys stay distinct. *)
Lemma sort_waveform_full (data : list phonetic_detail) (layer_idx waveform_idx : nat)
  (waveform : list vec) table bucket :
  well_formed_waveform data (waveform_idx, waveform) ->
  table_get table layer_idx = Some bucket ->
  exists bucket',
    sort_waveform data layer_idx waveform_idx waveform table
    = Ok (table_set table layer_idx bucket') /\
    (forall p, dd_get bucket' p
               = dd_get bucket p ++ waveform_frames data p (waveform_idx, waveform)) /\
    (forall p, In p (dict_keys bucket')
               <-> In p (dict_keys bucket)
                   \/ In p (waveform_labels data (waveform_idx, waveform))) /\
    (NoDup (dict_keys bucket) -> NoDup (dict_keys bucket')).
Proof.
  intros (phonemes & Hdata & Hvalid) Hget. simpl in Hdata.
  destruct (collect_indices_spec Hvalid []) as (pis & Hrun & Hpis & Hnd).
  specialize (Hnd (NoDup_nil _)).
  assert (Hnonneg : Forall (fun item => Forall (fun idx => (0 <= idx)%Z) (snd item)) pis).
  { apply dd_get_Forall; [ | exact Hnd].
    intros p. rewrite Hpis. unfold dd_get at 1. simpl.
    apply Forall_forall. intros idx Hin. apply in_flat_map in Hin.
    destruct Hin as (seg & Hseg & Hin).
    unfold segments_of in Hseg. apply filter_In in Hseg. destruct Hseg as [Hseg _].
    rewrite Forall_forall in Hvalid.
    destruct (segment_indices_total (Hvalid _ Hseg)) as [_ Hall].
    rewrite Forall_forall in Hall. exact (Hall _ Hin). }
  destruct (store_bucket_keys waveform pis bucket) as [Hkeys Hnd'].
  exists (store_bucket waveform pis bucket). split; [ | split; [ | split]].
  - unfold sort_waveform, data_getitem. rewrite Hdata. simpl bind.
    rewrite Hrun. simpl bind. apply store_states_ok; assumption.
  - intros p. rewrite store_bucket_get by exact Hnd.
    rewrite Hpis. unfold dd_get at 2. simpl app.
    rewrite frames_of_flat_map. unfold waveform_frames. simpl fst. rewrite Hdata.
    reflexivity.
  - intros p. rewrite Hkeys. unfold waveform_labels. simpl fst. rewrite Hdata.
    rewrite (collect_indices_keys _ _ Hrun p). simpl. tauto.
  - exact Hnd'.
Qed.

Lemma layer_waveforms_snoc (l l' : nat) (done : frame_table vec)
  (layer : list (nat * list vec)) :
  layer_waveforms l' (done ++ [(l, layer)])
  = layer_waveforms l' done ++ (if Nat.eqb l l' then layer else []).
Proof.
  unfold layer_waveforms. rewrite filter_app, flat_map_app. simpl.
  destruct (Nat.eqb l l'); simpl; rewrite ?app_nil_r; reflexivity.
Qed.

Lemma table_holds_init (data : list phonetic_detail) (num_layers : nat) :
  table_holds data num_layers []
    (map (fun l : nat => (l, @nil (string * list vec))) (seq 0 num_layers)).
Proof.
  split; [rewrite map_map; simpl; apply map_id | ].
  intros l Hl. exists []. split; [ | split; [ | split]].
  - unfold table_get.
    assert (H : forall start len, start <= l < start + len ->
              find (fun e : nat * sdict (list vec) => Nat.eqb (fst e) l)
                   (map (fun l0 : nat => (l0, [])) (seq start len)) = Some (l, [])).
    { intros start len. revert start. induction len as [ | len IH]; intros start Hr; [lia | ].
      simpl. destruct (Nat.eqb_spec start l) as [-> | Hne]; [reflexivity | ].
      apply IH. lia. }
    rewrite (H 0 num_layers) by lia. reflexivity.
  - reflexivity.
  - intros p. simpl. tauto.
  - constructor.
Qed.

(** The loop over the waveforms of one layer keeps the invariant. *)
Lemma sort_layer_holds (data : list phonetic_detail) (num_layers l : nat)
  (done : frame_table vec) (layer : list (nat * list vec)) :
  l < num_layers -> Forall (well_formed_waveform data) layer ->
  forall (pre : list (nat * list vec)) table,
  table_holds data num_layers (done ++ [(l, pre)]) table ->
  exists table',
    sort_layer data l layer table = Ok table' /\
    table_holds data num_layers (done ++ [(l, pre ++ layer)]) table'.
Proof.
  intros Hl. induction 1 as [ | [waveform_idx waveform] layer Hwf _ IH];
    intros pre table Hholds.
  - exists table. rewrite app_nil_r. split; [reflexivity | exact Hholds].
  - destruct Hholds as [Hkeys Hall].
    destruct (Hall l Hl) as (bucket & Hget & Hcontent & Hlabels & Hnd).
    destruct (@sort_waveform_full data l waveform_idx waveform table bucket Hwf Hget)
      as (bucket' & Hrun & Hcontent' & Hlabels' & Hnd').
    cbn [sort_layer]. rewrite Hrun. cbn [bind].
    destruct (IH (pre ++ [(waveform_idx, waveform)]) (table_set table l bucket'))
      as (table' & Hrun' & Hholds').
    + split; [rewrite (@table_set_keys vec); exact Hkeys | ].
      intros l' Hl'. destruct (Nat.eq_dec l' l) as [-> | Hne].
      * exists bucket'. split; [exact (@table_get_set vec table l bucket' bucket Hget) | ].
        rewrite layer_waveforms_snoc, Nat.eqb_refl.
        rewrite layer_waveforms_snoc, Nat.eqb_refl in Hcontent, Hlabels.
        split; [ | split].
        -- intros p. rewrite Hcontent', Hcontent, app_assoc, !flat_map_app. simpl.
           rewrite app_nil_r. reflexivity.
        -- intros p. rewrite Hlabels', Hlabels.
           rewrite (app_assoc (layer_waveforms l done) pre).
           rewrite (flat_map_app _ (layer_waveforms l done ++ pre)), in_app_iff.
           simpl. rewrite app_nil_r. tauto.
        -- apply Hnd'. exact Hnd.
      * destruct (Hall l' Hl') as (b & Hb & Hc & Hlb & Hn).
        exists b. rewrite (@table_get_set_other vec table l l' bucket' Hne).
        rewrite layer_waveforms_snoc in *.
        destruct (Nat.eqb_spec l l'); [congruence | ].
        repeat split; assumption || apply Hlb.
    + exists table'. split; [exact Hrun' | ].
      rewrite <- app_assoc in Hholds'. exact Hholds'.
Qed.

(** The loop over the layers keeps the invariant. *)
Lemma sort_layers_holds (data : list phonetic_detail) (num_layers : nat)
  (frame_states : frame_table vec) :
  well_formed_frames data num_layers frame_states ->
  forall (done : frame_table vec) table,
  table_holds data num_layers done table ->
  exists table',
    sort_layers data frame_states table = Ok table' /\
    table_holds data num_layers (done ++ frame_states) table'.
Proof.
  induction 1 as [ | [l layer] frame_states [Hl Hlayer] _ IH]; intros done table Hholds.
  - exists table. rewrite app_nil_r. split; [reflexivity | exact Hholds].
  - simpl in Hl, Hlayer.
    assert (Hstart : table_holds data num_layers (done ++ [(l, [])]) table).
    { destruct Hholds as [Hkeys Hall]. split; [exact Hkeys | ].
      intros l' Hl'. destruct (Hall l' Hl') as (b & Hb & Hc & Hlb & Hn).
      exists b. rewrite layer_waveforms_snoc.
      destruct (Nat.eqb l l'); rewrite app_nil_r; repeat split; assumption || apply Hlb. }
    destruct (@sort_layer_holds data num_layers l done layer Hl Hlayer [] table Hstart)
      as (table1 & Hrun1 & Hholds1).
    cbn [sort_layers]. rewrite Hrun1. cbn [bind].
    destruct (IH (done ++ [(l, layer)]) table1 Hholds1) as (table' & Hrun' & Hholds').
    exists table'. split; [exact Hrun' | ]. rewrite <- app_assoc in Hholds'. exact Hholds'.
Qed.

(** The whole aligner, from the empty buckets. *)
Lemma sort_states_per_phoneme_holds (data : list phonetic_detail) (num_layers : nat)
  (frame_states : frame_table vec) :
  well_formed_frames data num_layers frame_states ->
  exists table,
    sort_states_per_phoneme data frame_states num_layers = Ok table /\
    table_holds data num_layers frame_states table.
Proof.
  intros Hwf.
  exact (@sort_layers_holds data num_layers frame_states Hwf [] _
           (@table_holds_init data num_layers)).
Qed.

End AlignerWhole.

Section AlignerErrors.
Variable vec : Type.
Implicit Types (table : phoneme_table vec) (bucket : sdict (list vec)).

Lemma collect_indices_nonneg (segs : list (Z * Z * string)) (pis : sdict (list Z)) :
  Forall valid_segment segs -> collect_indices segs [] = Ok pis ->
  Forall (fun item => Forall (fun idx => (0 <= idx)%Z) (snd item)) pis.
Proof.
  intros Hvalid Hrun.
  destruct (collect_indices_spec Hvalid []) as (pis' & Hrun' & Hpis & Hnd).
  rewrite Hrun in Hrun'. injection Hrun' as <-.
  specialize (Hnd (NoDup_nil _)).
  apply dd_get_Forall; [ | exact Hnd].
  intros p. rewrite Hpis. unfold dd_get at 1. simpl.
  apply Forall_forall. intros idx Hin. apply in_flat_map in Hin.
  destruct Hin as (seg & Hseg & Hin).
  unfold segments_of in Hseg. apply filter_In in Hseg. destruct Hseg as [Hseg _].
  rewrite Forall_forall in Hvalid.
  destruct (segment_indices_total (Hvalid _ Hseg)) as [_ Hall].
  rewrite Forall_forall in Hall. exact (Hall _ Hin).
Qed.

Lemma table_extend_missing table (l : nat) (phoneme : string) (states : list vec) :
  ~ In l (map fst table) ->
  table_extend table l phoneme states = Raise (KeyError_layer l).
Proof.
  induction table as [ | [l' b] table IH]; simpl; intros Hnin; [reflexivity | ].
  destruct (Nat.eqb_spec l' l) as [-> | Hne]; [exfalso; auto | ].
  rewrite IH by auto. reflexivity.
Qed.

Lemma sort_layers_prefix (data : list phonetic_detail) (before rest : frame_table vec) :
  forall table table1,
  sort_layers data before table = Ok table1 ->
  sort_layers data (before ++ rest) table = sort_layers data rest table1.
Proof.
  induction before as [ | [l layer] before IH]; intros table table1 Hrun; simpl in *.
  - injection Hrun as <-. reflexivity.
  - destruct (sort_layer data l layer table) as [t | e]; [ | discriminate].
    cbn [bind] in *. apply IH. exact Hrun.
Qed.

Lemma sort_layer_prefix (data : list phonetic_detail) (l : nat)
  (before rest : list (nat * list vec)) :
  forall table table1,
  sort_layer data l before table = Ok table1 ->
  sort_layer data l (before ++ rest) table = sort_layer data l rest table1.
Proof.
  induction before as [ | [w wf] before IH]; intros table table1 Hrun; simpl in *.
  - injection Hrun as <-. reflexivity.
  - destruct (sort_waveform data l w wf table) as [t | e]; [ | discriminate].
    cbn [bind] in *. apply IH. exact Hrun.
Qed.

End AlignerErrors.

Section AlignerTable.
Variable vec : Type.

(** X1: on frame states whose layer indices are below [num_layers] and whose
    waveform indices point to utterances with valid sample offsets, the
    aligner raises nothing and returns one bucket per layer, in layer order;
    under the label [p] the bucket of layer [l] holds, for the waveforms
    stored under [l] in their order, the frames of the segments labelled [p]
    in segment order. No layer receives a vector of another layer. *)
Theorem sort_states_per_phoneme_buckets (data : list phonetic_detail)
  (frame_states : frame_table vec) (num_layers : nat) :
  well_formed_frames data num_layers frame_states ->
  exists table,
    sort_states_per_phoneme data frame_states num_layers = Ok table /\
    map fst table = seq 0 num_layers /\
    forall l, l < num_layers ->
      exists bucket,
        table_get table l = Some bucket /\
        forall p, dd_get bucket p
                  = flat_map (waveform_frames data p) (layer_waveforms l frame_states).
Proof.
  intros Hwf.
  destruct (@sort_layers_holds vec data num_layers frame_states Hwf [] _
              (@table_holds_init vec data num_layers)) as (table & Hrun & Hkeys & Hall).
  exists table. split; [exact Hrun | ]. split; [exact Hkeys | ].
  intros l Hl. destruct (Hall l Hl) as (bucket & Hget & Hcontent & _).
  exists bucket. split; [exact Hget | exact Hcontent].
Qed.

(** X2: the keys of the bucket of a layer are distinct and are exactly the
    labels of the segments of the utterances whose waveforms are stored under
    that layer: a label is a key even when none of its frames is below the
    frame count. *)
Theorem sort_states_per_phoneme_labels (data : list phonetic_detail)
  (frame_states : frame_table vec) (num_layers : nat) :
  well_formed_frames data num_layers frame_states ->
  exists table,
    sort_states_per_phoneme data frame_states num_layers = Ok table /\
    forall l, l < num_layers ->
      exists bucket,
        table_get table l = Some bucket /\
        NoDup (dict_keys bucket) /\
        forall p, In p (dict_keys bucket)
                  <-> exists item, In item (layer_waveforms l frame_states) /\
                                   In p (waveform_labels data item).
Proof.
  intros Hwf.
  destruct (@sort_layers_holds vec data num_layers frame_states Hwf [] _
              (@table_holds_init vec data num_layers)) as (table & Hrun & Hkeys & Hall).
  exists table. split; [exact Hrun | ].
  intros l Hl. destruct (Hall l Hl) as (bucket & Hget & _ & Hlabels & Hnd).
  exists bucket. split; [exact Hget | ]. split; [exact Hnd | ].
  intros p. rewrite Hlabels, in_flat_map. reflexivity.
Qed.

(** X3: a layer index that is not below [num_layers] raises [KeyError] as
    soon as an utterance stored under it has a segment. *)
Theorem sort_states_per_phoneme_layer_out_of_range (data : list phonetic_detail)
  (num_layers l waveform_idx : nat) (before after : frame_table vec)
  (waveform : list vec) (rest : list (nat * list vec)) (phonemes : phonetic_detail) :
  well_formed_frames data num_layers before ->
  num_layers <= l ->
  nth_error data waveform_idx = Some phonemes ->
  Forall valid_segment (segments phonemes) ->
  segments phonemes <> [] ->
  sort_states_per_phoneme data
    (before ++ (l, (waveform_idx, waveform) :: rest) :: after) num_layers
  = Raise (KeyError_layer l).
Proof.
  intros Hwf Hl Hdata Hvalid Hne. unfold sort_states_per_phoneme.
  destruct (@sort_layers_holds vec data num_layers before Hwf [] _
              (@table_holds_init vec data num_layers)) as (table & Hrun & Hkeys & _).
  rewrite (@sort_layers_prefix vec data before _ _ table Hrun).
  cbn [sort_layers sort_layer]. unfold sort_waveform, data_getitem. rewrite Hdata.
  cbn [bind].
  destruct (collect_indices_spec Hvalid []) as (pis & Hpis & _ & _).
  rewrite Hpis. cbn [bind].
  pose proof (collect_indices_nonneg Hvalid Hpis) as Hnonneg.
  destruct pis as [ | [phoneme indeces] pis].
  - exfalso. destruct (segments phonemes) as [ | seg segs]; [congruence | ].
    pose proof (collect_indices_keys _ _ Hpis (segment_label seg)) as [_ Hk].
    apply Hk. right. left. reflexivity.
  - cbn [store_states]. inversion Hnonneg as [ | ? ? Hfirst _]; subst. simpl in Hfirst.
    rewrite (@lookup_states_ok vec waveform indeces Hfirst). cbn [bind].
    rewrite table_extend_missing; [reflexivity | ].
    rewrite Hkeys, in_seq. lia.
Qed.

(** X4: a waveform index that is not below the length of the data raises
    [IndexError], whatever the waveform. *)
Theorem sort_states_per_phoneme_waveform_out_of_range (data : list phonetic_detail)
  (num_layers l waveform_idx : nat) (before after : frame_table vec)
  (waveform : list vec) (wbefore wafter : list (nat * list vec)) :
  well_formed_frames data num_layers before ->
  l < num_layers ->
  Forall (well_formed_waveform data) wbefore ->
  length data <= waveform_idx ->
  sort_states_per_phoneme data
    (before ++ (l, wbefore ++ (waveform_idx, waveform) :: wafter) :: after) num_layers
  = Raise IndexError.
Proof.
  intros Hwf Hl Hwbefore Hidx. unfold sort_states_per_phoneme.
  destruct (@sort_layers_holds vec data num_layers before Hwf [] _
              (@table_holds_init vec data num_layers)) as (table & Hrun & Hholds).
  rewrite (@sort_layers_prefix vec data before _ _ table Hrun).
  cbn [sort_layers].
  assert (Hstart : table_holds data num_layers (([] ++ before) ++ [(l, [])]) table).
  { destruct Hholds as [Hkeys Hall]. split; [exact Hkeys | ].
    intros l' Hl'. destruct (Hall l' Hl') as (b & Hb & Hc & Hlb & Hn).
    exists b. rewrite layer_waveforms_snoc.
    destruct (Nat.eqb l l'); rewrite app_nil_r; repeat split; assumption || apply Hlb. }
  destruct (@sort_layer_holds vec data num_layers l ([] ++ before) wbefore Hl Hwbefore
              [] table Hstart) as (table1 & Hrun1 & _).
  rewrite (@sort_layer_prefix vec data l wbefore _ table table1 Hrun1).
  cbn [sort_layer]. unfold sort_waveform, data_getitem.
  rewrite (proj2 (nth_error_None data waveform_idx) Hidx). reflexivity.
Qed.

End AlignerTable.

Section NegativeIndex.
Variable vec : Type.

(** X5: the comprehension of the aligner tests [idx < len(waveform)]
    only. A negative index passes the test: down to [-len(waveform)] it reads
    a frame counted from the end of the waveform, below that it raises
    [IndexError]. *)
Theorem negative_index_not_discarded (waveform : list vec) (idx : Z) (rest : list Z) :
  (idx < 0)%Z ->
  ((- Z.of_nat (length waveform) <= idx)%Z ->
   exists x,
     nth_error waveform (Z.to_nat (Z.of_nat (length waveform) + idx)) = Some x /\
     lookup_states waveform (idx :: rest)
     = (xs <- lookup_states waveform rest ;; Ok (x :: xs))) /\
  ((idx < - Z.of_nat (length waveform))%Z ->
   lookup_states waveform (idx :: rest) = Raise IndexError).
Proof.
  intros Hneg. cbn [lookup_states]. unfold list_getitem.
  destruct (Z.ltb_spec idx (Z.of_nat (length waveform))) as [_ | Hge]; [ | lia].
  destruct (Z.ltb_spec idx 0) as [_ | Hge]; [ | lia].
  split.
  - intros Hlow.
    destruct (Z.ltb_spec (idx + Z.of_nat (length waveform)) 0) as [Hlt | _]; [lia | ].
    replace (idx + Z.of_nat (length waveform))%Z with (Z.of_nat (length waveform) + idx)%Z
      by lia.
    destruct (nth_error waveform (Z.to_nat (Z.of_nat (length waveform) + idx)))
      as [x | ] eqn:Enth.
    + exists x. split; reflexivity.
    + apply nth_error_None in Enth. lia.
  - intros Hlow.
    destruct (Z.ltb_spec (idx + Z.of_nat (length waveform)) 0) as [_ | Hge]; [ | lia].
    reflexivity.
Qed.

End NegativeIndex.

(** ** The hidden-state extractor *)

Section ExtractorFacts.
Variables (audio vec : Type).
Variable hidden_states : audio -> result (list (list (list vec))).
Implicit Types (f g : nat -> nat -> list vec) (fs : frame_table vec).

Lemma frame_grid_ext (L n : nat) f g :
  (forall l w, l < L -> w < n -> f l w = g l w) -> frame_grid L n f = frame_grid L n g.
Proof.
  intros H. unfold frame_grid. apply map_ext_in. intros l Hl. apply in_seq in Hl.
  f_equal. apply map_ext_in. intros w Hw. apply in_seq in Hw.
  f_equal. apply H; lia.
Qed.

Lemma new_frame_states_grid (L n : nat) :
  new_frame_states vec L n = frame_grid L n (fun _ _ => []).
Proof. reflexivity. Qed.

Lemma layer_append_row (h : nat -> list vec) (w0 : nat) (x : vec) :
  forall len start, start <= w0 < start + len ->
  layer_append (map (fun w => (w, h w)) (seq start len)) w0 x
  = Ok (map (fun w => (w, if Nat.eqb w w0 then h w ++ [x] else h w)) (seq start len)).
Proof.
  induction len as [ | len IH]; intros start Hr; [lia | ]. simpl.
  destruct (Nat.eqb_spec start w0) as [-> | Hne].
  - do 2 f_equal. apply map_ext_in. intros w Hw. apply in_seq in Hw.
    destruct (Nat.eqb_spec w w0); [lia | reflexivity].
  - rewrite IH by lia. reflexivity.
Qed.

Lemma frame_states_append_grid (L n : nat) f (l0 w0 : nat) (x : vec) :
  l0 < L -> w0 < n ->
  frame_states_append (frame_grid L n f) l0 w0 x
  = Ok (frame_grid L n (fun l w => if Nat.eqb l l0 && Nat.eqb w w0
                                   then f l w ++ [x] else f l w)).
Proof.
  intros Hl Hw. unfold frame_grid.
  assert (H : forall len start, start <= l0 < start + len ->
    frame_states_append
      (map (fun l => (l, map (fun w => (w, f l w)) (seq 0 n))) (seq start len)) l0 w0 x
    = Ok (map (fun l => (l, map (fun w => (w, if Nat.eqb l l0 && Nat.eqb w w0
                                              then f l w ++ [x] else f l w))
                                (seq 0 n)))
              (seq start len))).
  { induction len as [ | len IH]; intros start Hr; [lia | ]. simpl.
    destruct (Nat.eqb_spec start l0) as [-> | Hne].
    - rewrite (@layer_append_row (f l0) w0 x n 0) by lia. cbn [bind]. do 2 f_equal.
      apply map_ext_in. intros l Hin. apply in_seq in Hin.
      destruct (Nat.eqb_spec l l0); [lia | reflexivity].
    - rewrite IH by lia. reflexivity. }
  apply H. lia.
Qed.

Lemma frame_states_append_missing fs (l0 w0 : nat) (x : vec) :
  ~ In l0 (map fst fs) -> frame_states_append fs l0 w0 x = Raise (KeyError_layer l0).
Proof.
  induction fs as [ | [l layer] fs IH]; simpl; intros Hnin; [reflexivity | ].
  destruct (Nat.eqb_spec l l0) as [-> | Hne]; [exfalso; auto | ].
  rewrite IH by auto. reflexivity.
Qed.

Lemma frame_grid_keys (L n : nat) f : map fst (frame_grid L n f) = seq 0 L.
Proof. unfold frame_grid. rewrite map_map. simpl. apply map_id. Qed.

Lemma save_frames_grid (L n : nat) (l0 w0 : nat) (frames : list vec) :
  l0 < L -> w0 < n ->
  forall f,
  save_frames l0 w0 frames (frame_grid L n f)
  = Ok (frame_grid L n (fun l w => if Nat.eqb l l0 && Nat.eqb w w0
                                   then f l w ++ frames else f l w)).
Proof.
  intros Hl Hw. induction frames as [ | x frames IH]; intros f; simpl.
  - f_equal. apply frame_grid_ext. intros l w _ _.
    destruct (Nat.eqb l l0 && Nat.eqb w w0); [rewrite app_nil_r | ]; reflexivity.
  - rewrite frame_states_append_grid by assumption. cbn [bind]. rewrite IH.
    f_equal. apply frame_grid_ext. intros l w _ _.
    destruct (Nat.eqb l l0 && Nat.eqb w w0); [rewrite <- app_assoc | ]; reflexivity.
Qed.

Lemma save_batch_grid (L n : nat) (l0 w0 : nat) (batch : list (list vec)) :
  l0 < L -> w0 < n ->
  forall f,
  save_batch l0 w0 batch (frame_grid L n f)
  = Ok (frame_grid L n (fun l w => if Nat.eqb l l0 && Nat.eqb w w0
                                   then f l w ++ concat batch else f l w)).
Proof.
  intros Hl Hw. induction batch as [ | frames batch IH]; intros f; simpl.
  - f_equal. apply frame_grid_ext. intros l w _ _.
    destruct (Nat.eqb l l0 && Nat.eqb w w0); [rewrite app_nil_r | ]; reflexivity.
  - rewrite save_frames_grid by assumption. cbn [bind]. rewrite IH.
    f_equal. apply frame_grid_ext. intros l w _ _.
    destruct (Nat.eqb l l0 && Nat.eqb w w0); [rewrite <- app_assoc | ]; reflexivity.
Qed.

(** A batch without frames touches nothing, whatever the layer index. *)
Lemma save_batch_no_frame (l0 w0 : nat) (batch : list (list vec)) fs :
  concat batch = [] -> save_batch l0 w0 batch fs = Ok fs.
Proof.
  induction batch as [ | frames batch IH]; simpl; intros H; [reflexivity | ].
  apply app_eq_nil in H. destruct H as [-> H]. simpl. apply IH. exact H.
Qed.

(** A batch with a frame raises when its layer index is not a key. *)
Lemma save_batch_missing (l0 w0 : nat) (batch : list (list vec)) fs :
  concat batch <> [] -> ~ In l0 (map fst fs) ->
  save_batch l0 w0 batch fs = Raise (KeyError_layer l0).
Proof.
  intros Hne Hnin. induction batch as [ | frames batch IH]; [simpl in Hne; congruence | ].
  simpl. destruct frames as [ | x frames].
  - simpl. apply IH. exact Hne.
  - simpl. rewrite frame_states_append_missing by exact Hnin. reflexivity.
Qed.

(** The layers of one waveform, when no layer at or beyond [L] has a
    frame. *)
Lemma save_layers_grid (L n w0 : nat) (layers : list (list (list vec))) :
  w0 < n ->
  forall (l0 : nat) f,
  (forall i, L <= l0 + i -> concat (nth i layers []) = []) ->
  save_layers l0 w0 layers (frame_grid L n f)
  = Ok (frame_grid L n (fun l w => if Nat.eqb w w0 && Nat.leb l0 l
                                   then f l w ++ concat (nth (l - l0) layers [])
                                   else f l w)).
Proof.
  intros Hw. induction layers as [ | batch layers IH]; intros l0 f Hempty; simpl.
  - f_equal. apply frame_grid_ext. intros l w _ _.
    destruct (Nat.eqb w w0 && Nat.leb l0 l); [ | reflexivity].
    destruct (l - l0); simpl; rewrite app_nil_r; reflexivity.
  - destruct (Nat.lt_ge_cases l0 L) as [Hlt | Hge].
    + rewrite save_batch_grid by assumption. cbn [bind]. rewrite IH.
      * f_equal. apply frame_grid_ext. intros l w _ _. cbv beta.
        destruct (Nat.eqb_spec w w0), (Nat.eqb_spec l l0),
          (Nat.leb_spec (S l0) l), (Nat.leb_spec l0 l);
          subst; cbn [andb]; try lia; try reflexivity.
        -- rewrite Nat.sub_diag. reflexivity.
        -- replace (l - l0) with (S (l - S l0)) by lia. reflexivity.
      * intros i Hi. apply (Hempty (S i)). lia.
    + rewrite save_batch_no_frame by (apply (Hempty 0); lia). cbn [bind]. rewrite IH.
      * f_equal. apply frame_grid_ext. intros l w Hl _. cbv beta.
        destruct (Nat.eqb w w0), (Nat.leb_spec (S l0) l), (Nat.leb_spec l0 l);
          cbn [andb]; try lia; reflexivity.
      * intros i Hi. apply (Hempty (S i)). lia.
Qed.

(** The layers of one waveform, when layer [L] has a frame. *)
Lemma save_layers_missing (L n w0 : nat) (layers : list (list (list vec))) :
  w0 < n ->
  forall (l0 : nat) f,
  l0 <= L -> concat (nth (L - l0) layers []) <> [] ->
  save_layers l0 w0 layers (frame_grid L n f) = Raise (KeyError_layer L).
Proof.
  intros Hw. induction layers as [ | batch layers IH]; intros l0 f Hl Hne; simpl.
  - destruct (L - l0); simpl in Hne; congruence.
  - destruct (Nat.eq_dec l0 L) as [-> | Hnl].
    + rewrite Nat.sub_diag in Hne. simpl in Hne.
      rewrite save_batch_missing; [reflexivity | exact Hne | ].
      rewrite frame_grid_keys, in_seq. lia.
    + rewrite save_batch_grid by (assumption || lia). cbn [bind].
      apply IH; [lia | ].
      replace (L - l0) with (S (L - S l0)) in Hne by lia. exact Hne.
Qed.

End ExtractorFacts.

Section ExtractorLoop.
Variables (audio vec : Type).
Variable hidden_states : audio -> result (list (list (list vec))).
Implicit Types (f g : nat -> nat -> list vec) (fs : frame_table vec).

Lemma encoded_frames_tail (out : list (list (list vec)))
  (outs : list (list (list (list vec)))) (l j : nat) :
  encoded_frames (out :: outs) l (S j) = encoded_frames outs l j.
Proof. reflexivity. Qed.

(** The extraction loop, when every encoder call succeeds and fits the
    layers. *)
Lemma extract_loop_grid (L n total : nat) (waveforms : list audio)
  (outs : list (list (list (list vec)))) :
  Forall2 (fun waveform out => hidden_states waveform = Ok out) waveforms outs ->
  Forall (fits_layers L) outs ->
  forall (k : nat) (printed : list (nat * nat)) f,
  k + length waveforms <= n ->
  extract_loop hidden_states total k waveforms printed (frame_grid L n f)
  = (printed ++ map (fun w => (w, total)) (seq k (length waveforms)),
     Ok (frame_grid L n
           (fun l w => if Nat.leb k w && Nat.ltb w (k + length waveforms)
                       then f l w ++ encoded_frames outs l (w - k) else f l w))).
Proof.
  induction 1 as [ | waveform out waveforms outs Henc _ IH]; intros Hfit k printed f Hk.
  - simpl. rewrite app_nil_r. do 2 f_equal. apply frame_grid_ext. intros l w _ _.
    destruct (Nat.leb_spec k w), (Nat.ltb_spec w (k + 0)); cbn [andb]; try lia; reflexivity.
  - inversion Hfit as [ | ? ? Hout Hfit']; subst. simpl length in *.
    cbn [extract_loop]. rewrite Henc.
    rewrite (@save_layers_grid vec L n k out ltac:(lia) 0 f)
      by (intros i Hi; apply Hout; lia).
    rewrite (IH Hfit' (S k)) by lia.
    rewrite <- app_assoc. cbn [seq map app]. do 2 f_equal.
    apply frame_grid_ext. intros l w _ _. cbv beta.
    destruct (Nat.eqb_spec w k), (Nat.leb_spec (S k) w), (Nat.leb_spec k w),
      (Nat.ltb_spec w (S k + length waveforms)),
      (Nat.ltb_spec w (k + S (length waveforms)));
      subst; cbn [andb Nat.leb]; try lia; try reflexivity.
    + rewrite Nat.sub_diag, Nat.sub_0_r. reflexivity.
    + replace (w - k) with (S (w - S k)) by lia. rewrite encoded_frames_tail. reflexivity.
Qed.

Lemma extract_loop_app (total : nat) (before rest : list audio) :
  forall (k : nat) (printed printed' : list (nat * nat)) fs fs',
  extract_loop hidden_states total k before printed fs = (printed', Ok fs') ->
  extract_loop hidden_states total k (before ++ rest) printed fs
  = extract_loop hidden_states total (k + length before) rest printed' fs'.
Proof.
  induction before as [ | waveform before IH]; intros k printed printed' fs fs' Hrun.
  - simpl in *. injection Hrun as <- <-. rewrite Nat.add_0_r. reflexivity.
  - simpl in *. destruct (hidden_states waveform) as [out | e]; [ | discriminate].
    destruct (save_layers 0 k out fs) as [fs1 | e]; [ | discriminate].
    rewrite (IH _ _ _ _ _ Hrun). f_equal. lia.
Qed.

(** Appending a frame keeps the keys. *)
Lemma layer_append_keys (layer layer' : list (nat * list vec)) (w : nat) (x : vec) :
  layer_append layer w x = Ok layer' -> map fst layer' = map fst layer.
Proof.
  revert layer'. induction layer as [ | [w' frames] layer IH]; intros layer'; simpl;
    [discriminate | ].
  destruct (Nat.eqb w' w).
  - intros [= <-]. reflexivity.
  - destruct (layer_append layer w x) as [l1 | e]; [ | discriminate].
    cbn [bind]. intros [= <-]. simpl. rewrite (IH l1 eq_refl). reflexivity.
Qed.

Lemma frame_states_append_keys fs fs' (l w : nat) (x : vec) :
  frame_states_append fs l w x = Ok fs' -> frame_keys fs' = frame_keys fs.
Proof.
  unfold frame_keys. revert fs'.
  induction fs as [ | [l' layer] fs IH]; intros fs'; simpl; [discriminate | ].
  destruct (Nat.eqb l' l).
  - destruct (layer_append layer w x) as [layer' | e] eqn:E; [ | discriminate].
    cbn [bind]. intros [= <-]. simpl. rewrite (layer_append_keys _ _ _ E). reflexivity.
  - destruct (frame_states_append fs l w x) as [fs1 | e]; [ | discriminate].
    cbn [bind]. intros [= <-]. simpl. rewrite (IH fs1 eq_refl). reflexivity.
Qed.

Lemma save_frames_keys (l w : nat) (frames : list vec) :
  forall fs fs', save_frames l w frames fs = Ok fs' -> frame_keys fs' = frame_keys fs.
Proof.
  induction frames as [ | x frames IH]; intros fs fs'; simpl.
  - intros [= <-]. reflexivity.
  - destruct (frame_states_append fs l w x) as [fs1 | e] eqn:E; [ | discriminate].
    cbn [bind]. intros H. rewrite (IH _ _ H). exact (frame_states_append_keys _ _ _ _ E).
Qed.

Lemma save_batch_keys (l w : nat) (batch : list (list vec)) :
  forall fs fs', save_batch l w batch fs = Ok fs' -> frame_keys fs' = frame_keys fs.
Proof.
  induction batch as [ | frames batch IH]; intros fs fs'; simpl.
  - intros [= <-]. reflexivity.
  - destruct (save_frames l w frames fs) as [fs1 | e] eqn:E; [ | discriminate].
    cbn [bind]. intros H. rewrite (IH _ _ H). exact (save_frames_keys _ _ _ _ E).
Qed.

Lemma save_layers_keys (w : nat) (layers : list (list (list vec))) :
  forall (l : nat) fs fs',
  save_layers l w layers fs = Ok fs' -> frame_keys fs' = frame_keys fs.
Proof.
  induction layers as [ | batch layers IH]; intros l fs fs'; simpl.
  - intros [= <-]. reflexivity.
  - destruct (save_batch l w batch fs) as [fs1 | e] eqn:E; [ | discriminate].
    cbn [bind]. intros H. rewrite (IH _ _ _ H). exact (save_batch_keys _ _ _ _ E).
Qed.

Lemma extract_loop_keys (total : nat) (waveforms : list audio) :
  forall (k : nat) (printed printed' : list (nat * nat)) fs fs',
  extract_loop hidden_states total k waveforms printed fs = (printed', Ok fs') ->
  frame_keys fs' = frame_keys fs.
Proof.
  induction waveforms as [ | waveform waveforms IH]; intros k printed printed' fs fs'; simpl.
  - intros [= _ <-]. reflexivity.
  - destruct (hidden_states waveform) as [out | e]; [ | discriminate].
    destruct (save_layers 0 k out fs) as [fs1 | e] eqn:E; [ | discriminate].
    intros H. rewrite (IH _ _ _ _ _ H). exact (save_layers_keys _ _ _ _ E).
Qed.

End ExtractorLoop.

Section ExtractorRuns.
Variables (audio vec : Type).
Variable hidden_states : audio -> result (list (list (list vec))).

Lemma Forall2_map_l (A B C : Type) (h : A -> B) (R : B -> C -> Prop)
  (l : list A) (l' : list C) :
  Forall2 (fun a c => R (h a) c) l l' -> Forall2 R (map h l) l'.
Proof. induction 1; simpl; constructor; assumption. Qed.

(** With an encoder that succeeds and returns no layer beyond [num_layers],
    the extractor fills the grid with the encoded frames. *)
Lemma extract_hidden_states_grid (inputs : list (timit_item audio))
  (num_layers : nat) (outs : list (list (list (list vec)))) :
  Forall2 (fun item out => hidden_states (audio_array item) = Ok out) inputs outs ->
  Forall (fits_layers num_layers) outs ->
  extract_hidden_states hidden_states inputs num_layers
  = (map (fun w => (w, length inputs)) (seq 0 (length inputs)),
     Ok (frame_grid num_layers (length inputs) (encoded_frames outs))).
Proof.
  intros Henc Hfit. unfold extract_hidden_states.
  rewrite new_frame_states_grid, length_map.
  rewrite (@extract_loop_grid audio vec hidden_states num_layers (length inputs)
             (length inputs) (map (@audio_array audio) inputs) outs
             (Forall2_map_l _ _ Henc) Hfit 0 [] (fun _ _ => []))
    by (rewrite length_map; lia).
  rewrite length_map. simpl app. do 2 f_equal.
  apply frame_grid_ext. intros l w _ Hw. cbv beta.
  destruct (Nat.leb_spec 0 w), (Nat.ltb_spec w (0 + length inputs)); cbn [andb]; try lia.
  rewrite Nat.sub_0_r. reflexivity.
Qed.

(** X7: when the encoder returns a frame in the layer of index
    [num_layers] for some waveform, the first such waveform stops the
    extraction with [KeyError]; its progress line is the last one printed. *)
Theorem extract_hidden_states_too_many_layers
  (before after : list (timit_item audio)) (item : timit_item audio)
  (num_layers : nat) (outs : list (list (list (list vec))))
  (out : list (list (list vec))) :
  Forall2 (fun item out => hidden_states (audio_array item) = Ok out) before outs ->
  Forall (fits_layers num_layers) outs ->
  hidden_states (audio_array item) = Ok out ->
  concat (nth num_layers out []) <> [] ->
  extract_hidden_states hidden_states (before ++ item :: after) num_layers
  = (map (fun w => (w, length (before ++ item :: after))) (seq 0 (S (length before))),
     Raise (KeyError_layer num_layers)).
Proof.
  intros Henc Hfit Hitem Hlate. unfold extract_hidden_states.
  set (n := length (before ++ item :: after)).
  assert (Hn : length before < n) by (unfold n; rewrite length_app; simpl; lia).
  rewrite new_frame_states_grid, length_map. fold n. rewrite map_app.
  pose proof (@extract_loop_grid audio vec hidden_states num_layers n n
                (map (@audio_array audio) before) outs
                (Forall2_map_l _ _ Henc) Hfit 0 [] (fun _ _ => [])
                ltac:(rewrite length_map; lia)) as Hbefore.
  erewrite extract_loop_app by exact Hbefore.
  rewrite length_map. simpl. rewrite Hitem.
  erewrite save_layers_missing;
    [ | exact Hn | lia | rewrite Nat.sub_0_r; exact Hlate].
  f_equal. symmetry.
  change (map (fun w => (w, n)) (seq 0 (S (length before)))
          = map (fun w => (w, n)) (seq 0 (length before)) ++ [(length before, n)]).
  rewrite seq_S, map_app. reflexivity.
Qed.

End ExtractorRuns.

Section ExtractThenSort.
Variables (audio vec : Type).
Variable hidden_states : audio -> result (list (list (list vec))).

(** The frame lists a grid stores under a layer. *)
Lemma layer_waveforms_grid (L n : nat) (f : nat -> nat -> list vec) (l : nat) :
  l < L ->
  layer_waveforms l (frame_grid L n f) = map (fun w => (w, f l w)) (seq 0 n).
Proof.
  intros Hl. unfold layer_waveforms, frame_grid.
  assert (Hgen : forall len start, start <= l < start + len ->
            flat_map snd (filter (fun e : nat * list (nat * list vec) => Nat.eqb (fst e) l)
              (map (fun l0 => (l0, map (fun w => (w, f l0 w)) (seq 0 n))) (seq start len)))
            = map (fun w => (w, f l w)) (seq 0 n)).
  { induction len as [ | len IH]; intros start Hs; [lia | ].
    cbn [seq map filter fst]. destruct (Nat.eqb_spec start l) as [-> | Hne].
    - cbn [flat_map snd].
      assert (Hrest : forall len' start', l < start' ->
                filter (fun e : nat * list (nat * list vec) => Nat.eqb (fst e) l)
                  (map (fun l0 => (l0, map (fun w => (w, f l0 w)) (seq 0 n)))
                       (seq start' len')) = []).
      { induction len' as [ | len' IH']; intros start' Hs'; [reflexivity | ].
        cbn [seq map filter fst]. destruct (Nat.eqb_spec start' l); [lia | ].
        apply IH'. lia. }
      rewrite Hrest by lia. cbn [flat_map]. apply app_nil_r.
    - apply IH. lia. }
  apply Hgen. lia.
Qed.

(** A grid over the utterances of the data is well formed. *)
Lemma frame_grid_well_formed (data : list phonetic_detail) (L n : nat)
  (f : nat -> nat -> list vec) :
  n <= length data ->
  Forall (fun phonemes => Forall valid_segment (segments phonemes)) data ->
  well_formed_frames data L (frame_grid L n f).
Proof.
  intros Hn Hvalid. unfold well_formed_frames, frame_grid.
  rewrite Forall_forall. intros layer Hin.
  apply in_map_iff in Hin. destruct Hin as (l & <- & Hl). apply in_seq in Hl.
  cbn [fst snd]. split; [lia | ].
  rewrite Forall_forall. intros item Hitem.
  apply in_map_iff in Hitem. destruct Hitem as (w & <- & Hw). apply in_seq in Hw.
  unfold well_formed_waveform. cbn [fst].
  destruct (nth_error data w) as [phonemes | ] eqn:Hnth.
  - exists phonemes. split; [reflexivity | ].
    rewrite Forall_forall in Hvalid. apply Hvalid. eapply nth_error_In; exact Hnth.
  - apply nth_error_None in Hnth. lia.
Qed.

(** The keys of a grid. *)
Lemma frame_keys_grid (L n : nat) (f : nat -> nat -> list vec) :
  frame_keys (frame_grid L n f) = map (fun l => (l, seq 0 n)) (seq 0 L).
Proof.
  unfold frame_keys, frame_grid. rewrite map_map. apply map_ext. intros l.
  cbn [fst snd]. rewrite map_map. cbn [fst]. rewrite map_id. reflexivity.
Qed.

(** The progress lines of a loop that ran to its end. *)
Lemma extract_loop_printed (total : nat) (waveforms : list audio) :
  forall (k : nat) (printed printed' : list (nat * nat)) fs fs',
  extract_loop hidden_states total k waveforms printed fs = (printed', Ok fs') ->
  printed' = printed ++ map (fun w => (w, total)) (seq k (length waveforms)).
Proof.
  induction waveforms as [ | waveform waveforms IH]; intros k printed printed' fs fs'; simpl.
  - intros [= <- _]. rewrite app_nil_r. reflexivity.
  - destruct (hidden_states waveform) as [out | e]; [ | discriminate].
    destruct (save_layers 0 k out fs) as [fs1 | e]; [ | discriminate].
    intros H. rewrite (IH _ _ _ _ _ H), <- app_assoc. reflexivity.
Qed.

(** X6: when the encoder succeeds on every waveform and returns no frame
    in a layer at or beyond [num_layers], the extractor prints one progress
    line per waveform and returns frame states in which the layer [l] holds,
    for every waveform index in order, the frames of layer [l] of the
    encoding of that waveform, the frame sequences of the batch one after the
    other; a layer the encoder did not return keeps empty lists. *)
Theorem extract_hidden_states_frames (inputs : list (timit_item audio))
  (num_layers : nat) (outs : list (list (list (list vec)))) :
  Forall2 (fun item out => hidden_states (audio_array item) = Ok out) inputs outs ->
  Forall (fits_layers num_layers) outs ->
  exists frame_states,
    extract_hidden_states hidden_states inputs num_layers
    = (map (fun w => (w, length inputs)) (seq 0 (length inputs)), Ok frame_states) /\
    map fst frame_states = seq 0 num_layers /\
    forall l, l < num_layers ->
      layer_waveforms l frame_states
      = map (fun w => (w, encoded_frames outs l w)) (seq 0 (length inputs)).
Proof.
  intros Henc Hfit.
  exists (frame_grid num_layers (length inputs) (encoded_frames outs)).
  split; [ | split].
  - exact (@extract_hidden_states_grid audio vec hidden_states inputs num_layers outs
             Henc Hfit).
  - apply frame_grid_keys.
  - intros l Hl. exact (@layer_waveforms_grid _ _ _ _ Hl).
Qed.

(** X8: whatever the encoder returns, frame states the extractor returns
    have the keys they were created with, the layer indices below
    [num_layers], each with every waveform index, in order; and one progress
    line was printed per waveform. The saving loop adds no key. *)
Theorem extract_hidden_states_keys (inputs : list (timit_item audio)) (num_layers : nat)
  (printed : list (nat * nat)) (frame_states : frame_table vec) :
  extract_hidden_states hidden_states inputs num_layers = (printed, Ok frame_states) ->
  frame_keys frame_states
  = map (fun l => (l, seq 0 (length inputs))) (seq 0 num_layers) /\
  printed = map (fun w => (w, length inputs)) (seq 0 (length inputs)).
Proof.
  unfold extract_hidden_states. rewrite length_map. intros Hrun. split.
  - rewrite (extract_loop_keys _ _ _ _ _ _ Hrun), new_frame_states_grid.
    apply frame_keys_grid.
  - rewrite (extract_loop_printed _ _ _ _ _ Hrun), length_map. reflexivity.
Qed.

(** X9: an exception of the encoder is not caught: the extractor stops at
    the first waveform on which the encoder raises, after that waveform's
    progress line, and returns no frame states. *)
Theorem extract_hidden_states_encoder_raises
  (before after : list (timit_item audio)) (item : timit_item audio)
  (num_layers : nat) (outs : list (list (list (list vec)))) (e : exn) :
  Forall2 (fun item out => hidden_states (audio_array item) = Ok out) before outs ->
  Forall (fits_layers num_layers) outs ->
  hidden_states (audio_array item) = Raise e ->
  extract_hidden_states hidden_states (before ++ item :: after) num_layers
  = (map (fun w => (w, length (before ++ item :: after))) (seq 0 (S (length before))),
     Raise e).
Proof.
  intros Henc Hfit Hitem. unfold extract_hidden_states.
  set (n := length (before ++ item :: after)).
  assert (Hn : length before < n) by (unfold n; rewrite length_app; simpl; lia).
  rewrite new_frame_states_grid, length_map. fold n. rewrite map_app.
  pose proof (@extract_loop_grid audio vec hidden_states num_layers n n
                (map (@audio_array audio) before) outs
                (Forall2_map_l _ _ Henc) Hfit 0 [] (fun _ _ => [])
                ltac:(rewrite length_map; lia)) as Hbefore.
  erewrite extract_loop_app by exact Hbefore.
  rewrite length_map. simpl. rewrite Hitem.
  f_equal. symmetry.
  change (map (fun w => (w, n)) (seq 0 (S (length before)))
          = map (fun w => (w, n)) (seq 0 (length before)) ++ [(length before, n)]).
  rewrite seq_S, map_app. reflexivity.
Qed.

(** X10: the extractor followed by the aligner, on the same instances. When
    the encoder succeeds and returns no layer beyond [num_layers], and the
    sample offsets of the instances are valid, the aligner accepts what the
    extractor returns; under the label [p] the bucket of layer [l] holds,
    waveform after waveform, the frames of the encoding of that layer that
    lie in the segments labelled [p]. *)
Theorem extracted_states_sorted (inputs : list (timit_item audio)) (num_layers : nat)
  (outs : list (list (list (list vec)))) :
  Forall2 (fun item out => hidden_states (audio_array item) = Ok out) inputs outs ->
  Forall (fits_layers num_layers) outs ->
  Forall (fun item => Forall valid_segment (segments (item_phonetic_detail item))) inputs ->
  exists frame_states table,
    snd (extract_hidden_states hidden_states inputs num_layers) = Ok frame_states /\
    sort_states_per_phoneme (map (@item_phonetic_detail audio) inputs)
                            frame_states num_layers = Ok table /\
    forall l, l < num_layers ->
      exists bucket,
        table_get table l = Some bucket /\
        forall p,
          dd_get bucket p
          = flat_map (fun w => waveform_frames (map (@item_phonetic_detail audio) inputs) p
                                               (w, encoded_frames outs l w))
                     (seq 0 (length inputs)).
Proof.
  intros Henc Hfit Hvalid.
  set (data := map (@item_phonetic_detail audio) inputs).
  exists (frame_grid num_layers (length inputs) (encoded_frames outs)).
  assert (Hwf : well_formed_frames data num_layers
                  (frame_grid num_layers (length inputs) (encoded_frames outs))).
  { apply frame_grid_well_formed.
    - unfold data. rewrite length_map. lia.
    - unfold data. rewrite Forall_map. exact Hvalid. }
  destruct (@sort_states_per_phoneme_holds vec data num_layers _ Hwf)
    as (table & Hrun & _ & Hall).
  exists table. split.
  - rewrite (@extract_hidden_states_grid audio vec hidden_states inputs num_layers outs
               Henc Hfit). reflexivity.
  - split; [exact Hrun | ].
    intros l Hl. destruct (Hall l Hl) as (bucket & Hget & Hcontent & _).
    exists bucket. split; [exact Hget | ].
    intros p. rewrite Hcontent, (@layer_waveforms_grid _ _ _ _ Hl), flat_map_concat_map,
      map_map, <- flat_map_concat_map. reflexivity.
Qed.

End ExtractThenSort.

Section BalanceAnyLengths.
Variable vec : Type.
Implicit Types (pairs : list (vec * string)) (X : list vec) (y : list string).

(** The loop over the classes, whatever the lengths of its arguments. *)
Lemma balance_labels_blocks (keys : list string) (m : nat) X y :
  1 <= m ->
  forall (bX : list vec) (by_ : list string),
  balance_labels keys m X y bX by_
  = (bX ++ map fst (flat_map (class_block m (combine X y)) keys),
     by_ ++ map snd (flat_map (class_block m (combine X y)) keys)).
Proof.
  intros Hm. induction keys as [ | label keys IH]; intros bX by_;
    cbn [balance_labels flat_map].
  - simpl. rewrite !app_nil_r. reflexivity.
  - rewrite take_class_spec by exact Hm.
    replace (m + 1 - 1) with m by lia. rewrite !map_app, !app_assoc.
    unfold class_block at 1 3.
    destruct (m <=? length (class_pairs label (combine X y)))%nat.
    + cbn [app]. rewrite IH. reflexivity.
    + cbn [app map]. rewrite IH, !app_nil_r. reflexivity.
Qed.

Lemma class_block_label (m : nat) pairs (a : string) (p : vec * string) :
  In p (class_block m pairs a) -> snd p = a /\ In p pairs.
Proof.
  unfold class_block. destruct (m <=? length (class_pairs a pairs))%nat; [ | intros []].
  intros Hp. apply firstn_incl in Hp. split.
  - apply class_pairs_label in Hp. exact Hp.
  - unfold class_pairs in Hp. apply filter_In in Hp. tauto.
Qed.

Lemma class_pairs_class_block (label a : string) (m : nat) pairs :
  class_pairs label (class_block m pairs a)
  = if String.eqb a label then class_block m pairs a else [].
Proof.
  destruct (String.eqb_spec a label) as [-> | Hne].
  - apply filter_all. intros p Hp. apply class_block_label in Hp.
    apply String.eqb_eq. tauto.
  - unfold class_pairs at 1. apply filter_none. intros p Hp.
    apply class_block_label in Hp. apply String.eqb_neq. destruct Hp. congruence.
Qed.

Lemma class_pairs_class_blocks (label : string) (m : nat) pairs (keys : list string) :
  NoDup keys ->
  class_pairs label (flat_map (class_block m pairs) keys)
  = if in_dec string_dec label keys then class_block m pairs label else [].
Proof.
  induction keys as [ | a keys IH]; intros Hnd; simpl; [reflexivity | ].
  inversion Hnd as [ | ? ? Hnotin Hnd']; subst.
  rewrite class_pairs_app, class_pairs_class_block, IH by exact Hnd'.
  destruct (string_dec a label) as [-> | Hne].
  - rewrite String.eqb_refl.
    destruct (in_dec string_dec label keys); [contradiction | apply app_nil_r].
  - destruct (String.eqb_spec a label); [congruence | ].
    destruct (in_dec string_dec label keys); reflexivity.
Qed.

(** X11: [balance_classes] raises on an empty label list and on nothing
    else, whatever the instances: the exception is the [ValueError] of [min]
    on an empty sequence. *)
Theorem balance_classes_raises_iff_no_label X y (e : exn) :
  balance_classes X y = Raise e <-> y = [] /\ e = ValueError.
Proof.
  split.
  - destruct y as [ | l y'].
    + rewrite balance_classes_empty. intros [= <-]. split; reflexivity.
    + assert (Hne : l :: y' <> []) by discriminate.
      destruct (min_class_count_ok Hne) as (m & Hmin & _).
      unfold balance_classes. rewrite Hmin. discriminate.
  - intros [-> ->]. apply balance_classes_empty.
Qed.

(** X12: [balance_classes] does not compare the lengths of its arguments.
    On any instances and any non-empty labels it returns parallel lists; the
    smallest class count [m] is taken over all labels, the examples over the
    pairs [zip] gives, so a class with fewer than [m] pairs is left out
    without an error; every class that stays has exactly [m] examples, and
    every example returned is a pair of the input. *)
Theorem balance_classes_any_lengths X y :
  y <> [] ->
  exists (m : nat) (bX : list vec) (bY : list string),
    is_min_class_count m y /\
    balance_classes X y = Ok (bX, bY) /\
    length bX = length bY /\
    combine bX bY = flat_map (class_block m (combine X y)) (first_occurrences y) /\
    (forall p, In p (combine bX bY) -> In p (combine X y)) /\
    (forall label, In label bY
                   <-> In label y /\ m <= length (class_pairs label (combine X y))) /\
    (forall label, In label bY -> class_count bY label = m).
Proof.
  intros Hne. destruct (min_class_count_ok Hne) as (m & Hmin & Hspec & Hpos).
  set (blocks := flat_map (class_block m (combine X y)) (first_occurrences y)).
  assert (Hrun : balance_classes X y = Ok (map fst blocks, map snd blocks)).
  { unfold balance_classes. rewrite Hmin. simpl bind.
    rewrite balance_labels_blocks by exact Hpos.
    rewrite Counter_spec. unfold dict_keys. rewrite map_map. simpl.
    rewrite map_id. reflexivity. }
  assert (Hlabels : forall label, In label (map snd blocks)
            <-> In label y /\ m <= length (class_pairs label (combine X y))).
  { intros label. split.
    - intros Hin. apply in_map_iff in Hin. destruct Hin as (p & <- & Hp).
      apply in_flat_map in Hp. destruct Hp as (a & Ha & Hp).
      destruct (class_block_label _ _ _ _ Hp) as [Ea _]. subst a.
      split; [apply first_occurrences_In; exact Ha | ].
      unfold class_block in Hp.
      destruct (Nat.leb_spec m (length (class_pairs (snd p) (combine X y))));
        [assumption | destruct Hp].
    - intros [Hin Hm].
      destruct (firstn m (class_pairs label (combine X y))) as [ | p rest] eqn:E.
      + apply (f_equal (@length _)) in E. rewrite length_firstn in E. simpl in E. lia.
      + apply in_map_iff. exists p. split.
        * apply (@class_pairs_label vec label (combine X y)).
          apply (@firstn_incl _ m). rewrite E. left. reflexivity.
        * apply in_flat_map. exists label. split; [apply first_occurrences_In; exact Hin | ].
          unfold class_block. destruct (Nat.leb_spec m (length (class_pairs label (combine X y))));
            [rewrite E; left; reflexivity | lia]. }
  exists m, (map fst blocks), (map snd blocks).
  split; [exact Hspec | ]. split; [exact Hrun | ].
  split; [rewrite !length_map; reflexivity | ].
  rewrite combine_map_fst_snd.
  split; [reflexivity | ]. split; [ | split; [exact Hlabels | ]].
  - intros p Hp. apply in_flat_map in Hp. destruct Hp as (a & _ & Hp).
    apply class_block_label in Hp. tauto.
  - intros label Hin. apply Hlabels in Hin. destruct Hin as [Hin Hm].
    rewrite <- class_pairs_length. unfold blocks.
    rewrite class_pairs_class_blocks by apply first_occurrences_NoDup.
    destruct (in_dec string_dec label (first_occurrences y)) as [_ | Hn].
    + unfold class_block.
      destruct (Nat.leb_spec m (length (class_pairs label (combine X y)))); [ | lia].
      rewrite length_firstn. lia.
    + exfalso. apply Hn. apply first_occurrences_In. exact Hin.
Qed.

End BalanceAnyLengths.

(** ** The loader, whenever it returns *)

Section LoaderReturns.
Variable vec : Type.
Implicit Types (bucket : sdict (list (option vec))) (h : phoneme_table (option vec)).

(** A loader that returns met no label it could not collapse. *)
Lemma load_phonemes_returns (target : option (list string)) bucket
  (X X' : list vec) (y y' : list string) :
  load_phonemes target bucket X y = Ok (X', y') ->
  forall item, In item bucket -> unmapped target item = false.
Proof.
  intros Hrun item Hin. destruct (unmapped target item) eqn:Hbad; [exfalso | reflexivity].
  destruct (@load_phonemes_unmapped vec target bucket
              (ex_intro _ item (conj Hin Hbad)) X y) as (k & _ & Hraise).
  rewrite Hraise in Hrun. discriminate.
Qed.

Lemma loaded_labels_In (item : string * list (option vec)) (c : string) :
  In c (loaded_labels item)
  <-> dict_get phoneme_mapping (fst item) = Some c /\ present (snd item) <> [].
Proof.
  unfold loaded_labels. destruct (dict_get phoneme_mapping (fst item)) as [coarse | ].
  - split.
    + intros Hin. pose proof (repeat_spec _ _ _ Hin) as ->. split; [reflexivity | ].
      intros E. rewrite E in Hin. exact Hin.
    + intros [[= ->] Hne]. destruct (present (snd item)); [congruence | left; reflexivity].
  - split; [intros [] | intros [E _]; discriminate].
Qed.

(** What the loader returns, whenever it returns. *)
Lemma data_loader_returns h (layer_idx : nat) (target : option (list string))
  (X : list vec) (y : list string) :
  data_loader h layer_idx target = Ok (X, y) ->
  exists bucket,
    table_get h layer_idx = Some bucket /\
    X = flat_map (fun item => present (snd item)) (selected_items target bucket) /\
    y = flat_map loaded_labels (selected_items target bucket).
Proof.
  unfold data_loader. destruct (table_get h layer_idx) as [bucket | ]; [ | discriminate].
  intros Hrun. exists bucket. split; [reflexivity | ].
  rewrite (@load_phonemes_ok vec target bucket (load_phonemes_returns _ _ _ _ Hrun)) in Hrun.
  injection Hrun as <- <-. split; reflexivity.
Qed.

(** X13: whenever [data_loader] returns, it returns as many labels as
    vectors: the vectors that are not [None] of the buckets it selects, in
    bucket order, each with the coarse label of its bucket. A label it returns
    is the coarse label of a key of the layer other than [q], in the target
    list when there is one, and whose bucket holds a vector. *)
Theorem data_loader_labels_are_coarse h (layer_idx : nat) (target : option (list string))
  (X : list vec) (y : list string) :
  data_loader h layer_idx target = Ok (X, y) ->
  length X = length y /\
  exists bucket,
    table_get h layer_idx = Some bucket /\
    X = flat_map (fun item => present (snd item)) (selected_items target bucket) /\
    y = flat_map loaded_labels (selected_items target bucket) /\
    forall c, In c y <->
      exists fine states,
        In (fine, states) bucket /\ fine <> "q" /\
        (forall t, target = Some t -> In fine t) /\
        present states <> [] /\
        phoneme_mapping_getitem fine = Ok c.
Proof.
  intros Hrun. split; [exact (data_loader_lengths _ _ _ Hrun) | ].
  destruct (data_loader_returns _ _ _ Hrun) as (bucket & Hget & HX & Hy).
  exists bucket. split; [exact Hget | ]. split; [exact HX | ]. split; [exact Hy | ].
  intros c. rewrite Hy, in_flat_map. unfold selected_items, phoneme_mapping_getitem. split.
  - intros ([fine states] & Hin & Hc). apply filter_In in Hin. destruct Hin as [Hin Hsel].
    apply loaded_labels_In in Hc. cbn [fst snd] in *. destruct Hc as [Hmap Hne].
    unfold selected in Hsel. apply andb_true_iff in Hsel. destruct Hsel as [Hq Ht].
    exists fine, states. split; [exact Hin | ]. split.
    + apply negb_true_iff in Hq. apply String.eqb_neq. exact Hq.
    + split; [ | split; [exact Hne | rewrite Hmap; reflexivity]].
      intros t ->. apply py_in_In. exact Ht.
  - intros (fine & states & Hin & Hq & Ht & Hne & Hmap).
    exists (fine, states). split.
    + apply filter_In. split; [exact Hin | ]. unfold selected. cbn [fst].
      apply andb_true_iff. split.
      * apply negb_true_iff, String.eqb_neq. exact Hq.
      * destruct target as [t | ]; [apply py_in_In, Ht; reflexivity | reflexivity].
    + apply loaded_labels_In. cbn [fst snd]. split; [ | exact Hne].
      destruct (dict_get phoneme_mapping fine); [congruence | discriminate].
Qed.

(** The labels of the category groups collapse onto themselves. *)
Lemma phoneme_dict_fixed (category : string) (target : list string) (p : string) :
  In (category, target) phoneme_dict -> In p target ->
  dict_get phoneme_mapping p = Some p.
Proof.
  intros Hg Hp.
  assert (Hall : forallb (fun g => forallb (fun p => match dict_get phoneme_mapping p with
                                                     | Some c => String.eqb c p
                                                     | None => false
                                                     end) (snd g)) phoneme_dict = true)
    by (vm_compute; reflexivity).
  rewrite forallb_forall in Hall. specialize (Hall _ Hg). cbn [snd] in Hall.
  rewrite forallb_forall in Hall. specialize (Hall _ Hp).
  destruct (dict_get phoneme_mapping p) as [c | ]; [ | discriminate].
  apply String.eqb_eq in Hall. congruence.
Qed.

(** X14: for a category group of [phoneme_dict], no label is collapsed
    onto another: [data_loader] raises no [KeyError] for a label, and every
    label it returns is a member of the group, so a probe of the group has at
    most as many classes as the group lists. *)
Theorem category_labels_within_group h (layer_idx : nat) bucket
  (category : string) (target : list string) :
  In (category, target) phoneme_dict ->
  table_get h layer_idx = Some bucket ->
  exists (X : list vec) (y : list string),
    data_loader h layer_idx (Some target) = Ok (X, y) /\
    (forall c, In c y -> In c target) /\
    length (first_occurrences y) <= length target.
Proof.
  intros Hg Hget.
  assert (Hmapped : forall item, In item bucket -> unmapped (Some target) item = false).
  { intros item _. unfold unmapped.
    destruct (selected (Some target) (fst item)) eqn:Hsel; [ | reflexivity].
    unfold selected in Hsel. apply andb_true_iff in Hsel. destruct Hsel as [_ Ht].
    apply py_in_In in Ht. rewrite (@phoneme_dict_fixed _ _ _ Hg Ht).
    apply andb_false_r. }
  pose proof (@load_phonemes_ok vec (Some target) bucket Hmapped [] []) as Hrun.
  cbn [app] in Hrun.
  eexists _, _. split; [rewrite (@data_loader_at vec h layer_idx bucket _ Hget); exact Hrun | ].
  assert (Hin : forall c,
            In c (flat_map loaded_labels (selected_items (Some target) bucket)) ->
            In c target).
  { intros c Hc. apply in_flat_map in Hc. destruct Hc as (item & Hitem & Hc).
    apply filter_In in Hitem. destruct Hitem as [_ Hsel].
    unfold selected in Hsel. apply andb_true_iff in Hsel. destruct Hsel as [_ Ht].
    apply py_in_In in Ht. apply loaded_labels_In in Hc. destruct Hc as [Hmap _].
    rewrite (@phoneme_dict_fixed _ _ _ Hg Ht) in Hmap. congruence. }
  split; [exact Hin | ].
  apply NoDup_incl_length; [apply first_occurrences_NoDup | ].
  intros c Hc. apply Hin. apply first_occurrences_In. exact Hc.
Qed.

End LoaderReturns.

(** X15: the collapser is idempotent on every coarse label but [sil]:
    a coarse label other than [sil] collapses onto itself, and [sil], onto
    which the closures and the pauses collapse, is not a key of the table:
    collapsing it raises [KeyError]. *)
Theorem collapser_idempotent_except_sil (fine coarse : string) :
  phoneme_mapping_getitem fine = Ok coarse ->
  (coarse <> "sil" -> phoneme_mapping_getitem coarse = Ok coarse) /\
  (coarse = "sil" -> phoneme_mapping_getitem coarse = Raise (KeyError_label "sil")).
Proof.
  unfold phoneme_mapping_getitem at 1.
  destruct (dict_get phoneme_mapping fine) as [c | ] eqn:Hget; [ | discriminate].
  intros [= ->]. apply dict_get_Some_In in Hget.
  assert (Hall : forallb (fun e => String.eqb (snd e) "sil"
                                   || match dict_get phoneme_mapping (snd e) with
                                      | Some c => String.eqb c (snd e)
                                      | None => false
                                      end) phoneme_mapping = true)
    by (vm_compute; reflexivity).
  rewrite forallb_forall in Hall. specialize (Hall _ Hget). cbn [snd] in Hall.
  split.
  - intros Hne. apply String.eqb_neq in Hne. rewrite Hne in Hall. cbn [orb] in Hall.
    unfold phoneme_mapping_getitem.
    destruct (dict_get phoneme_mapping coarse) as [c | ]; [ | discriminate].
    apply String.eqb_eq in Hall. congruence.
  - intros ->. vm_compute. reflexivity.
Qed.

Section ProbingEdges.
Variables (vec model accuracy : Type).
Variable fit : list vec -> list string -> result model.
Variable predict : model -> list vec -> list string.
Variable accuracy_score : list string -> list string -> accuracy.
Implicit Types (w : world model accuracy) (train test : phoneme_table (option vec)).




(** The loop over the category groups when there is no layer. *)
Lemma probe_categories_no_layer train test (categories : sdict (list string)) :
  forall (accs_per_category : list (list accuracy)) w,
  probe_categories fit predict accuracy_score train test 0 categories accs_per_category w
  = ({| layer_probes := layer_probes w;
        console := console w ++ map (fun c => PrintTraining accuracy (fst c)) categories |},
     Ok (accs_per_category ++ map (fun _ => []) categories)).
Proof.
  induction categories as [ | [category target] categories IH]; intros accs w.
  - simpl. rewrite !app_nil_r. destruct w; reflexivity.
  - cbn [probe_categories seq probe_layers]. unfold mbind, emit, ret.
    rewrite IH. cbn [layer_probes console map fst]. rewrite <- !app_assoc. reflexivity.
Qed.

(** X18: with no layer the run completes without touching the data:
    nothing is loaded, fitted or predicted; the groups are announced and
    each gets an empty list of accuracies. *)
Theorem no_layer_no_probe train test (categories : sdict (list string)) :
  probing_run fit predict accuracy_score train test 0 categories
  = ({| layer_probes := [];
        console := map (fun c => PrintTraining accuracy (fst c)) categories |},
     Ok (map (fun _ => []) categories)).
Proof. unfold probing_run. rewrite probe_categories_no_layer. reflexivity. Qed.

End ProbingEdges.

Section SortThenLoad.
Variable vec : Type.

Lemma table_get_as_states (table : phoneme_table vec) (l : nat) :
  table_get (as_states table) l
  = option_map (map (fun item => (fst item, map Some (snd item)))) (table_get table l).
Proof.
  unfold table_get, as_states.
  induction table as [ | [l' bucket] table IH]; [reflexivity | ].
  cbn [map find fst snd]. destruct (Nat.eqb l' l); [reflexivity | exact IH].
Qed.

Lemma present_map_Some (xs : list vec) : present (map Some xs) = xs.
Proof.
  unfold present. induction xs as [ | x xs IH]; [reflexivity | ].
  simpl. f_equal. exact IH.
Qed.

(** The vectors of the selected buckets, read through the keys. *)
Lemma selected_buckets_by_key (sel : string -> bool) (bucket : sdict (list vec)) :
  NoDup (dict_keys bucket) ->
  flat_map snd (filter (fun item => sel (fst item)) bucket)
  = flat_map (dd_get bucket) (filter sel (dict_keys bucket)).
Proof.
  intros Hnd.
  transitivity (flat_map (fun item => dd_get bucket (fst item))
                         (filter (fun item => sel (fst item)) bucket)).
  - apply flat_map_ext_In. intros [k v] Hin. apply filter_In in Hin.
    destruct Hin as [Hin _]. unfold dd_get. cbn [fst snd].
    rewrite (@dict_get_unique _ bucket k v Hnd Hin). reflexivity.
  - unfold dict_keys. generalize (dd_get bucket). intros g. clear Hnd.
    induction bucket as [ | [k v] bucket IH]; [reflexivity | ].
    cbn [map filter fst]. destruct (sel k); cbn [flat_map fst]; rewrite IH; reflexivity.
Qed.

(** X16: the aligner followed by the loader. On well-formed frame
    states whose labels are [q] or keys of [phoneme_mapping], loading a layer
    below [num_layers] of the table of the aligner raises nothing; the
    vectors returned are, for every key of the layer that the loader selects,
    in key order, the frames of the segments with that label; there are as
    many labels as vectors. *)
Theorem sorted_states_loaded (data : list phonetic_detail)
  (frame_states : frame_table vec) (num_layers l : nat) (target : option (list string)) :
  well_formed_frames data num_layers frame_states ->
  l < num_layers ->
  (forall item p, In item (layer_waveforms l frame_states) ->
                  In p (waveform_labels data item) ->
                  p = "q" \/ In p (dict_keys phoneme_mapping)) ->
  exists table bucket (y : list string),
    sort_states_per_phoneme data frame_states num_layers = Ok table /\
    table_get table l = Some bucket /\
    data_loader (as_states table) l target
    = Ok (flat_map (fun p => flat_map (waveform_frames data p)
                                      (layer_waveforms l frame_states))
                   (filter (selected target) (dict_keys bucket)),
          y) /\
    length y
    = length (flat_map (fun p => flat_map (waveform_frames data p)
                                          (layer_waveforms l frame_states))
                       (filter (selected target) (dict_keys bucket))).
Proof.
  intros Hwf Hl Hknown.
  destruct (@sort_states_per_phoneme_holds vec data num_layers frame_states Hwf)
    as (table & Hrun & _ & Hall).
  destruct (Hall l Hl) as (bucket & Hget & Hcontent & Hlabels & Hnd).
  set (bucket' := map (fun item : string * list vec => (fst item, map Some (snd item)))
                      bucket).
  assert (Hget' : table_get (as_states table) l = Some bucket').
  { rewrite table_get_as_states, Hget. reflexivity. }
  assert (Hmapped : forall item, In item bucket' -> unmapped target item = false).
  { intros item Hin. apply in_map_iff in Hin. destruct Hin as ([p xs] & <- & Hin).
    cbn [fst snd]. unfold unmapped. cbn [fst snd].
    assert (Hp : In p (dict_keys bucket)) by (apply (in_map fst) in Hin; exact Hin).
    apply Hlabels in Hp. apply in_flat_map in Hp. destruct Hp as (item & Hitem & Hp).
    destruct (Hknown item p Hitem Hp) as [-> | Hkey].
    - unfold selected. rewrite String.eqb_refl. reflexivity.
    - destruct (dict_get_In _ _ Hkey) as (c & ->). apply andb_false_r. }
  pose proof (@load_phonemes_ok vec target bucket' Hmapped [] []) as Hload.
  cbn [app] in Hload.
  assert (HX : flat_map (fun item => present (snd item)) (selected_items target bucket')
               = flat_map (fun p => flat_map (waveform_frames data p)
                                             (layer_waveforms l frame_states))
                          (filter (selected target) (dict_keys bucket))).
  { rewrite (@flat_map_ext_In _ _ _ (dd_get bucket)
               (filter (selected target) (dict_keys bucket)))
      by (intros p _; symmetry; apply Hcontent).
    rewrite <- (@selected_buckets_by_key (selected target) bucket Hnd).
    unfold selected_items, bucket'. clear.
    induction bucket as [ | [p xs] bucket IH]; [reflexivity | ].
    cbn [map filter fst snd]. destruct (selected target p); [ | exact IH].
    cbn [flat_map fst snd]. rewrite present_map_Some, IH. reflexivity. }
  exists table, bucket, (flat_map loaded_labels (selected_items target bucket')).
  split; [exact Hrun | ]. split; [exact Hget | ].
  assert (Hdl : data_loader (as_states table) l target
                = Ok (flat_map (fun item => present (snd item))
                               (selected_items target bucket'),
                      flat_map loaded_labels (selected_items target bucket'))).
  { rewrite (@data_loader_at vec (as_states table) l bucket' target Hget'). exact Hload. }
  split.
  - rewrite Hdl, HX. reflexivity.
  - rewrite <- HX. symmetry. exact (data_loader_lengths _ _ _ Hdl).
Qed.

End SortThenLoad.

(** ** Sample runs *)

(** Proves a sample well formed. *)
Ltac sample_well_formed :=
  repeat (constructor; cbn [fst snd]);
  try lia;
  try (eexists; split; [reflexivity | ]);
  repeat constructor; unfold valid_sample; simpl; lia.

(** The two adjacent segments against two layers of three frames. *)
Lemma sort_states_per_phoneme_buckets_witness :
  exists table,
    sort_states_per_phoneme [adjacent_segments] two_layer_states 2 = Ok table /\
    map fst table = seq 0 2 /\
    forall l, l < 2 ->
      exists bucket,
        table_get table l = Some bucket /\
        forall p, dd_get bucket p
                  = flat_map (waveform_frames [adjacent_segments] p)
                             (layer_waveforms l two_layer_states).
Proof.
  apply (@sort_states_per_phoneme_buckets Z [adjacent_segments] two_layer_states 2).
  sample_well_formed.
Defined.

(** A segment that starts at frame 50 of a waveform of three frames: its
    label becomes a key with no vector. *)
Lemma label_without_frames :
  sort_states_per_phoneme [late_segment] (one_waveform (numbered_frames 3)) 1
  = Ok [(0, [("aa", [])])].
Proof. vm_compute. reflexivity. Qed.

Lemma sort_states_per_phoneme_labels_witness :
  exists table,
    sort_states_per_phoneme [late_segment] (one_waveform (numbered_frames 3)) 1 = Ok table /\
    forall l, l < 1 ->
      exists bucket,
        table_get table l = Some bucket /\
        NoDup (dict_keys bucket) /\
        forall p, In p (dict_keys bucket)
                  <-> exists item,
                        In item (layer_waveforms l (one_waveform (numbered_frames 3))) /\
                        In p (waveform_labels [late_segment] item).
Proof.
  apply (@sort_states_per_phoneme_labels Z [late_segment]
           (one_waveform (numbered_frames 3)) 1).
  sample_well_formed.
Defined.

(** Frame states with a layer 1 against a table of one layer. *)
Lemma sort_states_per_phoneme_layer_out_of_range_witness :
  sort_states_per_phoneme [adjacent_segments] two_layer_states 1
  = Raise (KeyError_layer 1).
Proof.
  apply (@sort_states_per_phoneme_layer_out_of_range Z [adjacent_segments] 1 1 0
           [(0, [(0, numbered_frames 3)])] [] (numbered_frames 3) [] adjacent_segments).
  - sample_well_formed.
  - lia.
  - reflexivity.
  - repeat constructor; unfold valid_sample; simpl; lia.
  - discriminate.
Defined.

(** A waveform index 1 against data of one utterance. *)
Lemma sort_states_per_phoneme_waveform_out_of_range_witness :
  sort_states_per_phoneme [adjacent_segments]
    [(0, [(0, numbered_frames 3); (1, numbered_frames 3)])] 1
  = Raise IndexError.
Proof.
  apply (@sort_states_per_phoneme_waveform_out_of_range Z [adjacent_segments] 1 0 1
           [] [] (numbered_frames 3) [(0, numbered_frames 3)] []).
  - constructor.
  - lia.
  - sample_well_formed.
  - simpl. lia.
Defined.

(** Index -1 against three frames reads the last one; index -4 raises. *)
Lemma negative_index_not_discarded_witness :
  ((- Z.of_nat (length (numbered_frames 3)) <= -1)%Z ->
   exists x,
     nth_error (numbered_frames 3)
               (Z.to_nat (Z.of_nat (length (numbered_frames 3)) + -1)) = Some x /\
     lookup_states (numbered_frames 3) [(-1)%Z]
     = (xs <- lookup_states (numbered_frames 3) [] ;; Ok (x :: xs))) /\
  ((-1 < - Z.of_nat (length (numbered_frames 3)))%Z ->
   lookup_states (numbered_frames 3) [(-1)%Z] = Raise IndexError).
Proof.
  apply (@negative_index_not_discarded Z (numbered_frames 3) (-1)%Z []). lia.
Defined.

(** A segment that starts one frame before sample 0 is given the last frame
    of the waveform, and the first. *)
Lemma negative_start_reads_last_frame :
  segment_indices (-320) 320 = Ok [-1; 0]%Z /\
  lookup_states (numbered_frames 3) [-1; 0]%Z = Ok [2; 0]%Z /\
  lookup_states (numbered_frames 3) [-4; 0]%Z = Raise IndexError /\
  sort_states_per_phoneme [one_segment (-320) 320 "aa"]
                          (one_waveform (numbered_frames 3)) 1
  = Ok [(0, [("aa", [2; 0]%Z)])].
Proof. vm_compute. repeat split; reflexivity. Qed.

(** The stand-in encoder returns two layers and nothing beyond. *)
Lemma sample_encodings_fit : Forall (fits_layers 2) sample_encodings.
Proof.
  repeat constructor; intros l Hl;
    (destruct l as [ | [ | l]]; [lia | lia | destruct l; reflexivity]).
Defined.

Lemma sample_encodings_encoded :
  Forall2 (fun item out => sample_hidden_states (audio_array item) = Ok out)
          [sample_item; short_item] sample_encodings.
Proof. repeat constructor. Defined.

(** Two instances through the stand-in encoder. *)
Lemma extract_hidden_states_frames_witness :
  exists frame_states,
    extract_hidden_states sample_hidden_states [sample_item; short_item] 2
    = (map (fun w => (w, length [sample_item; short_item]))
           (seq 0 (length [sample_item; short_item])),
       Ok frame_states) /\
    map fst frame_states = seq 0 2 /\
    forall l, l < 2 ->
      layer_waveforms l frame_states
      = map (fun w => (w, encoded_frames sample_encodings l w))
            (seq 0 (length [sample_item; short_item])).
Proof.
  exact (@extract_hidden_states_frames (list Z) Z sample_hidden_states
           [sample_item; short_item] 2 sample_encodings
           sample_encodings_encoded sample_encodings_fit).
Defined.

Lemma extract_hidden_states_sample :
  extract_hidden_states sample_hidden_states [sample_item; short_item] 2
  = ([(0, 2); (1, 2)], Ok sample_frames).
Proof. vm_compute. reflexivity. Qed.

(** The stand-in encoder, with its two layers, against one layer. *)
Lemma extract_hidden_states_too_many_layers_witness :
  extract_hidden_states sample_hidden_states ([] ++ sample_item :: [short_item]) 1
  = (map (fun w => (w, length ([] ++ sample_item :: [short_item])))
         (seq 0 (S (length (@nil (timit_item (list Z)))))),
     Raise (KeyError_layer 1)).
Proof.
  apply (@extract_hidden_states_too_many_layers (list Z) Z sample_hidden_states
           [] [short_item] sample_item 1 [] [[[1; 2; 3]]; [[2; 4; 6]]]%Z).
  - constructor.
  - constructor.
  - reflexivity.
  - discriminate.
Defined.

(** The keys after the two instances. *)
Lemma extract_hidden_states_keys_witness :
  frame_keys sample_frames
  = map (fun l => (l, seq 0 (length [sample_item; short_item]))) (seq 0 2) /\
  [(0, 2); (1, 2)]
  = map (fun w => (w, length [sample_item; short_item]))
        (seq 0 (length [sample_item; short_item])).
Proof.
  apply (@extract_hidden_states_keys (list Z) Z sample_hidden_states
           [sample_item; short_item] 2). reflexivity.
Defined.

(** The instance without samples stops the extraction. *)
Lemma extract_hidden_states_encoder_raises_witness :
  extract_hidden_states sample_hidden_states
                        ([sample_item] ++ silent_item :: [short_item]) 2
  = (map (fun w => (w, length ([sample_item] ++ silent_item :: [short_item])))
         (seq 0 (S (length [sample_item]))),
     Raise ValueError).
Proof.
  apply (@extract_hidden_states_encoder_raises (list Z) Z sample_hidden_states
           [sample_item] [short_item] silent_item 2 [[[[1; 2; 3]]; [[2; 4; 6]]]]%Z
           ValueError).
  - repeat constructor.
  - repeat constructor; intros l Hl;
      (destruct l as [ | [ | l]]; [lia | lia | destruct l; reflexivity]).
  - reflexivity.
Defined.

(** The two instances, extracted and sorted. *)
Lemma extracted_states_sorted_witness :
  exists frame_states table,
    snd (extract_hidden_states sample_hidden_states [sample_item; short_item] 2)
    = Ok frame_states /\
    sort_states_per_phoneme (map (@item_phonetic_detail (list Z)) [sample_item; short_item])
                            frame_states 2 = Ok table /\
    forall l, l < 2 ->
      exists bucket,
        table_get table l = Some bucket /\
        forall p,
          dd_get bucket p
          = flat_map (fun w => waveform_frames
                                 (map (@item_phonetic_detail (list Z))
                                      [sample_item; short_item]) p
                                 (w, encoded_frames sample_encodings l w))
                     (seq 0 (length [sample_item; short_item])).
Proof.
  apply (@extracted_states_sorted (list Z) Z sample_hidden_states
           [sample_item; short_item] 2 sample_encodings
           sample_encodings_encoded sample_encodings_fit).
  repeat constructor; unfold valid_sample; simpl; lia.
Defined.

Lemma extracted_states_sorted_sample :
  sort_states_per_phoneme (map (@item_phonetic_detail (list Z)) [sample_item; short_item])
    sample_frames 2
  = Ok sample_sorted.
Proof. vm_compute. reflexivity. Qed.

(** Three instances against four labels: the second class has one pair
    only and is left out. *)
Lemma balance_classes_any_lengths_witness :
  exists (m : nat) (bX : list nat) (bY : list string),
    is_min_class_count m ["m"; "m"; "n"; "n"] /\
    balance_classes [1; 2; 3] ["m"; "m"; "n"; "n"] = Ok (bX, bY) /\
    length bX = length bY /\
    combine bX bY
    = flat_map (class_block m (combine [1; 2; 3] ["m"; "m"; "n"; "n"]))
               (first_occurrences ["m"; "m"; "n"; "n"]) /\
    (forall p, In p (combine bX bY) -> In p (combine [1; 2; 3] ["m"; "m"; "n"; "n"])) /\
    (forall label, In label bY
                   <-> In label ["m"; "m"; "n"; "n"] /\
                       m <= length (class_pairs label
                                      (combine [1; 2; 3] ["m"; "m"; "n"; "n"]))) /\
    (forall label, In label bY -> class_count bY label = m).
Proof.
  apply (@balance_classes_any_lengths nat [1; 2; 3] ["m"; "m"; "n"; "n"]). discriminate.
Defined.

Lemma balance_classes_short_instances :
  balance_classes [1; 2; 3] ["m"; "m"; "n"; "n"] = Ok ([1; 2], ["m"; "m"]) /\
  balance_classes (@nil nat) ["m"; "n"] = Ok ([], []).
Proof. vm_compute. split; reflexivity. Qed.

(** The sample bucket against the nasals. *)
Lemma data_loader_labels_are_coarse_witness :
  length [2; 4] = length ["m"; "n"] /\
  exists bucket,
    table_get sample_states 0 = Some bucket /\
    [2; 4] = flat_map (fun item => present (snd item))
                      (selected_items (Some nasals) bucket) /\
    ["m"; "n"] = flat_map loaded_labels (selected_items (Some nasals) bucket) /\
    forall c, In c ["m"; "n"] <->
      exists fine states,
        In (fine, states) bucket /\ fine <> "q" /\
        (forall t, Some nasals = Some t -> In fine t) /\
        present states <> [] /\
        phoneme_mapping_getitem fine = Ok c.
Proof.
  apply (@data_loader_labels_are_coarse nat sample_states 0 (Some nasals)
           [2; 4] ["m"; "n"]).
  reflexivity.
Defined.

(** The sample bucket against the group of the nasals. *)
Lemma category_labels_within_group_witness :
  exists (X : list nat) (y : list string),
    data_loader sample_states 0 (Some nasals) = Ok (X, y) /\
    (forall c, In c y -> In c nasals) /\
    length (first_occurrences y) <= length nasals.
Proof.
  apply (@category_labels_within_group nat sample_states 0 sample_bucket "nasals" nasals).
  - right. right. left. reflexivity.
  - reflexivity.
Defined.

(** A closure collapses onto [sil], which does not collapse. *)
Lemma collapser_idempotent_except_sil_witness :
  ("sil" <> "sil" -> phoneme_mapping_getitem "sil" = Ok "sil") /\
  ("sil" = "sil" -> phoneme_mapping_getitem "sil" = Raise (KeyError_label "sil")).
Proof.
  apply (@collapser_idempotent_except_sil "pcl" "sil"). reflexivity.
Defined.


(** The loop over the five groups on the same states stops at the first
    one, the stops, before any fit. *)
Lemma stops_without_vectors :
  probing_run sample_fit sample_predict sample_accuracy_score
              two_class_train one_class_test 2 phoneme_dict
  = ({| layer_probes := new_layer_probes string 2;
        console := [PrintTraining (nat * nat) "stops"] |},
     Raise ValueError) /\
  probing_run sample_fit sample_predict sample_accuracy_score
              two_class_train one_class_test 2
              [("nasals", nasals); ("stops", ["p"; "t"; "k"; "b"; "d"; "g"])]
  = ({| layer_probes := [(0, Some "m"); (1, Some "m")];
        console := console (fst single_class_run)
                   ++ [PrintTraining (nat * nat) "stops"] |},
     Raise ValueError).
Proof. vm_compute. split; reflexivity. Qed.

(** The two adjacent segments, sorted and loaded without a target. *)
Lemma sorted_states_loaded_witness :
  exists table bucket (y : list string),
    sort_states_per_phoneme [adjacent_segments] two_layer_states 2 = Ok table /\
    table_get table 1 = Some bucket /\
    data_loader (as_states table) 1 None
    = Ok (flat_map (fun p => flat_map (waveform_frames [adjacent_segments] p)
                                      (layer_waveforms 1 two_layer_states))
                   (filter (selected None) (dict_keys bucket)),
          y) /\
    length y
    = length (flat_map (fun p => flat_map (waveform_frames [adjacent_segments] p)
                                          (layer_waveforms 1 two_layer_states))
                       (filter (selected None) (dict_keys bucket))).
Proof.
  apply (@sorted_states_loaded Z [adjacent_segments] two_layer_states 2 1 None).
  - sample_well_formed.
  - lia.
  - intros item p [<- | []] [<- | [<- | []]]; right; apply py_in_In; reflexivity.
Defined.

Lemma sorted_states_loaded_sample :
  option_map (fun table => data_loader (as_states table) 1 None)
             (match sort_states_per_phoneme [adjacent_segments] two_layer_states 2 with
              | Ok table => Some table
              | Raise _ => None
              end)
  = Some (Ok ([0; 1; 1; 2]%Z, ["aa"; "aa"; "b"; "b"])).
Proof. vm_compute. reflexivity. Qed.
